(** * PII tokenization engine of NL2SQL_System: encoder, decoder, tiered store

    A shallow embedding of [privacy/encoder.py], [privacy/decoder.py] and of
    the PII part of [app/services/redis.py], with the properties the
    specification states about them.

    Conventions of the embedding.
    - A Python [str] is a sequence of Unicode code points: [str := list N].
    - Python integers are [Z]; slices follow Python's clamping rules.
    - Module-level state ([_token_store], [_analyzer], [redis_client], the
      token file, its lock) lives in one record [World], threaded through a
      small monad whose outcomes are: the call returns, raises, or blocks
      forever. *)

From Stdlib Require Import ZArith NArith Lia List String Ascii Bool QArith.
From stdpp Require Import base option list gmap.

Local Open Scope Z_scope.

(** ** Strings *)

Abbreviation str := (list N).

(** ASCII literals of the source, as code point sequences. *)
Definition str_of (s : string) : str :=
  List.map N_of_ascii (list_ascii_of_string s).

(** [len(s)] *)
Definition py_len (s : str) : Z := Z.of_nat (length s).

(** Normalisation of one slice bound against a length (CPython's
    [PySlice_AdjustIndices], step 1): negative bounds count from the end,
    everything is clamped into [0, len]. *)
Definition adjust_index (len i : Z) : Z :=
  if i <? 0 then Z.max 0 (i + len) else Z.min i len.

(** [s[lo:hi]] *)
Definition slice (s : str) (lo hi : Z) : str :=
  let a := adjust_index (py_len s) lo in
  let b := adjust_index (py_len s) hi in
  take (Z.to_nat (b - a)) (drop (Z.to_nat a) s).

(** [s[:hi]] *)
Definition slice_to (s : str) (hi : Z) : str := slice s 0 hi.

(** [s[lo:]] *)
Definition slice_from (s : str) (lo : Z) : str := slice s lo (py_len s).

(** ** [str.encode()]: UTF-8

    Lone surrogates cannot be encoded: CPython raises [UnicodeEncodeError].
    [None] stands for that exception. *)

Definition utf8_char (c : N) : option (list Z) :=
  let z := Z.of_N c in
  if z <? 128 then Some [z]
  else if z <? 2048 then
    Some [Z.lor 192 (Z.shiftr z 6); Z.lor 128 (Z.land z 63)]
  else if (55296 <=? z) && (z <=? 57343) then None
  else if z <? 65536 then
    Some [Z.lor 224 (Z.shiftr z 12);
          Z.lor 128 (Z.land (Z.shiftr z 6) 63);
          Z.lor 128 (Z.land z 63)]
  else if z <=? 1114111 then
    Some [Z.lor 240 (Z.shiftr z 18);
          Z.lor 128 (Z.land (Z.shiftr z 12) 63);
          Z.lor 128 (Z.land (Z.shiftr z 6) 63);
          Z.lor 128 (Z.land z 63)]
  else None.

Fixpoint utf8_encode (s : str) : option (list Z) :=
  match s with
  | [] => Some []
  | c :: s' =>
      match utf8_char c, utf8_encode s' with
      | Some bs, Some rest => Some (bs ++ rest)
      | _, _ => None
      end
  end.

(** A value made of Unicode scalar values can be encoded, so a token is
    produced for it. *)
Definition scalar_value (c : N) : Prop :=
  (c < 55296 \/ 57343 < c <= 1114111)%N.

(** The same test, computed. *)
Definition is_scalar (c : N) : bool :=
  ((c <? 55296) || ((57343 <? c) && (c <=? 1114111)))%N.

(** ** [hashlib.sha256] (FIPS 180-4), on 32-bit words held in [Z] *)

Module SHA256.

Definition w32 (x : Z) : Z := x mod 4294967296.
Definition add32 (x y : Z) : Z := w32 (x + y).
Definition rotr (n x : Z) : Z :=
  w32 (Z.lor (Z.shiftr x n) (Z.shiftl x (32 - n))).
Definition not32 (x : Z) : Z := 4294967295 - x.

Definition Ch (x y z : Z) := Z.lxor (Z.land x y) (Z.land (not32 x) z).
Definition Maj (x y z : Z) :=
  Z.lxor (Z.lxor (Z.land x y) (Z.land x z)) (Z.land y z).
Definition Sigma0 x := Z.lxor (Z.lxor (rotr 2 x) (rotr 13 x)) (rotr 22 x).
Definition Sigma1 x := Z.lxor (Z.lxor (rotr 6 x) (rotr 11 x)) (rotr 25 x).
Definition sigma0 x := Z.lxor (Z.lxor (rotr 7 x) (rotr 18 x)) (Z.shiftr x 3).
Definition sigma1 x := Z.lxor (Z.lxor (rotr 17 x) (rotr 19 x)) (Z.shiftr x 10).

(** The round constants: the first 32 bits of the fractional parts of the
    cube roots of the first 64 primes (FIPS 180-4, 4.2.2), computed. *)
Definition is_prime (n : nat) : bool :=
  (1 <? n)%nat &&
  forallb (fun d => negb (n mod d =? 0)%nat) (seq 2 (n - 2)).

Definition primes (count : nat) : list Z :=
  List.map Z.of_nat (firstn count (List.filter is_prime (seq 2 310))).

(** Largest [r] below [2 ^ bits] with [r ^ 3 <= n], bit by bit. *)
Fixpoint cube_root_bits (bits : nat) (n r : Z) : Z :=
  match bits with
  | O => r
  | S b =>
      let r' := r + Z.shiftl 1 (Z.of_nat b) in
      cube_root_bits b n (if r' * r' * r' <=? n then r' else r)
  end.

Definition frac_cube_root (p : Z) : Z :=
  w32 (cube_root_bits 36 (Z.shiftl p 96) 0).

Definition frac_sqrt (p : Z) : Z := w32 (Z.sqrt (Z.shiftl p 64)).

Definition K : list Z := List.map frac_cube_root (primes 64).

(** The eight working variables / chaining values. *)
Record state := mk_state {
  ha : Z; hb : Z; hc : Z; hd : Z; he : Z; hf : Z; hg : Z; hh : Z }.

(** The initial hash value: the first 32 bits of the fractional parts of
    the square roots of the first 8 primes (FIPS 180-4, 5.3.3). *)
Definition H0 : state :=
  match List.map frac_sqrt (primes 8) with
  | [a; b; c; d; e; f; g; h] => mk_state a b c d e f g h
  | _ => mk_state 0 0 0 0 0 0 0 0
  end.

(** Message padding: 0x80, zeros up to 56 mod 64, 64-bit big-endian bit
    length. *)
Definition be_bytes (n : nat) (x : Z) : list Z :=
  List.map (fun i => Z.land (Z.shiftr x (8 * Z.of_nat i)) 255) (rev (seq 0 n)).

Definition pad (msg : list Z) : list Z :=
  let l := Z.of_nat (length msg) in
  let zeros := Z.to_nat ((55 - l) mod 64) in
  msg ++ [128] ++ repeat 0 zeros ++ be_bytes 8 (8 * l).

Fixpoint words_of_bytes (bs : list Z) : list Z :=
  match bs with
  | b0 :: b1 :: b2 :: b3 :: rest =>
      (Z.lor (Z.shiftl b0 24)
         (Z.lor (Z.shiftl b1 16) (Z.lor (Z.shiftl b2 8) b3)))
      :: words_of_bytes rest
  | _ => []
  end.

(** Message schedule. [w] holds W_0 .. W_{t-1}; each step appends W_t. *)
Definition schedule_step (w : list Z) : list Z :=
  let t := length w in
  let g i := nth (t - i) w 0 in
  w ++ [add32 (add32 (sigma1 (g 2%nat)) (g 7%nat))
              (add32 (sigma0 (g 15%nat)) (g 16%nat))].

Definition schedule (block : list Z) : list Z :=
  Nat.iter 48 schedule_step block.

Definition round (s : state) (kw : Z * Z) : state :=
  let t1 := add32 (add32 (add32 (hh s) (Sigma1 (he s)))
                         (add32 (Ch (he s) (hf s) (hg s)) (fst kw)))
                  (snd kw) in
  let t2 := add32 (Sigma0 (ha s)) (Maj (ha s) (hb s) (hc s)) in
  mk_state (add32 t1 t2) (ha s) (hb s) (hc s)
           (add32 (hd s) t1) (he s) (hf s) (hg s).

Definition compress (h : state) (block : list Z) : state :=
  let s := fold_left round (combine K (schedule block)) h in
  mk_state (add32 (ha h) (ha s)) (add32 (hb h) (hb s))
           (add32 (hc h) (hc s)) (add32 (hd h) (hd s))
           (add32 (he h) (he s)) (add32 (hf h) (hf s))
           (add32 (hg h) (hg s)) (add32 (hh h) (hh s)).

(** Blocks of 16 words; [fuel] bounds the number of blocks. *)
Fixpoint blocks (fuel : nat) (ws : list Z) (h : state) : state :=
  match fuel with
  | O => h
  | S fuel' =>
      match ws with
      | [] => h
      | _ => blocks fuel' (drop 16 ws) (compress h (take 16 ws))
      end
  end.

Definition digest (msg : list Z) : state :=
  let ws := words_of_bytes (pad msg) in
  blocks (length ws) ws H0.

(** [hexdigest()]: 64 lowercase hexadecimal characters. *)
Definition hex_digit (v : Z) : N :=
  let d := v mod 16 in
  if d <? 10 then Z.to_N (48 + d) else Z.to_N (87 + d).

Definition hex8 (w : Z) : str :=
  [hex_digit (Z.shiftr w 28); hex_digit (Z.shiftr w 24);
   hex_digit (Z.shiftr w 20); hex_digit (Z.shiftr w 16);
   hex_digit (Z.shiftr w 12); hex_digit (Z.shiftr w 8);
   hex_digit (Z.shiftr w 4);  hex_digit w].

Definition hexdigest (msg : list Z) : str :=
  let s := digest msg in
  hex8 (ha s) ++ hex8 (hb s) ++ hex8 (hc s) ++ hex8 (hd s) ++
  hex8 (he s) ++ hex8 (hf s) ++ hex8 (hg s) ++ hex8 (hh s).

End SHA256.

(** [str.upper()] on the characters it is applied to here (ASCII). *)
Definition upper_char (c : N) : N :=
  if ((97 <=? c) && (c <=? 122))%N then (c - 32)%N else c.
Definition upper (s : str) : str := List.map upper_char s.

(** ** encoder.py: [get_token_hash] *)

Definition get_token_hash (value entity_type : str) : option str :=
  match utf8_encode value with
  | None => None
  | Some bytes =>
      let short_hash := upper (take 8 (SHA256.hexdigest bytes)) in
      Some (str_of "[" ++ entity_type ++ str_of "_" ++ short_hash ++ str_of "]")
  end.

(** ** Python's [re]: a backtracking matcher

    Ordered choice, greedy repetition, continuation-passing. A matcher gets
    the character before the current position (for [\b]), the rest of the
    subject, and a continuation that receives the same two after the match;
    the first success in backtracking order is the answer, as in CPython's
    engine. Character classes are predicates on code points. *)

Inductive regex :=
| Eps
| Chr (c : N)
| Cls (f : N -> bool)
| Seq (r1 r2 : regex)
| Alt (r1 r2 : regex)
| Star (r : regex)
| WordB (w : N -> bool).

Definition Plus (r : regex) : regex := Seq r (Star r).
Definition Opt (r : regex) : regex := Alt r Eps.
Fixpoint Rep (n : nat) (r : regex) : regex :=
  match n with O => Eps | S n' => Seq r (Rep n' r) end.
Definition AtLeast (n : nat) (r : regex) : regex := Seq (Rep n r) (Star r).
Fixpoint Lit (s : str) : regex :=
  match s with [] => Eps | c :: s' => Seq (Chr c) (Lit s') end.
Fixpoint AltL (rs : list regex) : regex :=
  match rs with
  | [] => Cls (fun _ => false)
  | [r] => r
  | r :: rs' => Alt r (AltL rs')
  end.

Definition cont := option N -> str -> option str.
Definition matcher := option N -> str -> cont -> option str.

Definition is_word_at (w : N -> bool) (c : option N) : bool :=
  match c with Some x => w x | None => false end.

(** Greedy [r*]: one more iteration of the body first, the continuation
    second. An iteration that consumes nothing ends the loop. *)
Fixpoint star_loop (body : matcher) (fuel : nat) : matcher :=
  fun prev s k =>
    match fuel with
    | O => k prev s
    | S fuel' =>
        match body prev s
                (fun p' s' =>
                   if (length s' <? length s)%nat
                   then star_loop body fuel' p' s' k else None) with
        | Some x => Some x
        | None => k prev s
        end
    end.

Fixpoint rmatch (r : regex) : matcher :=
  match r with
  | Eps => fun prev s k => k prev s
  | Chr c => fun prev s k =>
      match s with
      | x :: s' => if (x =? c)%N then k (Some x) s' else None
      | [] => None
      end
  | Cls f => fun prev s k =>
      match s with
      | x :: s' => if f x then k (Some x) s' else None
      | [] => None
      end
  | Seq r1 r2 => fun prev s k =>
      rmatch r1 prev s (fun p' s' => rmatch r2 p' s' k)
  | Alt r1 r2 => fun prev s k =>
      match rmatch r1 prev s k with
      | Some x => Some x
      | None => rmatch r2 prev s k
      end
  | Star r1 => fun prev s k => star_loop (rmatch r1) (length s) prev s k
  | WordB w => fun prev s k =>
      if xorb (is_word_at w prev) (is_word_at w (head s))
      then k prev s else None
  end.

(** The match of [r] starting exactly here: what is left after it. *)
Definition match_here (r : regex) (prev : option N) (s : str) : option str :=
  rmatch r prev s (fun _ rest => Some rest).

(** [re.fullmatch] *)
Definition fullmatch (r : regex) (s : str) : bool :=
  match rmatch r None s
          (fun _ rest => match rest with [] => Some [] | _ => None end) with
  | Some _ => true
  | None => false
  end.

(** [re.finditer]: leftmost non-overlapping matches as (start, end);
    [skip] counts the characters of the previous match still to pass. *)
Fixpoint finditer_from (r : regex) (prev : option N) (s : str)
    (pos : Z) (skip : nat) : list (Z * Z) :=
  match s with
  | [] =>
      match skip, match_here r prev [] with
      | O, Some _ => [(pos, pos)]
      | _, _ => []
      end
  | c :: s' =>
      match skip with
      | S n => finditer_from r (Some c) s' (pos + 1) n
      | O =>
          match match_here r prev s with
          | Some rest =>
              let m := (length s - length rest)%nat in
              (pos, pos + Z.of_nat m)
                :: finditer_from r (Some c) s' (pos + 1) (m - 1)
          | None => finditer_from r (Some c) s' (pos + 1) 0
          end
      end
  end.

Definition finditer (r : regex) (text : str) : list (Z * Z) :=
  finditer_from r None text 0 0.

(** [re.findall] for a pattern without groups: the matched substrings. *)
Definition findall (r : regex) (text : str) : list str :=
  List.map (fun m => slice text (fst m) (snd m)) (finditer r text).

(** Character classes written out in the source's patterns. *)
Definition in_range (lo hi c : N) : bool := ((lo <=? c) && (c <=? hi))%N.
Definition chr (s : string) : N :=
  match s with String a _ => N_of_ascii a | EmptyString => 0%N end.
Definition one_of (s : string) (c : N) : bool :=
  existsb (N.eqb c) (str_of s).

Definition cls_upper (c : N) : bool := in_range (chr "A") (chr "Z") c.
Definition cls_lower (c : N) : bool := in_range (chr "a") (chr "z") c.
Definition cls_09 (c : N) : bool := in_range (chr "0") (chr "9") c.

(** decoder.py: [token_pattern = r"\[[A-Z_]+_[0-9A-F]{8}\]"] *)
Definition cls_type (c : N) : bool := cls_upper c || (c =? chr "_")%N.
Definition cls_hex (c : N) : bool :=
  cls_09 c || in_range (chr "A") (chr "F") c.

Definition token_pattern : regex :=
  Seq (Chr (chr "["))
   (Seq (Plus (Cls cls_type))
    (Seq (Chr (chr "_"))
     (Seq (Rep 8 (Cls cls_hex))
          (Chr (chr "]"))))).


(** ** [str.replace(old, new)]

    Leftmost non-overlapping occurrences; [skip] counts the characters of
    the occurrence just replaced that are still to pass. An empty [old]
    matches before every character and at the end. *)

Fixpoint starts_with (p s : str) : bool :=
  match p, s with
  | [], _ => true
  | a :: p', b :: s' => (a =? b)%N && starts_with p' s'
  | _ :: _, [] => false
  end.

Fixpoint replace_from (old new s : str) (skip : nat) : str :=
  match s with
  | [] => []
  | c :: s' =>
      match skip with
      | S n => replace_from old new s' n
      | O =>
          if starts_with old s
          then new ++ replace_from old new s' (length old - 1)
          else c :: replace_from old new s' 0
      end
  end.

Definition replace (old new s : str) : str :=
  match old with
  | [] => new ++ flat_map (fun c => c :: new) s
  | _ => replace_from old new s 0
  end.

(** ** [list.sort(key=..., reverse=True)]

    Stable: elements with equal keys keep their order, also under
    [reverse=True]. Insertion from the right realises exactly that order. *)

Section Sorting.
Context {A : Type} (key : A -> Z).

Fixpoint insert_desc (x : A) (l : list A) : list A :=
  match l with
  | [] => [x]
  | y :: l' =>
      if key x <? key y then y :: insert_desc x l' else x :: y :: l'
  end.

Definition sort_desc (l : list A) : list A := foldr insert_desc [] l.

Fixpoint insert_asc (x : A) (l : list A) : list A :=
  match l with
  | [] => [x]
  | y :: l' =>
      if key y <? key x then y :: insert_asc x l' else x :: y :: l'
  end.

Definition sort_asc (l : list A) : list A := foldr insert_asc [] l.
End Sorting.

(** ** Data of the encoder *)

(** One detection: [{"entity_type", "start", "end", "score"}]. *)
Record Span := mk_span {
  entity_type : str;
  start : Z;
  end_ : Z;
  score : Q }.

(** One element of the second component of [encode_query]'s result. *)
Record Mapping := mk_mapping {
  m_token : str;
  m_entity_type : str;
  original_len : Z }.

Definition PII_ENTITIES : list str :=
  [str_of "PERSON"; str_of "ORGANIZATION"; str_of "LOCATION";
   str_of "EMAIL_ADDRESS"; str_of "PHONE_NUMBER"; str_of "IN_AADHAAR"].

Definition _PII_TTL_SECONDS : Z := 86400.

(** ** The pattern-based detector's patterns

    [\d], [\s] and [\b] of a [str] pattern follow the Unicode database,
    which is a parameter here. *)

Record UnicodeDB := {
  uni_decimal : N -> bool;
  uni_space : N -> bool;
  uni_alnum : N -> bool }.

Section Patterns.
Variable udb : UnicodeDB.

Definition cls_d : N -> bool := uni_decimal udb.
Definition cls_s : N -> bool := uni_space udb.
Definition cls_w (c : N) : bool := uni_alnum udb c || (c =? chr "_")%N.
Definition cls_alpha (c : N) : bool := cls_lower c || cls_upper c.
Definition cls_orgword (c : N) : bool :=
  cls_upper c || cls_lower c || one_of "&.'-" c.

(** [\+?[\d\s-]{10,}] *)
Definition pat_phone : regex :=
  Seq (Opt (Chr (chr "+")))
      (AtLeast 10 (Cls (fun c => cls_d c || cls_s c || (c =? chr "-")%N))).

(** [[a-zA-Z0-9._%+-]+@[a-zA-Z0-9.-]+\.[a-zA-Z]{2,}] *)
Definition pat_email : regex :=
  Seq (Plus (Cls (fun c => cls_alpha c || cls_09 c || one_of "._%+-" c)))
   (Seq (Chr (chr "@"))
    (Seq (Plus (Cls (fun c => cls_alpha c || cls_09 c || one_of ".-" c)))
     (Seq (Chr (chr "."))
          (AtLeast 2 (Cls cls_alpha))))).

(** [\b[A-Z][a-z]+ [A-Z][a-z]+\b] *)
Definition pat_person : regex :=
  Seq (WordB cls_w)
   (Seq (Cls cls_upper)
    (Seq (Plus (Cls cls_lower))
     (Seq (Chr (chr " "))
      (Seq (Cls cls_upper)
       (Seq (Plus (Cls cls_lower))
            (WordB cls_w)))))).

(** [\b[A-Z][A-Za-z&.'-]+(?:\s+[A-Z][A-Za-z&.'-]+)*\s+(Group|...)\b] *)
Definition org_word : regex := Seq (Cls cls_upper) (Plus (Cls cls_orgword)).
Definition org_suffix : regex :=
  AltL (List.map (fun s => Lit (str_of s))
          ["Group"; "Ltd"; "Limited"; "LLC"; "Inc"; "Corp"; "Corporation";
           "Company"; "Co."; "Technologies"; "Solutions"; "Systems";
           "Enterprises"]%string).
Definition pat_org : regex :=
  Seq (WordB cls_w)
   (Seq org_word
    (Seq (Star (Seq (Plus (Cls cls_s)) org_word))
     (Seq (Plus (Cls cls_s))
      (Seq org_suffix (WordB cls_w))))).

(** [\b\d{4}\s?\d{4}\s?\d{4}\b] *)
Definition pat_aadhaar : regex :=
  Seq (WordB cls_w)
   (Seq (Rep 4 (Cls cls_d))
    (Seq (Opt (Cls cls_s))
     (Seq (Rep 4 (Cls cls_d))
      (Seq (Opt (Cls cls_s))
       (Seq (Rep 4 (Cls cls_d))
            (WordB cls_w)))))).

(** The [patterns] dict of [_regex_detect_pii], in insertion order. *)
Definition patterns : list (str * regex) :=
  [(str_of "PHONE_NUMBER", pat_phone);
   (str_of "EMAIL_ADDRESS", pat_email);
   (str_of "PERSON", pat_person);
   (str_of "ORGANIZATION", pat_org);
   (str_of "IN_AADHAAR", pat_aadhaar)].

(** encoder.py: [_regex_detect_pii] *)
Definition _regex_detect_pii (text : str) : list Span :=
  flat_map
    (fun p =>
       List.map (fun m => mk_span (fst p) (fst m) (snd m) (1 # 2))
                (finditer (snd p) text))
    patterns.
End Patterns.

(** The Unicode classes restricted to ASCII, for running the detector on
    ASCII text. *)
Definition ascii_db : UnicodeDB :=
  {| uni_decimal := cls_09;
     uni_space := fun c => in_range 9 13 c || in_range 28 32 c;
     uni_alnum := fun c => cls_09 c || cls_upper c || cls_lower c |}.

(** ** Process state and environment *)

(** What the token file holds: a JSON object, some other JSON value, or
    bytes that [json.load] rejects. *)
Inductive FileContent :=
| FileDict (d : gmap str str)
| FileNotDict
| FileCorrupt.

(** The model-backed analyzer: [analyze] returns recognizer results or
    raises ([None]). *)
Record Engine := { analyze : str -> option (list Span) }.

(** The global [_analyzer]: [None], an [AnalyzerEngine], or ["fallback"]. *)
Inductive AnalyzerSlot :=
| NotLoaded
| Loaded (e : Engine)
| Fallback.

Inductive RedisHandle := Handle.

(** [RedisService]: the [connected] flag and the [client] attribute. *)
Record RedisService := {
  connected : bool;
  client : option RedisHandle }.

(** External operations, in the order performed. *)
Inductive IOEvent :=
| EvRedisSetex (key : str) (ttl : Z) (value : str)
| EvRedisGet (key : str)
| EvFileExists
| EvFileRead
| EvFileWrite.

Record World := mk_world {
  (* module globals *)
  _analyzer : AnalyzerSlot;
  _token_store : gmap str str;
  redis_client : RedisService;
  _TOKEN_FILE_LOCK : bool;                 (* held? *)
  (* environment *)
  engine_available : option Engine;        (* model loadable now? *)
  redis_server : option (gmap str (str * Z));  (* None: unreachable *)
  token_file : option FileContent;         (* None: no such file *)
  file_writable : bool;
  entropy : nat;                           (* encryptions made so far *)
  io_log : list IOEvent }.

Definition set_analyzer (a : AnalyzerSlot) (w : World) : World :=
  mk_world a (_token_store w) (redis_client w) (_TOKEN_FILE_LOCK w)
    (engine_available w) (redis_server w) (token_file w) (file_writable w)
    (entropy w) (io_log w).
Definition set_token_store (m : gmap str str) (w : World) : World :=
  mk_world (_analyzer w) m (redis_client w) (_TOKEN_FILE_LOCK w)
    (engine_available w) (redis_server w) (token_file w) (file_writable w)
    (entropy w) (io_log w).
Definition set_lock (b : bool) (w : World) : World :=
  mk_world (_analyzer w) (_token_store w) (redis_client w) b
    (engine_available w) (redis_server w) (token_file w) (file_writable w)
    (entropy w) (io_log w).
Definition set_redis_server (s : option (gmap str (str * Z))) (w : World)
    : World :=
  mk_world (_analyzer w) (_token_store w) (redis_client w) (_TOKEN_FILE_LOCK w)
    (engine_available w) s (token_file w) (file_writable w)
    (entropy w) (io_log w).
Definition set_token_file (f : option FileContent) (w : World) : World :=
  mk_world (_analyzer w) (_token_store w) (redis_client w) (_TOKEN_FILE_LOCK w)
    (engine_available w) (redis_server w) f (file_writable w)
    (entropy w) (io_log w).
Definition set_entropy (n : nat) (w : World) : World :=
  mk_world (_analyzer w) (_token_store w) (redis_client w) (_TOKEN_FILE_LOCK w)
    (engine_available w) (redis_server w) (token_file w) (file_writable w)
    n (io_log w).
Definition add_log (l : list IOEvent) (w : World) : World :=
  mk_world (_analyzer w) (_token_store w) (redis_client w) (_TOKEN_FILE_LOCK w)
    (engine_available w) (redis_server w) (token_file w) (file_writable w)
    (entropy w) (io_log w ++ l).
Definition log_io (e : IOEvent) (w : World) : World := add_log [e] w.

(** ** The monad of calls *)

Inductive Exn :=
| UnicodeEncodeError
| ConnectionError
| OSError
| JSONDecodeError
| ModelLoadError
| AnalysisError
| AttributeError
| InvalidToken.

(** A call returns a value, raises, or never comes back (it waits for a
    lock that is not released). *)
Inductive Outcome (A : Type) :=
| Returns (a : A) (w : World)
| Raises (e : Exn) (w : World)
| Blocks.
Arguments Returns {A} a w.
Arguments Raises {A} e w.
Arguments Blocks {A}.

Definition M (A : Type) : Type := World -> Outcome A.

Definition ret {A} (a : A) : M A := fun w => Returns a w.

Definition bind {A B} (m : M A) (k : A -> M B) : M B :=
  fun w =>
    match m w with
    | Returns a w' => k a w'
    | Raises e w' => Raises e w'
    | Blocks => Blocks
    end.

Definition raise {A} (e : Exn) : M A := fun w => Raises e w.

(** [try: body  except Exception as e: handler e] *)
Definition try_except {A} (body : M A) (handler : Exn -> M A) : M A :=
  fun w =>
    match body w with
    | Returns a w' => Returns a w'
    | Raises e w' => handler e w'
    | Blocks => Blocks
    end.

Definition gets {A} (f : World -> A) : M A := fun w => Returns (f w) w.
Definition modify (f : World -> World) : M unit := fun w => Returns tt (f w).

Declare Scope py_scope.
Delimit Scope py_scope with py.
Notation "x <- c1 ;; c2" := (bind c1 (fun x => c2))
  (at level 100, c1 at next level, c2 at level 200, right associativity)
  : py_scope.
Notation "c1 ;;; c2" := (bind c1 (fun _ => c2))
  (at level 100, c2 at level 200, right associativity) : py_scope.
Open Scope py_scope.

(** [for x in l: acc = f acc x], with effects. *)
Fixpoint for_fold {A B} (f : B -> A -> M B) (l : list A) (acc : B) : M B :=
  match l with
  | [] => ret acc
  | x :: l' => acc' <- f acc x ;; for_fold f l' acc'
  end.

(** [out = []; for x in l: out.append(f x)] *)
Fixpoint for_map {A B} (f : A -> M B) (l : list A) : M (list B) :=
  match l with
  | [] => ret []
  | x :: l' => y <- f x ;; ys <- for_map f l' ;; ret (y :: ys)
  end.

(** [threading.Lock]: not reentrant. Acquiring a held lock waits for a
    release that, in a single thread, never comes. *)
Definition acquire : M unit :=
  fun w => if _TOKEN_FILE_LOCK w then Blocks else Returns tt (set_lock true w).
Definition release : M unit := modify (set_lock false).

(** [with _TOKEN_FILE_LOCK: body]; the lock is released on exit, also when
    the body raises. *)
Definition with_lock {A} (body : M A) : M A :=
  acquire ;;;
  r <- try_except (a <- body ;; ret (inl a)) (fun e => ret (inr e)) ;;
  release ;;;
  match r with
  | inl a => ret a
  | inr e => raise e
  end.

(** Truthiness of an [Optional[str]]: [None] and [""] are false. *)
Definition truthy (v : option str) : bool :=
  match v with
  | Some (_ :: _) => true
  | _ => false
  end.

(** ** Tabular results *)

(** A cell of a result row; [isinstance(val, str)] tells [CStr] from the
    rest. *)
Inductive Cell :=
| CStr (s : str)
| CNone
| CBool (b : bool)
| CInt (z : Z)
| CFloat (bits : Z)
| CBytes (b : list Z).

Definition is_str (c : Cell) : bool :=
  match c with CStr _ => true | _ => false end.

(** [{"columns": [...], "rows": [[...], ...], "row_count": N}] *)
Record Table := mk_table {
  columns : list str;
  rows : list (list Cell);
  row_count : Z }.

(** The shapes [decode_results] tells apart. A [dict] is a sequence of
    key/value pairs in insertion order. *)
Inductive QueryResult :=
| RNone
| RTable (t : Table)
| RRecords (items : list (list (str * Cell)))
| RRows (rws : list (list Cell))
| RScalar (c : Cell).

(** [d[k] = v] *)
Fixpoint dict_set (k : str) (v : Cell) (d : list (str * Cell))
    : list (str * Cell) :=
  match d with
  | [] => [(k, v)]
  | (k', v') :: d' =>
      if decide (k = k') then (k, v) :: d' else (k', v') :: dict_set k v d'
  end.

(** ** app/services/redis.py *)

(** [RedisService.__init__]: the connection is made and pinged once. *)
Definition RedisService_init (w : World) : RedisService :=
  match redis_server w with
  | Some _ => {| connected := true; client := Some Handle |}
  | None => {| connected := false; client := None |}
  end.

(** [RedisService.is_connected] *)
Definition is_connected : M bool := gets (fun w => connected (redis_client w)).

Definition pii_key (token : str) : str := str_of "pii:" ++ token.

(** [self.client.setex(key, expiry_seconds, value)] *)
Definition client_setex (key : str) (ttl : Z) (value : str) : M unit :=
  modify (log_io (EvRedisSetex key ttl value)) ;;;
  srv <- gets redis_server ;;
  match srv with
  | Some db => modify (set_redis_server (Some (<[key := (value, ttl)]> db)))
  | None => raise ConnectionError
  end.

(** [self.client.get(key)] *)
Definition client_get (key : str) : M (option str) :=
  modify (log_io (EvRedisGet key)) ;;;
  srv <- gets redis_server ;;
  match srv with
  | Some db => ret (fst <$> db !! key)
  | None => raise ConnectionError
  end.

Definition set_pii_mapping (token encrypted_value : str)
    (expiry_seconds : Z) : M bool :=
  rc <- gets redis_client ;;
  match client rc with
  | None => ret false
  | Some _ =>
      try_except
        (client_setex (pii_key token) expiry_seconds encrypted_value ;;;
         ret true)
        (fun _ => ret false)
  end.

Definition get_pii_mapping (token : str) : M (option str) :=
  rc <- gets redis_client ;;
  match client rc with
  | None => ret None
  | Some _ =>
      try_except (client_get (pii_key token)) (fun _ => ret None)
  end.

(** The session part of [RedisService]: [set_token], [get_token_user],
    [delete_token]. Session keys are ["token:" + token]. *)
Definition token_key (token : str) : str := str_of "token:" ++ token.

Definition set_token (user_id token : str) (expiry_seconds : Z) : M bool :=
  rc <- gets redis_client ;;
  match client rc with
  | None => ret false
  | Some _ =>
      try_except
        (client_setex (token_key token) expiry_seconds user_id ;;; ret true)
        (fun _ => ret false)
  end.

Definition get_token_user (token : str) : M (option str) :=
  rc <- gets redis_client ;;
  match client rc with
  | None => ret None
  | Some _ =>
      try_except (client_get (token_key token)) (fun _ => ret None)
  end.

(** [delete_token] ends after the test of [self.client]: the lines that
    would delete the key stand after the [return]s of [get_pii_mapping] and
    are never run. With a client the call falls off the end and returns
    [None]. *)
Definition delete_token (token : str) : M (option bool) :=
  rc <- gets redis_client ;;
  match client rc with
  | None => ret (Some false)
  | Some _ => ret None
  end.

(** ** encoder.py: the token file *)

(** [os.path.exists(_TOKEN_FILE)] *)
Definition path_exists : M bool :=
  modify (log_io EvFileExists) ;;;
  gets (fun w => match token_file w with Some _ => true | None => false end).

(** [open(_TOKEN_FILE, "r")], [json.load], the [isinstance] test. *)
Definition read_token_file : M (gmap str str) :=
  modify (log_io EvFileRead) ;;;
  f <- gets token_file ;;
  match f with
  | None => raise OSError
  | Some (FileDict d) => ret d
  | Some FileNotDict => ret ∅
  | Some FileCorrupt => raise JSONDecodeError
  end.

(** [open(_TOKEN_FILE, "w")], [json.dump]. *)
Definition write_token_file (data : gmap str str) : M unit :=
  modify (log_io EvFileWrite) ;;;
  ok <- gets file_writable ;;
  if ok then modify (set_token_file (Some (FileDict data)))
  else raise OSError.

Definition _load_token_file : M (gmap str str) :=
  ex <- path_exists ;;
  if negb ex then ret ∅
  else try_except (with_lock read_token_file) (fun _ => ret ∅).

Definition _persist_token (token encrypted_val : str) : M unit :=
  try_except
    (with_lock
       (data <- _load_token_file ;;
        write_token_file (<[token := encrypted_val]> data)))
    (fun _ => ret tt).

Definition get_persisted_token (token : str) : M (option str) :=
  data <- _load_token_file ;;
  ret (data !! token).

(** ** encoder.py: the detector *)

(** The body of the [try] in [get_analyzer]: building the engine. *)
Definition create_engine : M Engine :=
  e <- gets engine_available ;;
  match e with
  | Some e => ret e
  | None => raise ModelLoadError
  end.

Definition get_analyzer : M AnalyzerSlot :=
  a <- gets _analyzer ;;
  match a with
  | NotLoaded =>
      try_except
        (e <- create_engine ;; modify (set_analyzer (Loaded e)))
        (fun _ => modify (set_analyzer Fallback)) ;;;
      gets _analyzer
  | _ => ret a
  end.

(** [analyzer.analyze(text=text, language='en', entities=PII_ENTITIES)] *)
Definition run_analyze (a : AnalyzerSlot) (text : str) : M (list Span) :=
  match a with
  | Loaded e =>
      match analyze e text with
      | Some results => ret results
      | None => raise AnalysisError
      end
  | _ => raise AttributeError
  end.

(** ** What a pattern denotes

    [matches r p s p' s']: [r] can match a prefix of [s] (preceded by [p]),
    leaving [s'] (preceded by [p']). Iterations of a star consume at least
    one character. *)
Inductive matches : regex -> option N -> str -> option N -> str -> Prop :=
| M_Eps p s : matches Eps p s p s
| M_Chr c p s : matches (Chr c) p (c :: s) (Some c) s
| M_Cls f c p s : f c = true -> matches (Cls f) p (c :: s) (Some c) s
| M_Seq r1 r2 p s p1 s1 p2 s2 :
    matches r1 p s p1 s1 -> matches r2 p1 s1 p2 s2 ->
    matches (Seq r1 r2) p s p2 s2
| M_AltL r1 r2 p s p' s' :
    matches r1 p s p' s' -> matches (Alt r1 r2) p s p' s'
| M_AltR r1 r2 p s p' s' :
    matches r2 p s p' s' -> matches (Alt r1 r2) p s p' s'
| M_Star0 r p s : matches (Star r) p s p s
| M_StarS r p s p1 s1 p2 s2 :
    matches r p s p1 s1 -> (length s1 < length s)%nat ->
    matches (Star r) p1 s1 p2 s2 ->
    matches (Star r) p s p2 s2
| M_WordB w p s :
    xorb (is_word_at w p) (is_word_at w (head s)) = true ->
    matches (WordB w) p s p s.

(** The token grammar, spelled out: an opening bracket, one or more of
    [A-Z_], an underscore, eight of [0-9A-F], a closing bracket. *)
Definition token_shape (t : str) : Prop :=
  exists ty hx,
    t = chr "[" :: ty ++ chr "_" :: hx ++ [chr "]"] /\
    ty <> [] /\
    Forall (fun c => cls_type c = true) ty /\
    length hx = 8%nat /\
    Forall (fun c => cls_hex c = true) hx.

(** A text contains a token when some substring has the token's shape. *)
Definition has_token (s : str) : Prop :=
  exists a t b, s = a ++ t ++ b /\ token_shape t.

(** ** The three tiers, read declaratively *)

(** What Redis answers for a token, through this process's client. *)
Definition redis_value (w : World) (token : str) : option str :=
  if connected (redis_client w) then
    match client (redis_client w), redis_server w with
    | Some _, Some db => fst <$> db !! pii_key token
    | _, _ => None
    end
  else None.

(** What the token file holds for a token. *)
Definition file_value (w : World) (token : str) : option str :=
  match token_file w with
  | Some (FileDict d) => d !! token
  | _ => None
  end.

(** The dict [_load_token_file] returns, and the file operations it
    performs. *)
Definition file_dict (w : World) : gmap str str :=
  match token_file w with
  | Some (FileDict d) => d
  | _ => ∅
  end.

Definition load_log (w : World) : list IOEvent :=
  match token_file w with
  | Some _ => [EvFileExists; EvFileRead]
  | None => [EvFileExists]
  end.

(** The first usable value in tier order: in-process dict, Redis, file. *)
Definition tier_value (w : World) (token : str) : option str :=
  if truthy (_token_store w !! token) then _token_store w !! token
  else if truthy (redis_value w token) then redis_value w token
  else file_value w token.

(** The in-process dict after a lookup: a usable value is written back. *)
Definition backfilled (w : World) (token : str) : gmap str str :=
  match tier_value w token with
  | Some (c :: s) => <[token := c :: s]> (_token_store w)
  | _ => _token_store w
  end.

(** [w'] differs from [w] at most in the in-process dict and by further
    entries of the I/O log. *)
Definition same_but_cache (w w' : World) : Prop :=
  _analyzer w' = _analyzer w /\
  redis_client w' = redis_client w /\
  _TOKEN_FILE_LOCK w' = _TOKEN_FILE_LOCK w /\
  engine_available w' = engine_available w /\
  redis_server w' = redis_server w /\
  token_file w' = token_file w /\
  file_writable w' = file_writable w /\
  entropy w' = entropy w /\
  exists l, io_log w' = io_log w ++ l.

(** No mapping for the token in any tier. *)
Definition no_mapping (w : World) (token : str) : Prop :=
  _token_store w !! token = None /\
  (forall db, redis_server w = Some db -> db !! pii_key token = None) /\
  (forall d, token_file w = Some (FileDict d) -> d !! token = None).

(** Which tier an I/O event belongs to. *)
Definition is_file_event (e : IOEvent) : bool :=
  match e with
  | EvFileExists | EvFileRead | EvFileWrite => true
  | _ => false
  end.

Definition is_redis_event (e : IOEvent) : bool :=
  match e with
  | EvRedisSetex _ _ _ | EvRedisGet _ => true
  | _ => false
  end.


(** [keeps P m]: whenever [m] comes back, by return or by exception, from
    a state satisfying [P], the state it leaves satisfies [P]. *)
Definition keeps (P : World -> Prop) {A} (m : M A) : Prop :=
  forall w, P w ->
    match m w with
    | Returns _ w' => P w'
    | Raises _ w' => P w'
    | Blocks => True
    end.

(** The detector has switched to the pattern-based strategy. *)
Definition in_fallback (w : World) : Prop := _analyzer w = Fallback.


(** A pattern that can match the empty string. *)
Fixpoint nullable (r : regex) : bool :=
  match r with
  | Eps => true
  | Chr _ => false
  | Cls _ => false
  | Seq r1 r2 => nullable r1 && nullable r2
  | Alt r1 r2 => nullable r1 || nullable r2
  | Star _ => true
  | WordB _ => true
  end.

(** The entity types the pattern-based detector can report. *)
Definition FALLBACK_ENTITIES : list str :=
  [str_of "PHONE_NUMBER"; str_of "EMAIL_ADDRESS"; str_of "PERSON";
   str_of "ORGANIZATION"; str_of "IN_AADHAAR"].



(** A call that never ends in an exception: from every state it returns
    or does not come back. *)
Definition no_raise {A} (m : M A) : Prop :=
  forall w e w', m w <> Raises e w'.

(** A call whose only exception is [ex]. *)
Definition raises_only {A} (ex : Exn) (m : M A) : Prop :=
  forall w e w', m w = Raises e w' -> e = ex.

(** ** A concrete environment, for running the definitions *)

(** A toy cipher: a marker character in front of the plaintext; whatever
    does not start with the marker fails to decrypt. *)
Definition demo_encrypt (n : nat) (v : str) : str := 36%N :: v.
Definition demo_decrypt (c : str) : option str :=
  match c with
  | 36%N :: v => Some v
  | _ => None
  end.

Definition demo_hash (s : str) : Z := py_len s.

(** A fresh process: nothing loaded, nothing stored, no model, no Redis,
    no token file. *)
Definition fresh_world : World :=
  {| _analyzer := NotLoaded;
     _token_store := ∅;
     redis_client := {| connected := false; client := None |};
     _TOKEN_FILE_LOCK := false;
     engine_available := None;
     redis_server := None;
     token_file := None;
     file_writable := true;
     entropy := 0;
     io_log := [] |}.

(** The same process with a reachable, empty Redis at start-up. *)
Definition redis_world : World :=
  {| _analyzer := NotLoaded;
     _token_store := ∅;
     redis_client := {| connected := true; client := Some Handle |};
     _TOKEN_FILE_LOCK := false;
     engine_available := None;
     redis_server := Some ∅;
     token_file := None;
     file_writable := true;
     entropy := 0;
     io_log := [] |}.

Definition result_of {A} (o : Outcome A) : option A :=
  match o with Returns a _ => Some a | _ => None end.
Definition world_of {A} (o : Outcome A) : option World :=
  match o with Returns _ w => Some w | Raises _ w => Some w | Blocks => None end.

(** The token of "John Smith" as a PERSON, a ciphertext for it, and a
    different ciphertext. *)
Definition tok_john : str := str_of "[PERSON_EF61A579]".
Definition ct_john : str := demo_encrypt 0 (str_of "John Smith").
Definition ct_other : str := demo_encrypt 0 (str_of "Someone Else").

(** The in-process dict and the token file disagree about the token. *)
Definition hit_world : World :=
  {| _analyzer := NotLoaded;
     _token_store := {[ tok_john := ct_john ]};
     redis_client := {| connected := false; client := None |};
     _TOKEN_FILE_LOCK := false;
     engine_available := None;
     redis_server := None;
     token_file := Some (FileDict {[ tok_john := ct_other ]});
     file_writable := true;
     entropy := 0;
     io_log := [] |}.

(** Only the token file knows the token. *)
Definition file_world : World :=
  {| _analyzer := NotLoaded;
     _token_store := ∅;
     redis_client := {| connected := false; client := None |};
     _TOKEN_FILE_LOCK := false;
     engine_available := None;
     redis_server := None;
     token_file := Some (FileDict {[ tok_john := ct_other ]});
     file_writable := true;
     entropy := 0;
     io_log := [] |}.

(** Redis was reachable at start-up and is not any more. *)
Definition redis_down_world : World :=
  {| _analyzer := NotLoaded;
     _token_store := ∅;
     redis_client := {| connected := true; client := Some Handle |};
     _TOKEN_FILE_LOCK := false;
     engine_available := None;
     redis_server := None;
     token_file := None;
     file_writable := true;
     entropy := 0;
     io_log := [] |}.

(** A model-backed analyzer that reports two PERSON spans, [0,5) and
    [6,11), whatever the text; and a process that has it loaded. *)
Definition two_names : Engine :=
  {| analyze := fun _ =>
       Some [mk_span (str_of "PERSON") 0 5 (1 # 1);
             mk_span (str_of "PERSON") 6 11 (1 # 1)] |}.

Definition model_world : World :=
  {| _analyzer := Loaded two_names;
     _token_store := ∅;
     redis_client := {| connected := true; client := Some Handle |};
     _TOKEN_FILE_LOCK := false;
     engine_available := Some two_names;
     redis_server := Some ∅;
     token_file := None;
     file_writable := true;
     entropy := 0;
     io_log := [] |}.

Definition mail_text : str :=
  str_of "Mail john.smith@example.com or Jane Doe".

Definition aadhaar_text : str := str_of "1234 5678 9012".
Section Privacy.

(** Modelled from the spec: [privacy/config.py] is not part of the
    sources. [encrypt(plaintext) -> ciphertext], randomised, so indexed by
    the number of encryptions made before; [decrypt(ciphertext) ->
    plaintext], failing with a [DecryptionError] ([None]). *)
Variable encrypt_value : nat -> str -> str.
Variable decrypt_value : str -> option str.

(** The Unicode database behind [\d], [\s], [\b]. *)
Variable udb : UnicodeDB.

(** [hash(str)], which fixes the iteration order of a [set] of strings. *)
Variable str_hash : str -> Z.

Definition encrypt (value : str) : M str :=
  n <- gets entropy ;;
  modify (set_entropy (S n)) ;;;
  ret (encrypt_value n value).

Definition decrypt (ciphertext : str) : M str :=
  match decrypt_value ciphertext with
  | Some v => ret v
  | None => raise InvalidToken
  end.

Definition detect_pii (text : str) : M (list Span) :=
  analyzer <- get_analyzer ;;
  match analyzer with
  | Fallback => ret (_regex_detect_pii udb text)
  | _ =>
      try_except
        (results <- run_analyze analyzer text ;;
         ret (List.map
                (fun res => mk_span (entity_type res) (start res)
                                    (end_ res) (score res))
                results))
        (fun _ => ret (_regex_detect_pii udb text))
  end.

(** [get_token_hash], raising where [value.encode()] does. *)
Definition token_hash (value entity_type : str) : M str :=
  match get_token_hash value entity_type with
  | Some t => ret t
  | None => raise UnicodeEncodeError
  end.

(** "Store in bridge": the in-process dict, then Redis or the file. *)
Definition store_mapping (token encrypted_val : str) : M unit :=
  ts <- gets _token_store ;;
  modify (set_token_store (<[token := encrypted_val]> ts)) ;;;
  c <- is_connected ;;
  if c then
    set_pii_mapping token encrypted_val _PII_TTL_SECONDS ;;; ret tt
  else _persist_token token encrypted_val.

(** One iteration of the loop of [encode_query]. *)
Definition encode_span (text : str) (acc : str * list Mapping) (res : Span)
    : M (str * list Mapping) :=
  let '(encoded_text, mappings) := acc in
  let original_value := slice text (start res) (end_ res) in
  token <- token_hash original_value (entity_type res) ;;
  encrypted_val <- encrypt original_value ;;
  store_mapping token encrypted_val ;;;
  ret (slice_to encoded_text (start res) ++ token
         ++ slice_from encoded_text (end_ res),
       mappings ++ [mk_mapping token (entity_type res)
                      (end_ res - start res)]).

Definition encode_query (text : str) : M (str * list Mapping) :=
  results <- detect_pii text ;;
  let results := sort_desc start results in
  for_fold (encode_span text) results (text, []).

(** One iteration of the inner loop of [encode_results]. *)
Definition encode_entity (val : str) (ev : str) (ent : Span) : M str :=
  token <- token_hash (slice val (start ent) (end_ ent)) (entity_type ent) ;;
  encrypted_val <- encrypt (slice val (start ent) (end_ ent)) ;;
  store_mapping token encrypted_val ;;;
  ret (slice_to ev (start ent) ++ token ++ slice_from ev (end_ ent)).

Definition encode_cell (val : Cell) : M Cell :=
  match val with
  | CStr s =>
      entities <- detect_pii s ;;
      match entities with
      | [] => ret val
      | _ =>
          ev <- for_fold (encode_entity s) (sort_desc start entities) s ;;
          ret (CStr ev)
      end
  | _ => ret val
  end.

Definition encode_results (columns : list str) (rows : list (list Cell))
    : M (list (list Cell)) :=
  for_map (for_map encode_cell) rows.

(** [get_encrypted_mapping] *)
Definition get_encrypted_mapping : M (gmap str str) := gets _token_store.

(** ** decoder.py *)

(** Iteration order of [set(tokens_found)]: the distinct elements, in an
    order fixed by their hashes. *)
Definition set_iter (l : list str) : list str :=
  sort_asc str_hash (remove_dups l).

Definition backfill (token : str) (v : option str) : M unit :=
  match v with
  | Some (c :: s) =>
      ts <- gets _token_store ;;
      modify (set_token_store (<[token := c :: s]> ts))
  | _ => ret tt
  end.

(** Lines 21-29 of [decode_text]: the in-process dict, Redis when
    connected, the file. *)
Definition lookup_token (token : str) : M (option str) :=
  ts <- gets _token_store ;;
  let encrypted_val := ts !! token in
  c <- (if truthy encrypted_val then ret false else is_connected) ;;
  encrypted_val <-
    (if negb (truthy encrypted_val) && c then
       v <- get_pii_mapping token ;;
       backfill token v ;;; ret v
     else ret encrypted_val) ;;
  if negb (truthy encrypted_val) then
    v <- get_persisted_token token ;;
    backfill token v ;;; ret v
  else ret encrypted_val.

(** The body of the loop of [decode_text]. *)
Definition decode_token (decoded_text : str) (token : str) : M str :=
  encrypted_val <- lookup_token token ;;
  match encrypted_val with
  | Some (c :: s) =>
      try_except
        (original_val <- decrypt (c :: s) ;;
         ret (replace token original_val decoded_text))
        (fun _ => ret decoded_text)
  | _ => ret decoded_text
  end.

Definition decode_text (text : str) : M str :=
  let tokens_found := findall token_pattern text in
  for_fold decode_token (set_iter tokens_found) text.

Definition decode_cell (val : Cell) : M Cell :=
  match val with
  | CStr s => s' <- decode_text s ;; ret (CStr s')
  | _ => ret val
  end.

Definition decode_item (item : list (str * Cell)) : M (list (str * Cell)) :=
  for_fold
    (fun decoded_item kv =>
       v <- decode_cell (snd kv) ;;
       ret (dict_set (fst kv) v decoded_item))
    item [].

Definition decode_results (result : QueryResult) : M QueryResult :=
  match result with
  | RNone => ret RNone
  | RTable t =>
      decoded_rows <- for_map (for_map decode_cell) (rows t) ;;
      ret (RTable (mk_table (columns t) decoded_rows (row_count t)))
  | RRecords [] => ret result
  | RRecords items =>
      decoded_list <- for_map decode_item items ;;
      ret (RRecords decoded_list)
  | RRows [] => ret result
  | RRows rws =>
      decoded_list <- for_map (for_map decode_cell) rws ;;
      ret (RRows decoded_list)
  | RScalar _ => ret result
  end.


(** ** Declarative readings of the decoder *)

(** The original value the stores yield for a token, if any. *)
Definition resolve (w : World) (token : str) : option str :=
  match tier_value w token with
  | Some (c :: s) => decrypt_value (c :: s)
  | _ => None
  end.

(** The effect of the decoder's loop on a text: every token that
    resolves is replaced, in the order given. *)
Definition substitute (w : World) (tokens : list str) (text : str) : str :=
  fold_left
    (fun acc t =>
       match resolve w t with
       | Some v => replace t v acc
       | None => acc
       end)
    tokens text.

(** A token the decoder cannot reverse: no tier has a mapping for it, or
    the ciphertext the tiers yield does not decrypt. *)
Definition unresolved (w : World) (token : str) : Prop :=
  no_mapping w token \/
  exists c, tier_value w token = Some c /\ decrypt_value c = None.

(** ** Declarative readings of the encoder *)

(** The token the encoder computes for a span of [text]. *)
Definition token_of (text : str) (sp : Span) : str :=
  default [] (get_token_hash (slice text (start sp) (end_ sp))
                             (entity_type sp)).

Definition mapping_of (text : str) (sp : Span) : Mapping :=
  mk_mapping (token_of text sp) (entity_type sp) (end_ sp - start sp).

(** [text[pos:hi]] with every span of the ascending list [spans]
    replaced by its token and everything else copied. *)
Fixpoint splice_seg (text : str) (pos : Z) (spans : list Span) (hi : Z)
    : str :=
  match spans with
  | [] => slice text pos hi
  | sp :: rest =>
      slice text pos (start sp) ++ token_of text sp
        ++ splice_seg text (end_ sp) rest hi
  end.

Definition splice (text : str) (spans : list Span) : str :=
  splice_seg text 0 spans (py_len text).

(** A span lies within the text and is not empty. *)
Definition in_text (text : str) (sp : Span) : Prop :=
  0 <= start sp /\ start sp < end_ sp /\ end_ sp <= py_len text.

(** Two spans do not overlap. *)
Definition apart (x y : Span) : Prop :=
  end_ x <= start y \/ end_ y <= start x.

Fixpoint pairwise_apart (l : list Span) : Prop :=
  match l with
  | [] => True
  | x :: l' => Forall (apart x) l' /\ pairwise_apart l'
  end.

(** A list of spans in processing order: each one ends where the one
    before it starts, or earlier; the first one ends within [hi]. *)
Fixpoint chain (hi : Z) (l : list Span) : Prop :=
  match l with
  | [] => 0 <= hi
  | x :: l' => 0 <= start x /\ start x <= end_ x /\ end_ x <= hi /\
               chain (start x) l'
  end.

(** The text the loop produces from [text[:p] ++ r], by recursion on the
    spans still to process. *)
Fixpoint finish (text : str) (p : Z) (r : str) (l : list Span) : str :=
  match l with
  | [] => slice text 0 p ++ r
  | x :: l' =>
      finish text (start x)
        (token_of text x ++ slice text (end_ x) p ++ r) l'
  end.

(** ** Declarative readings of the tabular entry points *)

(** A cell that is not a string is kept; a string stays a string. *)
Definition cell_frame (c c' : Cell) : Prop :=
  if is_str c then is_str c' = true else c' = c.

(** What [decode_results] makes of one cell, in a given state of the
    stores. *)
Definition decode_cell_pure (w : World) (c : Cell) : Cell :=
  match c with
  | CStr s => CStr (substitute w (set_iter (findall token_pattern s)) s)
  | _ => c
  end.

Definition decode_item_pure (w : World) (item : list (str * Cell))
    : list (str * Cell) :=
  fold_left
    (fun d kv => dict_set (fst kv) (decode_cell_pure w (snd kv)) d)
    item [].

Definition decode_results_pure (w : World) (r : QueryResult) : QueryResult :=
  match r with
  | RNone => RNone
  | RTable t =>
      RTable (mk_table (columns t)
                (List.map (List.map (decode_cell_pure w)) (rows t))
                (row_count t))
  | RRecords items => RRecords (List.map (decode_item_pure w) items)
  | RRows rws => RRows (List.map (List.map (decode_cell_pure w)) rws)
  | RScalar c => RScalar c
  end.

(** The string cells of a table can be encoded as UTF-8. *)
Definition encodable_cell (c : Cell) : Prop :=
  match c with
  | CStr s => Forall scalar_value s
  | _ => True
  end.

(** C7 as the specification words it: the tier is chosen by whether Redis
    can be reached when the mapping is written. *)
Definition routes_by_reachability (token enc : str) (w : World) : Prop :=
  exists w',
    store_mapping token enc w = Returns tt w' /\
    _token_store w' !! token = Some enc /\
    match redis_server w with
    | Some db =>
        redis_server w'
          = Some (<[pii_key token := (enc, _PII_TTL_SECONDS)]> db) /\
        token_file w' = token_file w
    | None =>
        file_value w' token = Some enc /\ redis_server w' = None
    end.

(** ** Texts with tokens in them

    A text as a sequence of segments: literal text, and tokens together
    with the values they stand for. [cur] is the text with the tokens in
    it, [orig] the text with the values in their place. *)
Inductive Seg :=
| SLit (s : str)
| STok (t v : str).

Definition cur_seg (sg : Seg) : str :=
  match sg with SLit s => s | STok t _ => t end.
Definition orig_seg (sg : Seg) : str :=
  match sg with SLit s => s | STok _ v => v end.
Definition cur (segs : list Seg) : str := flat_map cur_seg segs.
Definition orig (segs : list Seg) : str := flat_map orig_seg segs.

(** The tokens of a segmented text, in order. *)
Fixpoint tokens_of (segs : list Seg) : list str :=
  match segs with
  | [] => []
  | SLit _ :: rest => tokens_of rest
  | STok t _ :: rest => t :: tokens_of rest
  end.

(** Every occurrence of the token [t0] decoded to [v0]. *)
Definition subst_tok (t0 v0 : str) (segs : list Seg) : list Seg :=
  List.map
    (fun sg =>
       match sg with
       | STok t v => if decide (t = t0) then SLit v0 else sg
       | SLit _ => sg
       end)
    segs.

(** The tokens of a segmented text have the token's shape, and the stores
    resolve each to the value it stands for. *)
Definition seg_ok (w : World) (sg : Seg) : Prop :=
  match sg with
  | SLit _ => True
  | STok t v => token_shape t /\ resolve w t = Some v
  end.

Definition seg_shape (sg : Seg) : Prop :=
  match sg with
  | SLit _ => True
  | STok t _ => token_shape t
  end.

(** The encoded text of [splice_seg], segment by segment. *)
Fixpoint segs_of (text : str) (pos : Z) (spans : list Span) (hi : Z)
    : list Seg :=
  match spans with
  | [] => [SLit (slice text pos hi)]
  | sp :: rest =>
      SLit (slice text pos (start sp))
        :: STok (token_of text sp) (slice text (start sp) (end_ sp))
        :: segs_of text (end_ sp) rest hi
  end.


(** ** Declarative readings for a whole table *)

(** The spans [detect_pii] returns for a text: decided by what the
    process has loaded and, before the first call, by what can be loaded. *)
Definition detected (w : World) (text : str) : list Span :=
  match _analyzer w with
  | Fallback => _regex_detect_pii udb text
  | Loaded e => default (_regex_detect_pii udb text) (analyze e text)
  | NotLoaded =>
      match engine_available w with
      | Some e => default (_regex_detect_pii udb text) (analyze e text)
      | None => _regex_detect_pii udb text
      end
  end.

(** A string cell with its detected spans replaced by their tokens. *)
Definition encode_cell_pure (w : World) (c : Cell) : Cell :=
  match c with
  | CStr s => CStr (splice s (rev (sort_desc start (detected w s))))
  | _ => c
  end.

(** The detected spans of a cell and of a table, each with its text. *)
Definition cell_spans (w : World) (c : Cell) : list (str * Span) :=
  match c with
  | CStr s => List.map (pair s) (detected w s)
  | _ => []
  end.

Definition table_spans (w : World) (rws : list (list Cell))
    : list (str * Span) :=
  flat_map (flat_map (cell_spans w)) rws.

(** A string cell on the happy path: no substring of it has the token's
    shape; its spans lie within it, are not empty, do not overlap and
    carry entity types of [PII_ENTITIES]. *)
Definition clean_cell (w : World) (c : Cell) : Prop :=
  match c with
  | CStr s =>
      (forall a t b, s = a ++ t ++ b -> fullmatch token_pattern t = false) /\
      Forall (in_text s) (detected w s) /\
      pairwise_apart (detected w s) /\
      Forall (fun sp => In (entity_type sp) PII_ENTITIES) (detected w s)
  | _ => True
  end.

(** Every span of [sps] has a token, and the in-process dict holds for it
    a ciphertext of the value of a span of [sps] with that token. *)
Definition covered (sps : list (str * Span)) (w : World) : Prop :=
  forall p, In p sps ->
    get_token_hash (slice p.1 (start p.2) (end_ p.2)) (entity_type p.2)
      = Some (token_of p.1 p.2) /\
    exists q n,
      In q sps /\
      token_of q.1 q.2 = token_of p.1 p.2 /\
      _token_store w !! token_of p.1 p.2
        = Some (encrypt_value n (slice q.1 (start q.2) (end_ q.2))).

(** What holds between two cells while a table is encoded from [w0]: the
    lock is free and the detector answers as it did in [w0]. *)
Definition steady (w0 w : World) : Prop :=
  _TOKEN_FILE_LOCK w = false /\
  forall s, detected w s = detected w0 s.
Example sha_abc :
  SHA256.hexdigest [97; 98; 99] =
  str_of "ba7816bf8f01cfea414140de5dae2223b00361a396177a9cb410ff61f20015ad".
Proof. vm_compute. reflexivity. Qed.

Example sha_empty :
  SHA256.hexdigest [] =
  str_of "e3b0c44298fc1c149afbf4c8996fb92427ae41e4649b934ca495991b7852b855".
Proof. vm_compute. reflexivity. Qed.

Example findall_tokens :
  findall token_pattern
    (str_of "x [PERSON_EF61A579] [A_B_0000000G] [__0123ABCD][a_00000000]")
  = [str_of "[PERSON_EF61A579]"; str_of "[__0123ABCD]"].
Proof. vm_compute. reflexivity. Qed.

Example token_john :
  get_token_hash (str_of "John Smith") (str_of "PERSON")
  = Some (str_of "[PERSON_EF61A579]").
Proof. vm_compute. reflexivity. Qed.

Example token_unicode :
  option_map (take 8 ∘ SHA256.hexdigest) (utf8_encode [233; 8364; 128512]%N)
  = Some (str_of "df922692").
Proof. vm_compute. reflexivity. Qed.

Example regex_contact :
  List.map (fun s => (entity_type s, start s, end_ s))
    (_regex_detect_pii ascii_db
       (str_of "Contact John Smith at john.smith@example.com"))
  = [(str_of "EMAIL_ADDRESS", 22, 44); (str_of "PERSON", 0, 12)].
Proof. vm_compute. reflexivity. Qed.

Example regex_aadhaar :
  List.map (fun s => (entity_type s, start s, end_ s))
    (_regex_detect_pii ascii_db (str_of "1234 5678 9012"))
  = [(str_of "PHONE_NUMBER", 0, 14); (str_of "IN_AADHAAR", 0, 14)].
Proof. vm_compute. reflexivity. Qed.

Example regex_org :
  List.map (fun s => (entity_type s, start s, end_ s))
    (_regex_detect_pii ascii_db
       (str_of "Call +91 98765-43210 or mail Acme Tech Solutions, a.b@c-d.org."))
  = [(str_of "PHONE_NUMBER", 5, 21); (str_of "EMAIL_ADDRESS", 50, 61);
     (str_of "PERSON", 29, 38); (str_of "ORGANIZATION", 29, 48)].
Proof. vm_compute. reflexivity. Qed.

Example replace_ex :
  replace (str_of "aa") (str_of "b") (str_of "aaaaa|aa") = str_of "bba|b"
  /\ replace [] (str_of "-") (str_of "ab") = str_of "-a-b-".
Proof. vm_compute. split; reflexivity. Qed.

(** ** The matcher against the denotation *)

Lemma star_loop_sound (body : matcher) (r : regex) :
  (forall p s k x, body p s k = Some x ->
     exists p' s', matches r p s p' s' /\ k p' s' = Some x) ->
  forall fuel p s k x, star_loop body fuel p s k = Some x ->
    exists p' s', matches (Star r) p s p' s' /\ k p' s' = Some x.
Proof.
  intros Hbody fuel. induction fuel as [|fuel IH]; intros p s k x H; simpl in H.
  - exists p, s. split; [constructor | exact H].
  - destruct (body p s _) as [y|] eqn:Hb.
    + inversion H; subst y; clear H.
      apply Hbody in Hb as (p1 & s1 & Hm & Hk).
      destruct (length s1 <? length s)%nat eqn:Hlt; [|discriminate].
      apply IH in Hk as (p2 & s2 & Hm2 & Hk2).
      exists p2, s2. split; [|exact Hk2].
      eapply M_StarS; eauto. by apply Nat.ltb_lt.
    + exists p, s. split; [constructor | exact H].
Qed.

Lemma rmatch_sound (r : regex) :
  forall p s k x, rmatch r p s k = Some x ->
    exists p' s', matches r p s p' s' /\ k p' s' = Some x.
Proof.
  induction r as [|c|f|r1 IH1 r2 IH2|r1 IH1 r2 IH2|r IH|w];
    intros p s k x H; simpl in H.
  - exists p, s. split; [constructor | exact H].
  - destruct s as [|a s]; [discriminate|].
    destruct (a =? c)%N eqn:E; [|discriminate].
    apply N.eqb_eq in E; subst a.
    exists (Some c), s. split; [constructor | exact H].
  - destruct s as [|a s]; [discriminate|].
    destruct (f a) eqn:E; [|discriminate].
    exists (Some a), s. split; [by constructor | exact H].
  - apply IH1 in H as (p1 & s1 & Hm1 & H).
    apply IH2 in H as (p2 & s2 & Hm2 & H).
    exists p2, s2. split; [econstructor; eauto | exact H].
  - destruct (rmatch r1 p s k) as [y|] eqn:E.
    + inversion H; subst y.
      apply IH1 in E as (p1 & s1 & Hm & Hk).
      exists p1, s1. split; [by apply M_AltL | exact Hk].
    + apply IH2 in H as (p1 & s1 & Hm & Hk).
      exists p1, s1. split; [by apply M_AltR | exact Hk].
  - eapply star_loop_sound; eauto.
  - destruct (xorb _ _) eqn:E; [|discriminate].
    exists p, s. split; [by constructor | exact H].
Qed.

Lemma star_loop_complete (body : matcher) (r : regex) :
  (forall p s p' s' k, matches r p s p' s' -> is_Some (k p' s') ->
     is_Some (body p s k)) ->
  forall r0 p s p' s', matches r0 p s p' s' -> r0 = Star r ->
  forall fuel k, (length s <= fuel)%nat -> is_Some (k p' s') ->
    is_Some (star_loop body fuel p s k).
Proof.
  intros Hbody r0 p s p' s' Hm.
  induction Hm as [| | | | | |r' p s|r' p s p1 s1 p2 s2 Hm1 _ Hlt Hm2 IH|];
    intros Heq; try discriminate; inversion Heq; subst r'; clear Heq;
    intros fuel k Hfuel Hk.
  - destruct fuel; simpl; [exact Hk|].
    destruct (body p s _); [eauto | exact Hk].
  - destruct fuel as [|fuel]; [lia|]. simpl.
    assert (is_Some (body p s (fun p' s' =>
              if (length s' <? length s)%nat
              then star_loop body fuel p' s' k else None))) as [y Hy].
    { eapply Hbody; [exact Hm1|].
      apply Nat.ltb_lt in Hlt as Hlt'. rewrite Hlt'.
      apply IH; [reflexivity | lia | exact Hk]. }
    rewrite Hy. eauto.
Qed.

Lemma rmatch_complete (r : regex) :
  forall p s p' s' k, matches r p s p' s' -> is_Some (k p' s') ->
    is_Some (rmatch r p s k).
Proof.
  induction r as [|c|f|r1 IH1 r2 IH2|r1 IH1 r2 IH2|r IH|w];
    intros p s p' s' k Hm Hk; simpl.
  - inversion Hm; subst. exact Hk.
  - inversion Hm; subst. by rewrite N.eqb_refl.
  - inversion Hm; subst. match goal with H : f _ = true |- _ => rewrite H end.
    exact Hk.
  - inversion Hm; subst. eapply IH1; [eassumption|]. eapply IH2; eassumption.
  - inversion Hm; subst.
    + destruct (IH1 _ _ _ _ k ltac:(eassumption) Hk) as [y Hy].
      rewrite Hy. eauto.
    + destruct (rmatch r1 p s k); [eauto|]. eapply IH2; eassumption.
  - eapply star_loop_complete; eauto.
  - inversion Hm; subst. match goal with H : xorb _ _ = true |- _ => rewrite H end.
    exact Hk.
Qed.

(** ** The token grammar *)

Lemma matches_star_cls_inv f r0 p s p' s' :
  matches r0 p s p' s' -> r0 = Star (Cls f) ->
  exists l, s = l ++ s' /\ Forall (fun c => f c = true) l.
Proof.
  induction 1 as [| | | | | |r p s|r p s p1 s1 p2 s2 Hm1 _ Hlt Hm2 IH|];
    intros Heq; try discriminate; inversion Heq; subst r; clear Heq.
  - by exists [].
  - destruct (IH eq_refl) as (l & -> & Hl).
    inversion Hm1; subst. exists (c :: l). split; [done | by constructor].
Qed.

Lemma matches_star_cls f l p s' :
  Forall (fun c => f c = true) l ->
  exists p', matches (Star (Cls f)) p (l ++ s') p' s'.
Proof.
  intros Hl. revert p. induction Hl as [|c l Hc Hl IH]; intros p.
  - exists p. constructor.
  - destruct (IH (Some c)) as [p' Hm]. exists p'.
    eapply M_StarS; [by apply M_Cls | | exact Hm]. change (length (l ++ s') < S (length (l ++ s')))%nat. lia.
Qed.

Lemma matches_rep_cls_inv f n : forall p s p' s',
  matches (Rep n (Cls f)) p s p' s' ->
  exists l, s = l ++ s' /\ length l = n /\ Forall (fun c => f c = true) l.
Proof.
  induction n as [|n IH]; intros p s p' s' Hm; inversion Hm; subst.
  - by exists [].
  - match goal with H : matches (Cls f) _ _ _ _ |- _ => inversion H; subst end.
    match goal with H : matches (Rep n _) _ _ _ _ |- _ =>
      apply IH in H as (l & -> & Hn & Hl) end.
    exists (c :: l). repeat split; [simpl; lia | by constructor].
Qed.

Lemma matches_rep_cls f l p s' :
  Forall (fun c => f c = true) l ->
  exists p', matches (Rep (length l) (Cls f)) p (l ++ s') p' s'.
Proof.
  intros Hl. revert p. induction Hl as [|c l Hc Hl IH]; intros p.
  - exists p. constructor.
  - destruct (IH (Some c)) as [p' Hm]. exists p'. simpl.
    eapply M_Seq; [by apply M_Cls | exact Hm].
Qed.

Lemma matches_seq_inv r1 r2 p s p' s' :
  matches (Seq r1 r2) p s p' s' ->
  exists p1 s1, matches r1 p s p1 s1 /\ matches r2 p1 s1 p' s'.
Proof. inversion 1; subst; eauto. Qed.

Lemma matches_chr_inv c p s p' s' :
  matches (Chr c) p s p' s' -> s = c :: s' /\ p' = Some c.
Proof. inversion 1; subst; eauto. Qed.

Lemma matches_cls_inv f p s p' s' :
  matches (Cls f) p s p' s' ->
  exists c, s = c :: s' /\ p' = Some c /\ f c = true.
Proof. inversion 1; subst; eauto. Qed.

Lemma matches_token_inv p s p' s' :
  matches token_pattern p s p' s' ->
  exists t, token_shape t /\ s = t ++ s'.
Proof.
  unfold token_pattern, Plus. intros Hm.
  apply matches_seq_inv in Hm as (p1 & s1 & H1 & Hm).
  apply matches_chr_inv in H1 as [-> ->].
  apply matches_seq_inv in Hm as (p2 & s2 & H2 & Hm).
  apply matches_seq_inv in H2 as (p3 & s3 & H2 & H3).
  apply matches_cls_inv in H2 as (c & -> & -> & Hc).
  eapply matches_star_cls_inv in H3 as (l & -> & Hl); [|reflexivity].
  apply matches_seq_inv in Hm as (p4 & s4 & H4 & Hm).
  apply matches_chr_inv in H4 as [-> ->].
  apply matches_seq_inv in Hm as (p5 & s5 & H5 & Hm).
  apply matches_rep_cls_inv in H5 as (hx & -> & Hn & Hhx).
  apply matches_chr_inv in Hm as [-> ->].
  exists (chr "[" :: (c :: l) ++ chr "_" :: hx ++ [chr "]"]). split.
  - exists (c :: l), hx. repeat split; auto.
  - simpl. rewrite <- !app_assoc. simpl. by rewrite <- !app_assoc.
Qed.

Lemma matches_token t p s' :
  token_shape t -> exists p', matches token_pattern p (t ++ s') p' s'.
Proof.
  intros (ty & hx & -> & Hne & Hty & Hn & Hhx).
  destruct ty as [|c ty]; [done|].
  apply Forall_cons in Hty as [Hc Hty].
  destruct (matches_star_cls cls_type ty (Some c)
              (chr "_" :: hx ++ chr "]" :: s') Hty) as [p1 Hst].
  destruct (matches_rep_cls cls_hex hx (Some (chr "_")) (chr "]" :: s') Hhx)
    as [p2 Hrp].
  rewrite Hn in Hrp.
  exists (Some (chr "]")). unfold token_pattern, Plus.
  replace ((chr "[" :: (c :: ty) ++ chr "_" :: hx ++ [chr "]"]) ++ s')
    with (chr "[" :: c :: ty ++ chr "_" :: hx ++ chr "]" :: s')
    by (simpl; rewrite <- !app_assoc; simpl; by rewrite <- !app_assoc).
  eapply M_Seq; [apply M_Chr|].
  eapply M_Seq; [eapply M_Seq; [by apply M_Cls | exact Hst]|].
  eapply M_Seq; [apply M_Chr|].
  eapply M_Seq; [exact Hrp | apply M_Chr].
Qed.

(** Brackets delimit a token and occur nowhere inside it. *)
Definition bracketed (t : str) : Prop :=
  exists body, t = chr "[" :: body ++ [chr "]"] /\
               (chr "[" ∉ body) /\ (chr "]" ∉ body).

Lemma cls_type_not_bracket c :
  cls_type c = true -> c <> chr "[" /\ c <> chr "]".
Proof.
  unfold cls_type, cls_upper, in_range. cbn.
  intros H. apply orb_true_iff in H as [H|H].
  - apply andb_true_iff in H as [H1 H2].
    apply N.leb_le in H1, H2. lia.
  - apply N.eqb_eq in H. lia.
Qed.

Lemma cls_hex_not_bracket c :
  cls_hex c = true -> c <> chr "[" /\ c <> chr "]".
Proof.
  unfold cls_hex, cls_09, in_range. cbn.
  intros H. apply orb_true_iff in H as [H|H];
    apply andb_true_iff in H as [H1 H2]; apply N.leb_le in H1, H2; lia.
Qed.

Lemma token_shape_bracketed t : token_shape t -> bracketed t.
Proof.
  intros (ty & hx & -> & Hne & Hty & Hn & Hhx).
  exists (ty ++ chr "_" :: hx). split.
  - by rewrite <- app_assoc.
  - assert (forall b, b = chr "[" \/ b = chr "]" ->
              b ∉ ty ++ chr "_" :: hx) as Hnot.
    { intros b Hb Hin. apply elem_of_app in Hin as [Hin|Hin].
      - rewrite Forall_forall in Hty. apply Hty in Hin.
        apply cls_type_not_bracket in Hin as [? ?].
        destruct Hb; congruence.
      - apply elem_of_cons in Hin as [->|Hin].
        + destruct Hb as [Hb|Hb]; vm_compute in Hb; discriminate.
        + rewrite Forall_forall in Hhx. apply Hhx in Hin.
          apply cls_hex_not_bracket in Hin as [? ?].
          destruct Hb; congruence. }
    split; apply Hnot; auto.
Qed.

Lemma app_cons_first {A} (x : A) l1 l2 r1 r2 :
  x ∉ l1 -> x ∉ l2 -> l1 ++ x :: r1 = l2 ++ x :: r2 -> l1 = l2 /\ r1 = r2.
Proof.
  revert l2. induction l1 as [|a l1 IH]; intros [|b l2] H1 H2 Heq;
    simpl in Heq; inversion Heq; subst.
  - done.
  - exfalso. apply H2. constructor.
  - exfalso. apply H1. constructor.
  - destruct (IH l2) as [-> ->]; auto.
    + intros ?. apply H1. by constructor.
    + intros ?. apply H2. by constructor.
Qed.

Lemma bracketed_prefix_unique t1 t2 r1 r2 :
  bracketed t1 -> bracketed t2 -> t1 ++ r1 = t2 ++ r2 ->
  t1 = t2 /\ r1 = r2.
Proof.
  intros (b1 & -> & _ & Hb1) (b2 & -> & _ & Hb2) Heq.
  simpl in Heq. inversion Heq as [Heq'].
  rewrite <- !app_assoc in Heq'. simpl in Heq'.
  apply app_cons_first in Heq' as [-> ->]; auto.
Qed.

Lemma match_here_token_inv p s rest :
  match_here token_pattern p s = Some rest ->
  exists t, token_shape t /\ s = t ++ rest.
Proof.
  unfold match_here. intros H.
  apply rmatch_sound in H as (p' & s' & Hm & Hk).
  inversion Hk; subst. eapply matches_token_inv; eauto.
Qed.

Lemma match_here_token t p rest :
  token_shape t -> match_here token_pattern p (t ++ rest) = Some rest.
Proof.
  intros Ht.
  destruct (matches_token t p rest Ht) as [p' Hm].
  destruct (rmatch_complete token_pattern p (t ++ rest) p' rest
              (fun _ rest => Some rest) Hm) as [x Hx]; [eauto|].
  unfold match_here. rewrite Hx. f_equal.
  apply match_here_token_inv in Hx as (t' & Ht' & Heq).
  apply bracketed_prefix_unique in Heq as [_ ->];
    auto using token_shape_bracketed.
Qed.

Lemma fullmatch_token_shape t :
  fullmatch token_pattern t = true <-> token_shape t.
Proof.
  unfold fullmatch. split.
  - destruct (rmatch _ _ _ _) as [x|] eqn:E; [|discriminate]. intros _.
    apply rmatch_sound in E as (p' & s' & Hm & Hk).
    destruct s'; [|discriminate].
    apply matches_token_inv in Hm as (t' & Ht' & ->).
    by rewrite app_nil_r.
  - intros Ht. destruct (matches_token t None [] Ht) as [p' Hm].
    rewrite app_nil_r in Hm.
    destruct (rmatch_complete token_pattern None t p' []
                (fun _ rest => match rest with [] => Some [] | _ => None end)
                Hm) as [x Hx]; [eauto|].
    by rewrite Hx.
Qed.

(** ** [get_token_hash] *)

Lemma hex_digit_upper v : cls_hex (upper_char (SHA256.hex_digit v)) = true.
Proof.
  unfold SHA256.hex_digit.
  pose proof (Z.mod_pos_bound v 16 ltac:(lia)) as Hd.
  set (d := v mod 16) in *.
  assert (d = 0 \/ d = 1 \/ d = 2 \/ d = 3 \/ d = 4 \/ d = 5 \/ d = 6 \/
          d = 7 \/ d = 8 \/ d = 9 \/ d = 10 \/ d = 11 \/ d = 12 \/ d = 13 \/
          d = 14 \/ d = 15) as Hcases by lia.
  clearbody d.
  repeat (destruct Hcases as [->|Hcases]; [reflexivity|]).
  subst d. reflexivity.
Qed.

Lemma short_hash_hex bytes :
  let hx := upper (take 8 (SHA256.hexdigest bytes)) in
  length hx = 8%nat /\ Forall (fun c => cls_hex c = true) hx.
Proof.
  unfold SHA256.hexdigest, SHA256.hex8, upper. simpl. split; [reflexivity|].
  repeat constructor; apply hex_digit_upper.
Qed.

Lemma PII_ENTITIES_upper ety :
  In ety PII_ENTITIES ->
  ety <> [] /\ Forall (fun c => cls_type c = true) ety.
Proof.
  unfold PII_ENTITIES. simpl.
  intros [<-|[<-|[<-|[<-|[<-|[<-|[]]]]]]];
    (split; [discriminate | vm_compute; repeat constructor]).
Qed.

Lemma get_token_hash_shape value ety tok :
  ety <> [] -> Forall (fun c => cls_type c = true) ety ->
  get_token_hash value ety = Some tok ->
  token_shape tok.
Proof.
  intros Hne Hty. unfold get_token_hash.
  destruct (utf8_encode value) as [bytes|]; [|discriminate].
  intros [= <-].
  destruct (short_hash_hex bytes) as [Hlen Hhex].
  exists ety, (upper (take 8 (SHA256.hexdigest bytes))).
  repeat split; auto.
Qed.

Lemma is_scalar_spec c : is_scalar c = true -> scalar_value c.
Proof.
  unfold is_scalar, scalar_value. intros H.
  apply orb_true_iff in H as [H|H].
  - apply N.ltb_lt in H. lia.
  - apply andb_true_iff in H as [H1 H2].
    apply N.ltb_lt in H1. apply N.leb_le in H2. lia.
Qed.

Lemma scalar_check (s : str) :
  forallb is_scalar s = true -> Forall scalar_value s.
Proof.
  intros H. apply Forall_forall. intros c Hc.
  apply is_scalar_spec. rewrite forallb_forall in H. apply H.
  by apply list_elem_of_In.
Qed.

Lemma utf8_encode_total value :
  Forall scalar_value value -> is_Some (utf8_encode value).
Proof.
  induction 1 as [|c value Hc _ [bs IH]]; simpl; [eauto|].
  rewrite IH.
  assert (is_Some (utf8_char c)) as [b ->]; [|eauto].
  unfold utf8_char, scalar_value in *.
  repeat match goal with
  | |- context [if ?b then _ else _] => destruct b eqn:?
  end; eauto.
  exfalso. lia.
  exfalso. lia.
Qed.

Lemma get_token_hash_total value ety :
  Forall scalar_value value -> is_Some (get_token_hash value ety).
Proof.
  intros H. unfold get_token_hash.
  destruct (utf8_encode_total value H) as [bs ->]. eauto.
Qed.

(** C5. Every token [get_token_hash] produces for an entity type of
    [PII_ENTITIES] matches [\[[A-Z_]+_[0-9A-F]{8}\]]: it is the opening
    bracket, the entity type (uppercase letters and underscores), an
    underscore, the first 8 hexadecimal characters of the SHA-256 of the
    UTF-8 encoded value in upper case, and the closing bracket. *)
Theorem token_format (value ety tok : str) :
  In ety PII_ENTITIES ->
  get_token_hash value ety = Some tok ->
  fullmatch token_pattern tok = true /\
  exists bytes hx,
    utf8_encode value = Some bytes /\
    hx = upper (take 8 (SHA256.hexdigest bytes)) /\
    tok = str_of "[" ++ ety ++ str_of "_" ++ hx ++ str_of "]" /\
    Forall (fun c => cls_type c = true) ety /\
    length hx = 8%nat /\
    Forall (fun c => cls_hex c = true) hx.
Proof.
  intros Hin Htok.
  destruct (PII_ENTITIES_upper ety Hin) as [Hne Hty].
  split.
  - apply fullmatch_token_shape. eapply get_token_hash_shape; eauto.
  - unfold get_token_hash in Htok.
    destruct (utf8_encode value) as [bytes|]; [|discriminate].
    injection Htok as <-.
    destruct (short_hash_hex bytes) as [Hlen Hhex].
    exists bytes, (upper (take 8 (SHA256.hexdigest bytes))).
    repeat split; auto.
Qed.

(** ** Running the monad *)

Lemma bind_Returns {A B} (m : M A) (k : A -> M B) w a w' :
  m w = Returns a w' -> bind m k w = k a w'.
Proof. unfold bind. by intros ->. Qed.

Lemma bind_Raises {A B} (m : M A) (k : A -> M B) w e w' :
  m w = Raises e w' -> bind m k w = Raises e w'.
Proof. unfold bind. by intros ->. Qed.

Lemma bind_Blocks {A B} (m : M A) (k : A -> M B) w :
  m w = Blocks -> bind m k w = Blocks.
Proof. unfold bind. by intros ->. Qed.

Lemma bind_assoc {A B C} (m : M A) (k1 : A -> M B) (k2 : B -> M C) w :
  bind (bind m k1) k2 w = bind m (fun a => bind (k1 a) k2) w.
Proof. unfold bind. by destruct (m w). Qed.

Lemma bind_ret {A B} (a : A) (k : A -> M B) w : bind (ret a) k w = k a w.
Proof. reflexivity. Qed.

Lemma bind_gets {A B} (f : World -> A) (k : A -> M B) w :
  bind (gets f) k w = k (f w) w.
Proof. reflexivity. Qed.

Lemma bind_modify {B} (f : World -> World) (k : unit -> M B) w :
  bind (modify f) k w = k tt (f w).
Proof. reflexivity. Qed.

Lemma bind_if {A B} (b : bool) (m1 m2 : M A) (k : A -> M B) w :
  bind (if b then m1 else m2) k w =
  if b then bind m1 k w else bind m2 k w.
Proof. by destruct b. Qed.

Lemma try_except_Returns {A} (body : M A) h w a w' :
  body w = Returns a w' -> try_except body h w = Returns a w'.
Proof. unfold try_except. by intros ->. Qed.

Lemma try_except_Raises {A} (body : M A) h w e w' :
  body w = Raises e w' -> try_except body h w = h e w'.
Proof. unfold try_except. by intros ->. Qed.

Lemma try_except_Blocks {A} (body : M A) (h : Exn -> M A) w :
  body w = Blocks -> try_except body h w = Blocks.
Proof. unfold try_except. by intros ->. Qed.

(** C6. [get_token_hash] depends on its two arguments only: equal
    arguments give the identical token; inside the encoder the call gives
    the same token (or the same exception) whatever the state of the stores,
    the analyzer or the environment, and leaves all of it as it was. *)
Theorem token_deterministic (value ety : str) :
  (forall value' ety', value' = value -> ety' = ety ->
     get_token_hash value' ety' = get_token_hash value ety) /\
  (forall w1 w2 : World,
     match token_hash value ety w1, token_hash value ety w2 with
     | Returns t1 w1', Returns t2 w2' => t1 = t2 /\ w1' = w1 /\ w2' = w2
     | Raises e1 w1', Raises e2 w2' => e1 = e2 /\ w1' = w1 /\ w2' = w2
     | _, _ => False
     end).
Proof.
  split.
  - intros ? ? -> ->. reflexivity.
  - intros w1 w2. unfold token_hash.
    destruct (get_token_hash value ety); simpl; auto.
Qed.

(** ** Slices *)

Lemma adjust_index_id len i : 0 <= i <= len -> adjust_index len i = i.
Proof.
  intros H. unfold adjust_index.
  destruct (Z.ltb_spec i 0); lia.
Qed.

Lemma slice_in_range (s : str) lo hi :
  0 <= lo <= py_len s -> 0 <= hi <= py_len s ->
  slice s lo hi = take (Z.to_nat (hi - lo)) (drop (Z.to_nat lo) s).
Proof. intros H1 H2. unfold slice. by rewrite !adjust_index_id. Qed.

Lemma slice_app_mid (a t b : str) :
  slice (a ++ t ++ b) (py_len a) (py_len a + py_len t) = t.
Proof.
  rewrite slice_in_range; unfold py_len; rewrite ?length_app; try lia.
  replace (Z.to_nat (Z.of_nat (length a))) with (length a) by lia.
  rewrite drop_app_length.
  match goal with |- take ?n _ = _ => replace n with (length t) by lia end.
  by rewrite take_app_length.
Qed.

Lemma slice_to_app (a b : str) : slice_to (a ++ b) (py_len a) = a.
Proof.
  pose proof (slice_app_mid [] a b) as H. simpl in H.
  unfold slice_to. exact H.
Qed.

Lemma slice_from_app (a b : str) : slice_from (a ++ b) (py_len a) = b.
Proof.
  unfold slice_from.
  rewrite slice_in_range; unfold py_len; rewrite ?length_app; try lia.
  replace (Z.to_nat (Z.of_nat (length a))) with (length a) by lia.
  rewrite drop_app_length. apply firstn_all2. lia.
Qed.

(** ** [finditer] and [findall] report matches of the pattern *)

Lemma matches_suffix r p s p' s' :
  matches r p s p' s' -> exists t, s = t ++ s'.
Proof.
  induction 1 as [| | |? ? ? ? ? ? ? ? _ [t1 ->] _ [t2 ->]| | | |
                  ? ? ? ? ? ? ? _ [t1 ->] _ _ [t2 ->]|];
    try (by exists []); try (by exists [c]); try done.
  - exists (t1 ++ t2). by rewrite app_assoc.
  - exists (t1 ++ t2). by rewrite app_assoc.
Qed.

Lemma match_here_suffix r p s rest :
  match_here r p s = Some rest -> exists t, s = t ++ rest.
Proof.
  unfold match_here. intros H.
  apply rmatch_sound in H as (p' & s' & Hm & [= ->]).
  eapply matches_suffix; eauto.
Qed.

(** Every reported match is a substring [t] at the reported offsets, and
    the matcher accepts [t] there. *)
Definition is_match_of (r : regex) (text : str) (m : Z * Z) : Prop :=
  exists a t b p,
    text = a ++ t ++ b /\
    match_here r p (t ++ b) = Some b /\
    fst m = py_len a /\ snd m = py_len a + py_len t.

Lemma finditer_from_sound r text : forall s prev pos skip pre,
  text = pre ++ s -> pos = py_len pre ->
  Forall (is_match_of r text) (finditer_from r prev s pos skip).
Proof.
  induction s as [|c s IH]; intros prev pos skip pre Htext Hpos;
    cbn [finditer_from].
  - destruct skip; [|constructor].
    destruct (match_here r prev []) as [rest|] eqn:E; constructor; [|constructor].
    apply match_here_suffix in E as Hs. destruct Hs as [t Ht].
    symmetry in Ht. apply app_eq_nil in Ht as [-> ->].
    exists pre, [], [], prev. subst. simpl.
    repeat split; auto. unfold py_len. simpl. lia.
  - assert (Hnext : forall prev' skip',
              Forall (is_match_of r text)
                (finditer_from r prev' s (pos + 1) skip')).
    { intros. apply (IH _ _ _ (pre ++ [c])).
      - by rewrite <- app_assoc.
      - subst pos. unfold py_len. rewrite length_app. simpl. lia. }
    destruct skip; [|apply Hnext].
    destruct (match_here r prev (c :: s)) as [rest|] eqn:E; [|apply Hnext].
    constructor; [|apply Hnext].
    apply match_here_suffix in E as Hs. destruct Hs as [t Ht].
    exists pre, t, rest, prev. rewrite <- Ht. repeat split; auto.
    cbn [snd]. rewrite Ht, length_app. subst pos. unfold py_len. lia.
Qed.

Lemma finditer_sound r text :
  Forall (is_match_of r text) (finditer r text).
Proof. by apply (finditer_from_sound r text text None 0 0%nat []). Qed.

(** Every element of [findall token_pattern text] is a token and a
    substring of [text]. *)
Lemma findall_token_sound text x :
  x ∈ findall token_pattern text ->
  token_shape x /\ exists a b, text = a ++ x ++ b.
Proof.
  unfold findall. intros Hin.
  apply list_elem_of_In, in_map_iff in Hin as (m & <- & Hm).
  pose proof (finditer_sound token_pattern text) as Hall.
  rewrite Forall_forall in Hall. apply list_elem_of_In, Hall in Hm.
  destruct Hm as (a & t & b & p & -> & Hmatch & -> & ->).
  rewrite slice_app_mid.
  apply match_here_token_inv in Hmatch as (t' & Ht' & Heq).
  apply app_inv_tail in Heq as ->. eauto.
Qed.

Lemma findall_no_token text :
  ~ has_token text -> findall token_pattern text = [].
Proof.
  intros Hno. destruct (findall token_pattern text) as [|x l] eqn:E; [done|].
  exfalso. apply Hno.
  destruct (findall_token_sound text x) as (Hx & a & b & ->).
  - rewrite E. constructor.
  - by exists a, x, b.
Qed.

(** ** The tiered lookup *)

Lemma same_but_cache_refl w : same_but_cache w w.
Proof. repeat split; auto. exists []. by rewrite app_nil_r. Qed.

Lemma same_but_cache_trans w1 w2 w3 :
  same_but_cache w1 w2 -> same_but_cache w2 w3 -> same_but_cache w1 w3.
Proof.
  unfold same_but_cache.
  intros (?&?&?&?&?&?&?&?&l1&Hl1) (?&?&?&?&?&?&?&?&l2&Hl2).
  repeat split; try congruence.
  exists (l1 ++ l2). rewrite Hl2, Hl1. by rewrite app_assoc.
Qed.

Lemma same_but_cache_add_log l w : same_but_cache w (add_log l w).
Proof. repeat split; auto. by exists l. Qed.

Lemma same_but_cache_set_store m w : same_but_cache w (set_token_store m w).
Proof. repeat split; auto. exists []. simpl. by rewrite app_nil_r. Qed.

Lemma truthy_Some v : truthy v = true -> exists c s, v = Some (c :: s).
Proof. destruct v as [[|c s]|]; simpl; try discriminate. eauto. Qed.

Lemma truthy_false v :
  truthy v = false -> v = None \/ v = Some [].
Proof. destruct v as [[|c s]|]; simpl; try discriminate; auto. Qed.

Lemma add_log_add_log l1 l2 w :
  add_log l2 (add_log l1 w) = add_log (l1 ++ l2) w.
Proof. destruct w. unfold add_log. simpl. by rewrite app_assoc. Qed.

Lemma file_value_dict w token : file_value w token = file_dict w !! token.
Proof.
  unfold file_value, file_dict.
  destruct (token_file w) as [[d| |]|]; auto.
Qed.

(** [_load_token_file], called with the lock free. *)
Lemma load_token_file_spec w :
  _TOKEN_FILE_LOCK w = false ->
  _load_token_file w = Returns (file_dict w) (add_log (load_log w) w).
Proof.
  destruct w as [an ts rc lk ea rs tf fw en io]. simpl. intros ->.
  unfold file_dict, load_log, add_log. simpl.
  destruct tf as [[d| |]|]; cbv -[app]; rewrite <- ?app_assoc; reflexivity.
Qed.

(** [_load_token_file], called with the lock held: once the file exists
    it waits for the lock forever. *)
Lemma load_token_file_locked w :
  _TOKEN_FILE_LOCK w = true ->
  _load_token_file w =
    match token_file w with
    | Some _ => Blocks
    | None => Returns ∅ (add_log [EvFileExists] w)
    end.
Proof.
  destruct w as [an ts rc lk ea rs tf fw en io]. simpl. intros ->.
  destruct tf as [[d| |]|]; reflexivity.
Qed.

Lemma get_persisted_token_spec token w :
  _TOKEN_FILE_LOCK w = false ->
  get_persisted_token token w =
    Returns (file_value w token) (add_log (load_log w) w).
Proof.
  intros Hl. unfold get_persisted_token, bind.
  rewrite load_token_file_spec by done. by rewrite file_value_dict.
Qed.

(** [get_pii_mapping]: never raises; one GET when there is a client. *)
Lemma get_pii_mapping_spec token w :
  get_pii_mapping token w =
    Returns (match client (redis_client w), redis_server w with
             | Some _, Some db => fst <$> db !! pii_key token
             | _, _ => None
             end)
            (match client (redis_client w) with
             | Some _ => add_log [EvRedisGet (pii_key token)] w
             | None => w
             end).
Proof.
  destruct w as [an ts [cn [[]|]] lk ea rs tf fw en io]; [|reflexivity].
  destruct rs; reflexivity.
Qed.

Lemma backfill_spec token v w :
  backfill token v w =
    Returns tt (match v with
                | Some (c :: s) =>
                    set_token_store (<[token := c :: s]> (_token_store w)) w
                | _ => w
                end).
Proof. destruct v as [[|c s]|]; reflexivity. Qed.

Lemma backfill_falsy token v w :
  truthy v = false -> backfill token v w = Returns tt w.
Proof. destruct v as [[|c s]|]; simpl; try discriminate; reflexivity. Qed.

(** The last step of the lookup: the file tier. *)
Lemma lookup_file_step token w :
  _TOKEN_FILE_LOCK w = false ->
  exists w',
    bind (get_persisted_token token)
         (fun v => bind (backfill token v) (fun _ => ret v)) w
      = Returns (file_value w token) w' /\
    _token_store w' =
      match file_value w token with
      | Some (c :: s) => <[token := c :: s]> (_token_store w)
      | _ => _token_store w
      end /\
    same_but_cache w w'.
Proof.
  intros Hlock.
  rewrite (bind_Returns _ _ _ _ _ (get_persisted_token_spec token w Hlock)).
  rewrite (bind_Returns _ _ _ _ _ (backfill_spec _ _ _)).
  eexists. split; [reflexivity|].
  change (file_value (add_log _ w) token) with (file_value w token).
  destruct (file_value w token) as [[|c s]|]; (split; [reflexivity|]);
    apply same_but_cache_add_log.
Qed.

Lemma lookup_token_spec token w :
  _TOKEN_FILE_LOCK w = false ->
  exists w', lookup_token token w = Returns (tier_value w token) w' /\
             _token_store w' = backfilled w token /\
             same_but_cache w w'.
Proof.
  intros Hlock.
  unfold lookup_token, backfilled, tier_value, redis_value.
  rewrite bind_gets.
  destruct (truthy (_token_store w !! token)) eqn:Ets.
  - (* served by the in-process dict *)
    apply truthy_Some in Ets as Hv. destruct Hv as (c & s & Hv).
    rewrite !bind_ret. simpl. rewrite Hv.
    exists w. split; [reflexivity|]. split; [|apply same_but_cache_refl].
    by rewrite insert_id.
  - unfold is_connected. rewrite bind_gets. simpl negb.
    destruct (connected (redis_client w)) eqn:Ecn; simpl andb; cbv iota.
    + (* Redis is asked *)
      rewrite bind_assoc.
      rewrite (bind_Returns _ _ _ _ _ (get_pii_mapping_spec token w)).
      set (v := match client (redis_client w), redis_server w with
                | Some _, Some db => fst <$> db !! pii_key token
                | _, _ => None end).
      set (w1 := match client (redis_client w) with
                 | Some _ => add_log [EvRedisGet (pii_key token)] w
                 | None => w end).
      assert (Hw1 : same_but_cache w w1 /\ _TOKEN_FILE_LOCK w1 = false /\
                    _token_store w1 = _token_store w /\
                    file_value w1 token = file_value w token).
      { subst w1. destruct (client (redis_client w));
          auto using same_but_cache_refl, same_but_cache_add_log. }
      destruct Hw1 as (Hsame1 & Hlock1 & Hts1 & Hfv1).
      rewrite bind_assoc.
      rewrite (bind_Returns _ _ _ _ _ (backfill_spec _ _ _)).
      rewrite bind_ret.
      destruct (truthy v) eqn:Ev; simpl negb; cbv iota.
      * apply truthy_Some in Ev as Hv'. destruct Hv' as (c & s & Hv').
        rewrite Hv'. eexists. split; [reflexivity|].
        split; [simpl; by rewrite Hts1|].
        eapply same_but_cache_trans;
          [exact Hsame1 | apply same_but_cache_set_store].
      * replace (match v with
                 | Some (c :: s) => _
                 | _ => w1
                 end) with w1
          by (apply truthy_false in Ev as [->| ->]; reflexivity).
        destruct (lookup_file_step token w1 Hlock1)
          as (w' & Hrun & Hts & Hsame).
        exists w'. rewrite <- Hfv1. split; [exact Hrun|].
        split; [by rewrite Hts, Hts1|].
        eapply same_but_cache_trans; eauto.
    + rewrite bind_ret, Ets. simpl negb. cbv iota.
      apply lookup_file_step; assumption.
Qed.

Lemma lookup_token_hit token w c s :
  _token_store w !! token = Some (c :: s) ->
  lookup_token token w = Returns (Some (c :: s)) w.
Proof.
  intros H. unfold lookup_token. rewrite bind_gets. cbv beta zeta.
  rewrite H. reflexivity.
Qed.

Lemma same_but_cache_lock w w' :
  same_but_cache w w' -> _TOKEN_FILE_LOCK w' = _TOKEN_FILE_LOCK w.
Proof. by intros (?&?&?&?). Qed.

Lemma tier_value_backfilled w w' token t :
  same_but_cache w w' ->
  _token_store w' = backfilled w token ->
  tier_value w' t = tier_value w t.
Proof.
  intros (_ & Hrc & _ & _ & Hrs & Htf & _) Hts.
  assert (Hredis : redis_value w' t = redis_value w t)
    by (unfold redis_value; by rewrite Hrc, Hrs).
  assert (Hfile : file_value w' t = file_value w t)
    by (unfold file_value; by rewrite Htf).
  unfold tier_value at 1. rewrite Hts, Hredis, Hfile.
  unfold backfilled.
  destruct (decide (t = token)) as [->|Hne].
  - destruct (tier_value w token) as [[|c s]|] eqn:Etv; try exact Etv.
    rewrite lookup_insert_eq. reflexivity.
  - destruct (tier_value w token) as [[|c s]|] eqn:Etv; try reflexivity.
    rewrite lookup_insert_ne by done. reflexivity.
Qed.

(** One iteration of the decoder's loop. *)
Lemma decode_token_spec text token w :
  _TOKEN_FILE_LOCK w = false ->
  exists w',
    decode_token text token w =
      Returns (match resolve w token with
               | Some v => replace token v text
               | None => text
               end) w' /\
    same_but_cache w w' /\
    (forall t, tier_value w' t = tier_value w t).
Proof.
  intros Hlock.
  destruct (lookup_token_spec token w Hlock) as (w' & Hrun & Hts & Hsame).
  exists w'. split; [|split; [exact Hsame|]].
  - unfold decode_token. rewrite (bind_Returns _ _ _ _ _ Hrun).
    unfold resolve.
    destruct (tier_value w token) as [[|c s]|]; try reflexivity.
    unfold try_except, bind, decrypt.
    destruct (decrypt_value (c :: s)); reflexivity.
  - intros t. eapply tier_value_backfilled; eauto.
Qed.

Lemma resolve_ext w w' :
  (forall t, tier_value w' t = tier_value w t) ->
  forall t, resolve w' t = resolve w t.
Proof. intros H t. unfold resolve. by rewrite H. Qed.

Lemma substitute_ext w w' tokens text :
  (forall t, tier_value w' t = tier_value w t) ->
  substitute w' tokens text = substitute w tokens text.
Proof.
  intros H. unfold substitute. revert text.
  induction tokens as [|t tokens IH]; intros text; simpl; [done|].
  by rewrite (resolve_ext w w' H), IH.
Qed.

(** The decoder's loop, as a whole. *)
Lemma decode_loop_spec tokens : forall text w,
  _TOKEN_FILE_LOCK w = false ->
  exists w',
    for_fold decode_token tokens text w =
      Returns (substitute w tokens text) w' /\
    same_but_cache w w' /\
    (forall t, tier_value w' t = tier_value w t).
Proof.
  induction tokens as [|token tokens IH]; intros text w Hlock.
  - exists w. split; [reflexivity|]. split; [apply same_but_cache_refl|done].
  - destruct (decode_token_spec text token w Hlock)
      as (w1 & Hrun1 & Hsame1 & Htv1).
    assert (Hlock1 : _TOKEN_FILE_LOCK w1 = false)
      by (by rewrite (same_but_cache_lock _ _ Hsame1)).
    destruct (IH (match resolve w token with
                  | Some v => replace token v text
                  | None => text end) w1 Hlock1)
      as (w2 & Hrun2 & Hsame2 & Htv2).
    exists w2. split; [|split].
    + cbn [for_fold]. rewrite (bind_Returns _ _ _ _ _ Hrun1), Hrun2.
      by rewrite (substitute_ext w w1 _ _ Htv1).
    + eapply same_but_cache_trans; eauto.
    + intros t. by rewrite Htv2, Htv1.
Qed.

(** [decode_text] always returns, and what it returns is [substitute]
    over the distinct tokens found. *)
Lemma decode_text_spec text w :
  _TOKEN_FILE_LOCK w = false ->
  exists w',
    decode_text text w =
      Returns (substitute w (set_iter (findall token_pattern text)) text) w' /\
    same_but_cache w w' /\
    (forall t, tier_value w' t = tier_value w t).
Proof. intros Hlock. unfold decode_text. by apply decode_loop_spec. Qed.

(** C3. Tier precedence and back-fill. A token present (with a ciphertext)
    in the in-process dict is answered from it, whatever Redis and the file
    hold, and nothing else is touched. A token the in-process dict lacks
    but Redis or, failing that, the file holds is answered with that
    tier's value; the value is written into the in-process dict, and the
    next lookup of the token is answered from there with no further access
    to Redis or the file. *)
Theorem tier_precedence (token : str) (w : World) :
  _TOKEN_FILE_LOCK w = false ->
  (forall c, _token_store w !! token = Some c -> c <> [] ->
     lookup_token token w = Returns (Some c) w /\
     forall d c', token_file w = Some (FileDict d) -> d !! token = Some c' ->
       c' <> c -> lookup_token token w = Returns (Some c) w) /\
  (forall c, _token_store w !! token = None -> c <> [] ->
     (redis_value w token = Some c \/
      (truthy (redis_value w token) = false /\ file_value w token = Some c)) ->
     exists w',
       lookup_token token w = Returns (Some c) w' /\
       _token_store w' !! token = Some c /\
       same_but_cache w w' /\
       lookup_token token w' = Returns (Some c) w').
Proof.
  intros Hlock. split.
  - intros [|x xs] Hc Hne; [done|].
    split; [|intros]; by apply lookup_token_hit.
  - intros [|x xs] Hmiss Hne Hslow; [done|].
    assert (Htv : tier_value w token = Some (x :: xs)).
    { unfold tier_value. rewrite Hmiss. simpl.
      destruct Hslow as [Hr|[Hr Hf]]; [by rewrite Hr | by rewrite Hr]. }
    destruct (lookup_token_spec token w Hlock) as (w' & Hrun & Hts & Hsame).
    rewrite Htv in Hrun. unfold backfilled in Hts. rewrite Htv in Hts.
    assert (Hhit : _token_store w' !! token = Some (x :: xs))
      by (rewrite Hts; apply lookup_insert_eq).
    exists w'. repeat split; auto; try apply Hsame.
    by apply lookup_token_hit.
Qed.

(** C10. On a text with no substring matching the token grammar,
    [decode_text] returns the text as it is, whatever the stores hold (and
    leaves them as they are). *)
Theorem decode_text_token_free (text : str) (w : World) :
  (forall a t b, text = a ++ t ++ b -> fullmatch token_pattern t = false) ->
  decode_text text w = Returns text w.
Proof.
  intros Hno. unfold decode_text.
  rewrite findall_no_token; [reflexivity|].
  intros (a & t & b & Heq & Ht).
  apply fullmatch_token_shape in Ht. rewrite (Hno a t b Heq) in Ht. done.
Qed.

(** ** [replace] around bracketed strings *)

Lemma starts_with_prefix (p s : str) :
  starts_with p s = true <-> p `prefix_of` s.
Proof.
  revert s. induction p as [|a p IH]; intros s; simpl.
  - split; [intros _; apply prefix_nil | done].
  - destruct s as [|b s].
    + split; [done | intros H; by apply prefix_nil_not in H].
    + rewrite andb_true_iff, N.eqb_eq, IH. split.
      * intros [-> H]. by apply prefix_cons.
      * intros H. split; [eapply prefix_cons_inv_1 | eapply prefix_cons_inv_2];
          eauto.
Qed.

Lemma starts_with_cons a p b s :
  starts_with (a :: p) (b :: s) = (a =? b)%N && starts_with p s.
Proof. reflexivity. Qed.

Lemma starts_with_eq (p s1 s2 : str) :
  (p `prefix_of` s1 <-> p `prefix_of` s2) ->
  starts_with p s1 = starts_with p s2.
Proof.
  intros H. apply eq_true_iff_eq. by rewrite !starts_with_prefix.
Qed.

(** A string without an opening bracket cannot reach past one. *)
Lemma prefix_stops_at_bracket (x y z : str) :
  (chr "[" ∉ x) -> x `prefix_of` y ++ chr "[" :: z -> x `prefix_of` y.
Proof.
  intros Hx Hp.
  destruct (prefix_weak_total x y (y ++ chr "[" :: z) Hp) as [H|[k ->]];
    [by apply prefix_app_r | done |].
  apply prefix_app_inv in Hp.
  destruct k as [|c k]; [by rewrite app_nil_r|].
  apply prefix_cons_inv_1 in Hp as ->.
  exfalso. apply Hx. apply elem_of_app. right. constructor.
Qed.

Lemma bracketed_inv u :
  bracketed u ->
  exists u', u = chr "[" :: u' /\ (chr "[" ∉ u') /\ u' <> [].
Proof.
  intros (body & -> & Hl & Hr). exists (body ++ [chr "]"]).
  repeat split.
  - intros Hin. apply elem_of_app in Hin as [Hin|Hin]; [done|].
    apply list_elem_of_singleton in Hin. vm_compute in Hin. discriminate.
  - by destruct body.
Qed.

Lemma bracketed_length u : bracketed u -> (2 <= length u)%nat.
Proof.
  intros (body & -> & _). simpl. rewrite length_app. simpl. lia.
Qed.

(** Inside a text [a ++ t ++ b] with [t] bracketed, a bracketed [u] that
    starts within a non-empty [a] ends within [a]. *)
Lemma starts_with_cut u c a t b :
  bracketed u -> bracketed t ->
  starts_with u ((c :: a) ++ t ++ b) = starts_with u (c :: a).
Proof.
  intros Hu Ht.
  destruct (bracketed_inv u Hu) as (u' & -> & Hu' & _).
  destruct (bracketed_inv t Ht) as (t' & -> & _ & _).
  cbn [app]. rewrite !starts_with_cons. f_equal.
  apply starts_with_eq. split.
  - apply prefix_stops_at_bracket; assumption.
  - apply prefix_app_r.
Qed.

Lemma replace_from_skip u v pre s :
  replace_from u v (pre ++ s) (length pre) = replace_from u v s 0.
Proof. induction pre as [|c pre IH]; simpl; auto. Qed.

(** A bracketed [u] starts at an opening bracket only: text without one
    is copied. *)
Lemma replace_from_copy u v x y :
  bracketed u -> (chr "[" ∉ x) ->
  replace_from u v (x ++ y) 0 = x ++ replace_from u v y 0.
Proof.
  intros Hu. destruct (bracketed_inv u Hu) as (u' & -> & _ & _).
  induction x as [|c x IH]; intros Hx; [done|].
  cbn [app replace_from]. rewrite starts_with_cons.
  assert (c <> chr "[") by (intros ->; apply Hx; constructor).
  replace (chr "[" =? c)%N with false
    by (symmetry; apply N.eqb_neq; congruence).
  cbn [andb]. f_equal. apply IH. intros Hin. apply Hx. by constructor.
Qed.

(** A bracketed [u] does not start anywhere inside a different bracketed
    [t]: [t] is copied. *)
Lemma replace_from_other u v t y :
  bracketed u -> bracketed t -> u <> t ->
  replace_from u v (t ++ y) 0 = t ++ replace_from u v y 0.
Proof.
  intros Hu Ht Hne.
  destruct (bracketed_inv t Ht) as (t' & -> & Ht' & _).
  cbn [app replace_from].
  destruct (starts_with u (chr "[" :: t' ++ y)) eqn:E.
  - exfalso. apply starts_with_prefix in E as [r Hr].
    change (chr "[" :: t' ++ y) with ((chr "[" :: t') ++ y) in Hr.
    symmetry in Hr.
    apply bracketed_prefix_unique in Hr as [? _]; auto.
  - f_equal. by apply replace_from_copy.
Qed.

Lemma replace_from_app_token u v t : bracketed u -> bracketed t -> u <> t ->
  forall a b skip, (skip <= length a)%nat ->
    replace_from u v (a ++ t ++ b) skip
    = replace_from u v a skip ++ t ++ replace_from u v b 0.
Proof.
  intros Hu Ht Hne a b. induction a as [|c a IH]; intros skip Hskip.
  - simpl in Hskip. replace skip with 0%nat by lia.
    cbn [app replace_from]. by apply replace_from_other.
  - destruct skip as [|n].
    + cbn [replace_from app].
      change (c :: a ++ t ++ b) with ((c :: a) ++ t ++ b).
      rewrite starts_with_cut by assumption.
      destruct (starts_with u (c :: a)) eqn:E.
      * rewrite <- app_assoc. f_equal. apply IH.
        apply starts_with_prefix, prefix_length in E. simpl in E. lia.
      * simpl. f_equal. apply IH. lia.
    + simpl. apply IH. simpl in Hskip. lia.
Qed.

Lemma replace_app_token u v t a b :
  bracketed u -> bracketed t -> u <> t ->
  replace u v (a ++ t ++ b) = replace u v a ++ t ++ replace u v b.
Proof.
  intros Hu Ht Hne. unfold replace.
  destruct u as [|x u]; [apply bracketed_length in Hu; simpl in Hu; lia|].
  apply replace_from_app_token; auto. lia.
Qed.

(** ** Sorting permutes *)

Lemma insert_asc_perm {A} (key : A -> Z) x l :
  insert_asc key x l ≡ₚ x :: l.
Proof.
  induction l as [|y l IH]; simpl; [done|].
  destruct (key y <? key x); [|done].
  rewrite IH. apply Permutation_swap.
Qed.

Lemma sort_asc_perm {A} (key : A -> Z) l : sort_asc key l ≡ₚ l.
Proof.
  induction l as [|x l IH]; simpl; [done|].
  by rewrite insert_asc_perm, IH.
Qed.

Lemma insert_desc_perm {A} (key : A -> Z) x l :
  insert_desc key x l ≡ₚ x :: l.
Proof.
  induction l as [|y l IH]; simpl; [done|].
  destruct (key x <? key y); [|done].
  rewrite IH. apply Permutation_swap.
Qed.

Lemma sort_desc_perm {A} (key : A -> Z) l : sort_desc key l ≡ₚ l.
Proof.
  induction l as [|x l IH]; simpl; [done|].
  by rewrite insert_desc_perm, IH.
Qed.

Lemma elem_of_set_iter t l : t ∈ set_iter l <-> t ∈ l.
Proof.
  unfold set_iter. rewrite sort_asc_perm. apply elem_of_remove_dups.
Qed.

Lemma set_iter_tokens text t :
  t ∈ set_iter (findall token_pattern text) ->
  token_shape t /\ exists a b, text = a ++ t ++ b.
Proof. rewrite elem_of_set_iter. apply findall_token_sound. Qed.

(** ** Tokens the decoder cannot reverse *)

Lemma no_mapping_tier_value w token :
  no_mapping w token -> tier_value w token = None.
Proof.
  intros (Hts & Hredis & Hfile).
  unfold tier_value, redis_value, file_value. rewrite Hts. simpl.
  assert (Hr : (if connected (redis_client w)
                then match client (redis_client w), redis_server w with
                     | Some _, Some db => fst <$> db !! pii_key token
                     | _, _ => None
                     end
                else None) = None).
  { destruct (connected _); [|done]. destruct (client _); [|done].
    destruct (redis_server w) as [db|]; [|done]. by rewrite (Hredis db). }
  rewrite Hr. simpl.
  destruct (token_file w) as [[d| |]|]; auto.
Qed.

Lemma unresolved_resolve w token :
  unresolved w token -> resolve w token = None.
Proof.
  unfold resolve. intros [Hno|(c & Hc & Hd)].
  - by rewrite no_mapping_tier_value.
  - rewrite Hc. by destruct c.
Qed.

Lemma substitute_unresolved w tokens text :
  (forall t, t ∈ tokens -> resolve w t = None) ->
  substitute w tokens text = text.
Proof.
  unfold substitute. revert text.
  induction tokens as [|t tokens IH]; intros text H; simpl; [done|].
  rewrite (H t) by constructor. apply IH.
  intros t' Hin. apply H. by constructor.
Qed.

Lemma substitute_around w tokens t : forall a b,
  bracketed t -> resolve w t = None ->
  (forall u, u ∈ tokens -> bracketed u) ->
  substitute w tokens (a ++ t ++ b)
  = substitute w tokens a ++ t ++ substitute w tokens b.
Proof.
  unfold substitute.
  induction tokens as [|u tokens IH]; intros a b Ht Hres Hall; simpl; [done|].
  assert (Htl : forall u', u' ∈ tokens -> bracketed u')
    by (intros; apply Hall; by constructor).
  destruct (resolve w u) as [v|] eqn:Eu; [|by apply IH].
  rewrite replace_app_token; [by apply IH | apply Hall; constructor
                             | done | congruence].
Qed.

(** C4. Fail-open decode. [decode_text] returns for every text, with no
    exception. A substring that matches the token grammar and for which no
    tier has a mapping, or whose ciphertext fails to decrypt, is in the
    output where it was: the output is the decoded text before it, the
    token itself, and the decoded text after it. A text whose tokens are
    all of that kind comes back unchanged. *)
Theorem fail_open_decode (text : str) (w : World) :
  _TOKEN_FILE_LOCK w = false ->
  exists out w',
    decode_text text w = Returns out w' /\
    (forall a t b,
       text = a ++ t ++ b -> fullmatch token_pattern t = true ->
       unresolved w t ->
       let tokens := set_iter (findall token_pattern text) in
       out = substitute w tokens a ++ t ++ substitute w tokens b) /\
    ((forall a t b,
        text = a ++ t ++ b -> fullmatch token_pattern t = true ->
        unresolved w t) ->
     out = text).
Proof.
  intros Hlock.
  destruct (decode_text_spec text w Hlock) as (w' & Hrun & _ & _).
  eexists _, w'. split; [exact Hrun|]. split.
  - intros a t b -> Ht Hun tokens.
    apply substitute_around.
    + by apply token_shape_bracketed, fullmatch_token_shape.
    + by apply unresolved_resolve.
    + intros u Hu. apply set_iter_tokens in Hu as [Hu _].
      by apply token_shape_bracketed.
  - intros Hall. apply substitute_unresolved.
    intros t Ht. apply set_iter_tokens in Ht as (Hshape & a & b & Heq).
    apply unresolved_resolve. eapply Hall; [exact Heq|].
    by apply fullmatch_token_shape.
Qed.

(** A text without an opening bracket has no token in it. *)
Lemma no_bracket_no_token (text : str) :
  (chr "[" ∉ text) ->
  forall a t b, text = a ++ t ++ b -> fullmatch token_pattern t = false.
Proof.
  intros Hno a t b -> .
  destruct (fullmatch token_pattern t) eqn:E; [|reflexivity].
  exfalso. apply fullmatch_token_shape in E as (ty & hx & -> & _).
  apply Hno. apply elem_of_app. right. apply elem_of_app. left. constructor.
Qed.

(** ** Writing a mapping: [store_mapping] *)

Lemma store_mapping_connected token enc w :
  connected (redis_client w) = true ->
  exists w' l,
    store_mapping token enc w = Returns tt w' /\
    _token_store w' = <[token := enc]> (_token_store w) /\
    token_file w' = token_file w /\
    _TOKEN_FILE_LOCK w' = _TOKEN_FILE_LOCK w /\
    redis_client w' = redis_client w /\
    io_log w' = io_log w ++ l /\
    l = match client (redis_client w) with
        | Some _ => [EvRedisSetex (pii_key token) _PII_TTL_SECONDS enc]
        | None => []
        end /\
    redis_server w' =
      match client (redis_client w), redis_server w with
      | Some _, Some db => Some (<[pii_key token := (enc, _PII_TTL_SECONDS)]> db)
      | _, srv => srv
      end.
Proof.
  destruct w as [an ts [cn cl] lk ea rs tf fw en io]. simpl. intros ->.
  destruct cl as [[]|]; destruct rs as [db|];
    cbv -[insert app _PII_TTL_SECONDS pii_key];
    eexists _, _; repeat split; rewrite ?app_nil_r; reflexivity.
Qed.

Lemma store_mapping_file token enc w :
  connected (redis_client w) = false ->
  _TOKEN_FILE_LOCK w = false ->
  token_file w = None ->
  exists w',
    store_mapping token enc w = Returns tt w' /\
    _token_store w' = <[token := enc]> (_token_store w) /\
    redis_server w' = redis_server w /\
    _TOKEN_FILE_LOCK w' = false /\
    io_log w' = io_log w ++ [EvFileExists; EvFileWrite] /\
    token_file w' =
      if file_writable w then Some (FileDict (<[token := enc]> ∅)) else None.
Proof.
  destruct w as [an ts [cn cl] lk ea rs tf fw en io]. simpl.
  intros -> -> ->.
  destruct fw; cbv -[insert app empty];
    eexists; repeat split; rewrite <- ?app_assoc; reflexivity.
Qed.

(** With Redis not connected and a token file already there, persisting
    waits forever: [_persist_token] holds the lock that [_load_token_file]
    then asks for. *)
Lemma persist_token_deadlock token enc w :
  _TOKEN_FILE_LOCK w = false ->
  token_file w <> None ->
  _persist_token token enc w = Blocks.
Proof.
  destruct w as [an ts rc lk ea rs tf fw en io]. simpl. intros -> Hf.
  destruct tf as [f|]; [reflexivity | done].
Qed.

Lemma store_mapping_deadlock token enc w :
  connected (redis_client w) = false ->
  _TOKEN_FILE_LOCK w = false ->
  token_file w <> None ->
  store_mapping token enc w = Blocks.
Proof.
  destruct w as [an ts [cn cl] lk ea rs tf fw en io]. simpl.
  intros -> -> Hf.
  destruct tf as [f|]; [reflexivity | done].
Qed.

(** C7, as the code has it. A mapping is always written to the in-process
    dict first. Then the flag [is_connected], set once at start-up, routes
    it. Flag set: one SETEX with the TTL of 86400 s is sent when there is a
    client; it lands when Redis is reachable at that moment and is dropped
    silently otherwise; the token file is neither read nor written. Flag
    not set: Redis is not touched, and with no token file yet the mapping
    is written to a new token file (or dropped silently when the file
    cannot be written). In all these cases the call returns without an
    exception, and never writes both tiers. *)
Theorem store_routing (token enc : str) (w : World) :
  _TOKEN_FILE_LOCK w = false ->
  (connected (redis_client w) = true ->
   exists w' l,
     store_mapping token enc w = Returns tt w' /\
     _token_store w' !! token = Some enc /\
     token_file w' = token_file w /\
     io_log w' = io_log w ++ l /\
     forallb (fun e => negb (is_file_event e)) l = true /\
     (client (redis_client w) <> None ->
      l = [EvRedisSetex (pii_key token) _PII_TTL_SECONDS enc] /\
      forall db, redis_server w = Some db ->
        redis_server w' =
          Some (<[pii_key token := (enc, _PII_TTL_SECONDS)]> db)) /\
     (redis_server w = None -> redis_server w' = None)) /\
  (connected (redis_client w) = false -> token_file w = None ->
   exists w' l,
     store_mapping token enc w = Returns tt w' /\
     _token_store w' !! token = Some enc /\
     redis_server w' = redis_server w /\
     io_log w' = io_log w ++ l /\
     forallb (fun e => negb (is_redis_event e)) l = true /\
     (file_writable w = true ->
      token_file w' = Some (FileDict (<[token := enc]> ∅))) /\
     (file_writable w = false -> token_file w' = None)).
Proof.
  intros Hlock. split.
  - intros Hc.
    destruct (store_mapping_connected token enc w Hc)
      as (w' & l & Hrun & Hts & Htf & _ & _ & Hlog & Hl & Hsrv).
    exists w', l. repeat split; auto.
    + rewrite Hts. apply lookup_insert_eq.
    + rewrite Hl. by destruct (client _).
    + rewrite Hl. destruct (client _); [reflexivity | done].
    + intros db Hdb. rewrite Hsrv, Hdb.
      destruct (client _); [reflexivity | done].
    + intros Hnone. rewrite Hsrv, Hnone. by destruct (client _).
  - intros Hc Hf.
    destruct (store_mapping_file token enc w Hc Hlock Hf)
      as (w' & Hrun & Hts & Hsrv & _ & Hlog & Htf).
    exists w', [EvFileExists; EvFileWrite]. repeat split; auto.
    + rewrite Hts. apply lookup_insert_eq.
    + intros Hw. by rewrite Htf, Hw.
    + intros Hw. by rewrite Htf, Hw.
Qed.

(** ** Invariants of the process state *)

Section Keeps.
Context (P : World -> Prop).

Lemma keeps_ret {A} (a : A) : keeps P (ret a).
Proof. by intros w Hw. Qed.

Lemma keeps_raise {A} e : keeps P (@raise A e).
Proof. by intros w Hw. Qed.

Lemma keeps_gets {A} (f : World -> A) : keeps P (gets f).
Proof. by intros w Hw. Qed.

Lemma keeps_modify f : (forall w, P w -> P (f w)) -> keeps P (modify f).
Proof. intros Hf w Hw. by apply Hf. Qed.

Lemma keeps_bind {A B} (m : M A) (k : A -> M B) :
  keeps P m -> (forall a, keeps P (k a)) -> keeps P (bind m k).
Proof.
  intros Hm Hk w Hw. unfold bind. specialize (Hm w Hw).
  destruct (m w) as [a w'| |]; auto. by apply Hk.
Qed.

Lemma keeps_try_except {A} (body : M A) h :
  keeps P body -> (forall e, keeps P (h e)) -> keeps P (try_except body h).
Proof.
  intros Hm Hh w Hw. unfold try_except. specialize (Hm w Hw).
  destruct (body w) as [a w'|e w'|]; auto. by apply Hh.
Qed.

Lemma keeps_for_fold {A B} (f : B -> A -> M B) l :
  (forall acc x, keeps P (f acc x)) -> forall acc, keeps P (for_fold f l acc).
Proof.
  intros Hf. induction l as [|x l IH]; intros acc; simpl.
  - apply keeps_ret.
  - apply keeps_bind; auto.
Qed.

Lemma keeps_for_map {A B} (f : A -> M B) l :
  (forall x, keeps P (f x)) -> keeps P (for_map f l).
Proof.
  intros Hf. induction l as [|x l IH]; simpl.
  - apply keeps_ret.
  - apply keeps_bind; auto. intros y.
    apply keeps_bind; auto. intros ys. apply keeps_ret.
Qed.
Lemma keeps_acquire :
  (forall w, P w -> P (set_lock true w)) -> keeps P acquire.
Proof.
  intros Hf w Hw. unfold acquire.
  destruct (_TOKEN_FILE_LOCK w); [done | by apply Hf].
Qed.

Lemma keeps_with_lock {A} (body : M A) :
  (forall b w, P w -> P (set_lock b w)) ->
  keeps P body -> keeps P (with_lock body).
Proof.
  intros Hf Hb. unfold with_lock, release.
  apply keeps_bind; [apply keeps_acquire; auto|]. intros _.
  apply keeps_bind.
  - apply keeps_try_except.
    + apply keeps_bind; [done|]. intros a. apply keeps_ret.
    + intros e. apply keeps_ret.
  - intros [a|e]; (apply keeps_bind; [apply keeps_modify; auto|]); intros _.
    + apply keeps_ret.
    + apply keeps_raise.
Qed.
End Keeps.

(** Takes [keeps P m] apart along the structure of [m]; [tac] shows that a
    state update preserves [P]. *)
Ltac keeps_step tac :=
  lazymatch goal with
  | |- keeps _ (ret _) => apply keeps_ret
  | |- keeps _ (raise _) => apply keeps_raise
  | |- keeps _ (gets _) => apply keeps_gets
  | |- keeps _ (modify _) => apply keeps_modify; tac
  | |- keeps _ acquire => apply keeps_acquire; tac
  | |- keeps _ (with_lock _) => apply keeps_with_lock; [intros ?; tac|]
  | |- keeps _ (bind _ _) => apply keeps_bind; [|intros ?]
  | |- keeps _ (try_except _ _) => apply keeps_try_except; [|intros ?]
  | |- keeps _ (for_fold _ _ _) => apply keeps_for_fold; intros ? ?
  | |- keeps _ (for_map _ _) => apply keeps_for_map; intros ?
  | |- keeps _ (match ?x with _ => _ end) => destruct x
  end.

Ltac keeps_auto tac := repeat keeps_step tac.

Ltac fallback_upd := intros [] ?; assumption.

Lemma store_mapping_keeps_fallback token enc :
  keeps in_fallback (store_mapping token enc).
Proof.
  unfold store_mapping, is_connected, set_pii_mapping, client_setex,
    _persist_token, _load_token_file,
    path_exists, read_token_file, write_token_file.
  keeps_auto fallback_upd.
Qed.

Lemma lookup_token_keeps_fallback token :
  keeps in_fallback (lookup_token token).
Proof.
  unfold lookup_token, is_connected, get_pii_mapping, client_get, backfill,
    get_persisted_token, _load_token_file, path_exists, read_token_file.
  keeps_auto fallback_upd.
Qed.

Lemma decode_text_keeps_fallback text : keeps in_fallback (decode_text text).
Proof.
  unfold decode_text. apply keeps_for_fold. intros acc token.
  unfold decode_token, decrypt.
  apply keeps_bind; [apply lookup_token_keeps_fallback|]. intros v.
  keeps_auto fallback_upd.
Qed.

Lemma span_eta_map (results : list Span) :
  List.map (fun res => mk_span (entity_type res) (start res) (end_ res)
                               (score res)) results = results.
Proof.
  induction results as [|[] l IH]; simpl; [done|]. by rewrite IH.
Qed.

(** What [detect_pii] does, by the state of [_analyzer]. *)
Lemma detect_pii_spec text w :
  detect_pii text w =
    match _analyzer w with
    | Fallback => Returns (_regex_detect_pii udb text) w
    | Loaded e =>
        match analyze e text with
        | Some results => Returns results w
        | None => Returns (_regex_detect_pii udb text) w
        end
    | NotLoaded =>
        match engine_available w with
        | Some e =>
            match analyze e text with
            | Some results => Returns results (set_analyzer (Loaded e) w)
            | None =>
                Returns (_regex_detect_pii udb text)
                        (set_analyzer (Loaded e) w)
            end
        | None =>
            Returns (_regex_detect_pii udb text) (set_analyzer Fallback w)
        end
    end.
Proof.
  destruct w as [an ts rc lk ea rs tf fw en io]. simpl.
  unfold detect_pii, get_analyzer, bind at 1, gets at 1. simpl.
  destruct an as [|e|]; simpl.
  - destruct ea as [e|]; cbn.
    + destruct (analyze e text) as [r|]; cbn; [|reflexivity].
      by rewrite span_eta_map.
    + reflexivity.
  - unfold try_except, bind, run_analyze.
    destruct (analyze e text) as [r|]; cbn; [|reflexivity].
    by rewrite span_eta_map.
  - reflexivity.
Qed.

Lemma detect_pii_keeps_fallback text : keeps in_fallback (detect_pii text).
Proof.
  intros w Hw. rewrite detect_pii_spec. unfold in_fallback in Hw.
  by rewrite Hw.
Qed.

Lemma encode_query_keeps_fallback text : keeps in_fallback (encode_query text).
Proof.
  unfold encode_query.
  apply keeps_bind; [apply detect_pii_keeps_fallback|]. intros results.
  apply keeps_for_fold. intros [enc maps] res. unfold encode_span.
  apply keeps_bind; [unfold token_hash; keeps_auto fallback_upd|]. intros tok.
  apply keeps_bind; [unfold encrypt; keeps_auto fallback_upd|]. intros c.
  apply keeps_bind; [apply store_mapping_keeps_fallback|]. intros _.
  apply keeps_ret.
Qed.

Lemma encode_results_keeps_fallback cols rws :
  keeps in_fallback (encode_results cols rws).
Proof.
  unfold encode_results. apply keeps_for_map. intros row.
  apply keeps_for_map. intros [s| | | | |]; simpl; try apply keeps_ret.
  apply keeps_bind; [apply detect_pii_keeps_fallback|]. intros ents.
  destruct ents as [|e ents]; [apply keeps_ret|].
  apply keeps_bind; [|intros; apply keeps_ret].
  apply keeps_for_fold. intros ev ent. unfold encode_entity.
  apply keeps_bind; [unfold token_hash; keeps_auto fallback_upd|]. intros tok.
  apply keeps_bind; [unfold encrypt; keeps_auto fallback_upd|]. intros c.
  apply keeps_bind; [apply store_mapping_keeps_fallback|]. intros _.
  apply keeps_ret.
Qed.

Lemma decode_cell_keeps_fallback c : keeps in_fallback (decode_cell c).
Proof.
  destruct c; simpl; try apply keeps_ret.
  apply keeps_bind; [apply decode_text_keeps_fallback|].
  intros; apply keeps_ret.
Qed.

Lemma decode_results_keeps_fallback r :
  keeps in_fallback (decode_results r).
Proof.
  destruct r as [|t|items|rws|c]; simpl; try apply keeps_ret.
  - apply keeps_bind; [|intros; apply keeps_ret].
    apply keeps_for_map. intros row. apply keeps_for_map.
    apply decode_cell_keeps_fallback.
  - destruct items; [apply keeps_ret|].
    apply keeps_bind; [|intros; apply keeps_ret].
    apply keeps_for_map. intros item. unfold decode_item.
    apply keeps_for_fold. intros acc kv.
    apply keeps_bind; [apply decode_cell_keeps_fallback|].
    intros; apply keeps_ret.
  - destruct rws; [apply keeps_ret|].
    apply keeps_bind; [|intros; apply keeps_ret].
    apply keeps_for_map. intros row. apply keeps_for_map.
    apply decode_cell_keeps_fallback.
Qed.

(** C8. [detect_pii] returns for every text and every state: it never
    raises. When the model-backed analyzer cannot be built, the call falls
    back to the patterns and records that; from then on every call uses the
    patterns, the model is not tried again, and no entry point of the
    module undoes it. When a loaded analyzer raises during one call, that
    call returns the pattern-based result and the analyzer stays loaded:
    the next call that it serves is answered by the model. *)
Theorem detector_total_fallback (text : str) (w : World) :
  (exists spans w', detect_pii text w = Returns spans w') /\
  (_analyzer w = NotLoaded -> engine_available w = None ->
     detect_pii text w =
       Returns (_regex_detect_pii udb text) (set_analyzer Fallback w)) /\
  (_analyzer w = Fallback ->
     detect_pii text w = Returns (_regex_detect_pii udb text) w) /\
  (forall text' cols rws r,
     keeps in_fallback (detect_pii text') /\
     keeps in_fallback (encode_query text') /\
     keeps in_fallback (encode_results cols rws) /\
     keeps in_fallback (decode_text text') /\
     keeps in_fallback (decode_results r)) /\
  (forall e, _analyzer w = Loaded e -> analyze e text = None ->
     detect_pii text w = Returns (_regex_detect_pii udb text) w /\
     forall text' results, analyze e text' = Some results ->
       detect_pii text' w = Returns results w).
Proof.
  repeat split.
  - rewrite detect_pii_spec.
    destruct (_analyzer w) as [|e|]; [destruct (engine_available w) as [e|]|
                                       |]; try destruct (analyze e text); eauto.
  - intros Ha He. by rewrite detect_pii_spec, Ha, He.
  - intros Ha. by rewrite detect_pii_spec, Ha.
  - apply detect_pii_keeps_fallback.
  - apply encode_query_keeps_fallback.
  - apply encode_results_keeps_fallback.
  - apply decode_text_keeps_fallback.
  - apply decode_results_keeps_fallback.
  - rewrite detect_pii_spec. by rewrite H, H0.
  - intros text' results Hr. rewrite detect_pii_spec. by rewrite H, Hr.
Qed.


(** ** Slices of one text *)

Lemma slice_norm (s : str) a b :
  0 <= a <= b -> b <= py_len s ->
  slice s a b = drop (Z.to_nat a) (take (Z.to_nat b) s).
Proof.
  intros H1 H2. rewrite slice_in_range by lia.
  rewrite take_drop_commute. do 2 f_equal. lia.
Qed.

Lemma slice_empty (s : str) a : 0 <= a <= py_len s -> slice s a a = [].
Proof.
  intros H. rewrite slice_in_range by lia.
  replace (Z.to_nat (a - a)) with 0%nat by lia. apply take_0.
Qed.

Lemma slice_full (s : str) : slice s 0 (py_len s) = s.
Proof.
  unfold py_len. rewrite slice_in_range by (unfold py_len; lia).
  simpl. rewrite drop_0, Z.sub_0_r, Nat2Z.id. by apply take_ge.
Qed.

Lemma slice_concat (s : str) a b c :
  0 <= a <= b -> b <= c -> c <= py_len s ->
  slice s a b ++ slice s b c = slice s a c.
Proof.
  intros H1 H2 H3. rewrite !slice_norm by lia.
  rewrite <- (drop_take_drop (take (Z.to_nat c) s) (Z.to_nat a) (Z.to_nat b))
    by lia.
  rewrite take_take. do 3 f_equal. lia.
Qed.

Lemma slice_length (s : str) a b :
  0 <= a <= b -> b <= py_len s -> py_len (slice s a b) = b - a.
Proof.
  intros H1 H2. rewrite slice_in_range by lia. unfold py_len in *.
  rewrite length_take, length_drop. lia.
Qed.

(** The encoded text so far is [text[:p] ++ r]; cutting it at [q <= p]. *)
Lemma slice_to_prefix (s r : str) p q :
  0 <= q <= p -> p <= py_len s ->
  slice_to (slice s 0 p ++ r) q = slice s 0 q.
Proof.
  intros H1 H2. unfold slice_to.
  assert (Hlen : py_len (slice s 0 p) = p)
    by (rewrite slice_length; lia).
  rewrite (slice_norm (slice s 0 p ++ r)), (slice_norm s 0 q); try lia.
  2:{ unfold py_len in *. rewrite length_app. lia. }
  simpl. rewrite !drop_0. rewrite take_app_le by (unfold py_len in Hlen; lia).
  rewrite slice_norm by lia. simpl. rewrite drop_0, take_take.
  f_equal. lia.
Qed.

Lemma slice_from_prefix (s r : str) p q :
  0 <= q <= p -> p <= py_len s ->
  slice_from (slice s 0 p ++ r) q = slice s q p ++ r.
Proof.
  intros H1 H2. unfold slice_from.
  assert (Hlen : py_len (slice s 0 p) = p)
    by (rewrite slice_length; lia).
  rewrite (slice_norm (slice s 0 p ++ r)).
  2:{ unfold py_len in *. rewrite length_app. lia. }
  2:{ lia. }
  unfold py_len at 1. rewrite Nat2Z.id, firstn_all.
  rewrite drop_app_le by (unfold py_len in Hlen; lia).
  f_equal. rewrite !slice_norm by lia. simpl. by rewrite drop_0.
Qed.

(** ** Sorting detections *)

Lemma Forall_insert_desc {A} (key : A -> Z) (P : A -> Prop) x l :
  P x -> Forall P l -> Forall P (insert_desc key x l).
Proof.
  intros Hx Hl. rewrite insert_desc_perm. by constructor.
Qed.

Lemma chain_weaken hi hi' l : chain hi l -> hi <= hi' -> chain hi' l.
Proof. destruct l as [|x l]; simpl; intros; intuition lia. Qed.

Lemma chain_insert text x : forall l hi,
  in_text text x -> end_ x <= hi ->
  Forall (in_text text) l -> Forall (apart x) l ->
  chain hi l -> chain hi (insert_desc start x l).
Proof.
  intros l. induction l as [|y l IH]; intros hi Hx Hhi Hin Hap Hch.
  - simpl in *. unfold in_text in Hx. lia.
  - apply Forall_cons in Hin as [Hy Hin]. apply Forall_cons in Hap as [Hxy Hap].
    simpl in Hch. destruct Hch as (H0 & H1 & H2 & Hch). simpl.
    unfold in_text, apart in *.
    destruct (Z.ltb_spec (start x) (start y)).
    + simpl. repeat split; try lia. apply IH; auto. lia.
    + simpl. repeat split; try lia. eapply chain_weaken; eauto. lia.
Qed.

Lemma chain_sort_desc text spans :
  Forall (in_text text) spans -> pairwise_apart spans ->
  chain (py_len text) (sort_desc start spans).
Proof.
  induction spans as [|x l IH]; intros Hin Hap.
  - simpl. unfold py_len. lia.
  - apply Forall_cons in Hin as [Hx Hin]. destruct Hap as [Hxl Hap]. simpl.
    eapply chain_insert; eauto.
    + unfold in_text in Hx. lia.
    + by rewrite sort_desc_perm.
    + by rewrite sort_desc_perm.
Qed.

(** ** The encoder's loop *)

Lemma for_fold_cons_Returns {A B} (f : B -> A -> M B) x l acc w r w' :
  for_fold f (x :: l) acc w = Returns r w' ->
  exists acc1 w1, f acc x w = Returns acc1 w1 /\
                  for_fold f l acc1 w1 = Returns r w'.
Proof.
  cbn [for_fold]. unfold bind.
  destruct (f acc x w) as [acc1 w1| |]; try discriminate. eauto.
Qed.

(** Whenever [store_mapping] returns, the in-process dict has the mapping
    and the lock is as it was. *)
Lemma store_mapping_Returns token enc w w' :
  store_mapping token enc w = Returns tt w' ->
  _token_store w' = <[token := enc]> (_token_store w) /\
  _TOKEN_FILE_LOCK w' = _TOKEN_FILE_LOCK w /\
  redis_client w' = redis_client w /\
  redis_server w' =
    (if connected (redis_client w) then redis_server w' else redis_server w) /\
  token_file w' =
    (if connected (redis_client w) then token_file w else token_file w').
Proof.
  destruct (connected (redis_client w)) eqn:Ec.
  - destruct (store_mapping_connected token enc w Ec)
      as (w1 & l & Hrun & Hts & Htf & Hlk & Hrc & _).
    rewrite Hrun. intros [= <-]. auto.
  - destruct w as [an ts [cn cl] lk ea rs tf fw en io]. simpl in Ec. subst cn.
    destruct lk; [discriminate|].
    destruct tf as [f|]; [discriminate|].
    destruct fw; cbv -[insert app empty]; intros [= <-]; auto.
Qed.

Lemma encode_span_Returns text enc maps x w enc' maps' w' :
  encode_span text (enc, maps) x w = Returns (enc', maps') w' ->
  get_token_hash (slice text (start x) (end_ x)) (entity_type x)
    = Some (token_of text x) /\
  enc' = slice_to enc (start x) ++ token_of text x
           ++ slice_from enc (end_ x) /\
  maps' = maps ++ [mapping_of text x] /\
  store_mapping (token_of text x)
    (encrypt_value (entropy w) (slice text (start x) (end_ x)))
    (set_entropy (S (entropy w)) w) = Returns tt w'.
Proof.
  unfold encode_span, token_hash, token_of, mapping_of, token_of.
  destruct (get_token_hash _ _) as [tok|]; [|discriminate].
  rewrite bind_ret. unfold encrypt.
  rewrite bind_assoc, bind_gets, bind_assoc, bind_modify, bind_ret.
  unfold bind at 1.
  destruct (store_mapping _ _ _) as [[] w1| |]; try discriminate.
  unfold ret. intros [= <- <- <-]. auto.
Qed.

Lemma splice_seg_snoc text x hi : forall asc q,
  splice_seg text q (asc ++ [x]) hi
  = splice_seg text q asc (start x) ++ token_of text x
      ++ slice text (end_ x) hi.
Proof.
  induction asc as [|y asc IH]; intros q; simpl; [done|].
  rewrite IH. by rewrite <- !app_assoc.
Qed.

Lemma finish_splice text : forall l p r,
  finish text p r l = splice_seg text 0 (rev l) p ++ r.
Proof.
  induction l as [|x l IH]; intros p r; simpl; [done|].
  rewrite IH, splice_seg_snoc. by rewrite <- !app_assoc.
Qed.

Lemma encode_fold_Returns text : forall l p r maps w enc' maps' w',
  chain p l -> p <= py_len text ->
  for_fold (encode_span text) l (slice text 0 p ++ r, maps) w
    = Returns (enc', maps') w' ->
  enc' = finish text p r l /\
  maps' = maps ++ List.map (mapping_of text) l.
Proof.
  induction l as [|x l IH]; intros p r maps w enc' maps' w' Hch Hp Hrun.
  - simpl in Hrun. injection Hrun as <- <- <-. simpl.
    by rewrite app_nil_r.
  - apply for_fold_cons_Returns in Hrun as ([enc1 maps1] & w1 & Hstep & Hrun).
    apply encode_span_Returns in Hstep as (_ & -> & -> & _).
    simpl in Hch. destruct Hch as (H0 & H1 & H2 & Hch).
    rewrite slice_to_prefix, slice_from_prefix in Hrun by lia.
    apply IH in Hrun as [-> ->]; [|done|lia].
    split; [reflexivity|]. simpl. by rewrite <- app_assoc.
Qed.

Lemma slice_scalar text a b :
  Forall scalar_value text -> Forall scalar_value (slice text a b).
Proof. intros H. unfold slice. by apply Forall_take, Forall_drop. Qed.

(** With Redis connected at start-up the loop returns for every list of
    spans of an encodable text. *)
Lemma encode_fold_total text : forall l acc w,
  Forall scalar_value text ->
  connected (redis_client w) = true ->
  exists r w', for_fold (encode_span text) l acc w = Returns r w'.
Proof.
  induction l as [|x l IH]; intros [enc maps] w Hsc Hc.
  - simpl. eauto.
  - cbn [for_fold].
    destruct (get_token_hash_total (slice text (start x) (end_ x))
                (entity_type x) (slice_scalar _ _ _ Hsc)) as [tok Htok].
    set (w0 := set_entropy (S (entropy w)) w).
    destruct (store_mapping_connected tok
                (encrypt_value (entropy w) (slice text (start x) (end_ x)))
                w0 Hc) as (w1 & lg & Hst & _ & _ & _ & Hrc & _).
    assert (Hstep : exists acc1,
              encode_span text (enc, maps) x w = Returns acc1 w1).
    { unfold encode_span, token_hash. rewrite Htok, bind_ret. unfold encrypt.
      rewrite bind_assoc, bind_gets, bind_assoc, bind_modify, bind_ret.
      fold w0. rewrite (bind_Returns _ _ _ _ _ Hst). eauto. }
    destruct Hstep as [acc1 Hstep].
    rewrite (bind_Returns _ _ _ _ _ Hstep).
    apply IH; auto. by rewrite Hrc.
Qed.

Lemma detect_pii_Returns text w spans w1 :
  detect_pii text w = Returns spans w1 ->
  _token_store w1 = _token_store w /\
  redis_client w1 = redis_client w /\
  _TOKEN_FILE_LOCK w1 = _TOKEN_FILE_LOCK w /\
  redis_server w1 = redis_server w /\
  token_file w1 = token_file w.
Proof.
  rewrite detect_pii_spec.
  destruct (_analyzer w) as [|e|]; [destruct (engine_available w) as [e|]| |];
    try destruct (analyze e text); intros [= <- <-]; auto.
Qed.

(** C2, as the code has it: offset safety for spans that do not overlap.
    When the detected spans lie within the text, are not empty and are
    pairwise disjoint, the encoded text is the original with exactly the
    characters [text[start:end]] of each span replaced by that span's
    token, whatever the lengths of spans and tokens and in whatever order
    the detector listed them; and one mapping per span is reported, in
    processing order. With Redis connected at start-up and an encodable
    text the call does return. *)
Theorem offset_safety (text : str) (w : World) (spans : list Span) (w1 : World) :
  detect_pii text w = Returns spans w1 ->
  Forall (in_text text) spans ->
  pairwise_apart spans ->
  (forall out maps w',
     encode_query text w = Returns (out, maps) w' ->
     out = splice text (rev (sort_desc start spans)) /\
     maps = List.map (mapping_of text) (sort_desc start spans)) /\
  (connected (redis_client w) = true -> Forall scalar_value text ->
   exists out maps w', encode_query text w = Returns (out, maps) w').
Proof.
  intros Hdet Hin Hap.
  pose proof (chain_sort_desc text spans Hin Hap) as Hch.
  split.
  - intros out maps w' Hrun. unfold encode_query in Hrun.
    rewrite (bind_Returns _ _ _ _ _ Hdet) in Hrun.
    rewrite <- (slice_full text) in Hrun at 2.
    rewrite <- (app_nil_r (slice text 0 (py_len text))) in Hrun.
    apply encode_fold_Returns in Hrun as [-> ->]; [|done|lia].
    split; [|reflexivity]. rewrite finish_splice. apply app_nil_r.
  - intros Hc Hsc. unfold encode_query.
    rewrite (bind_Returns _ _ _ _ _ Hdet).
    apply detect_pii_Returns in Hdet as (_ & Hrc & _).
    destruct (encode_fold_total text (sort_desc start spans) (text, []) w1
                Hsc) as ([out maps] & w' & Hrun); [by rewrite Hrc|].
    eauto.
Qed.

(** ** Tabular results *)

Lemma for_map_Forall2 {A B} (f : A -> M B) (R : A -> B -> Prop) :
  (forall x w y w', f x w = Returns y w' -> R x y) ->
  forall l w ys w', for_map f l w = Returns ys w' -> Forall2 R l ys.
Proof.
  intros Hf. induction l as [|x l IH]; intros w ys w' Hrun.
  - injection Hrun as <- <-. constructor.
  - cbn [for_map] in Hrun. unfold bind in Hrun.
    destruct (f x w) as [y w1| |] eqn:Ex; try discriminate.
    destruct (for_map f l w1) as [ys1 w2| |] eqn:El; try discriminate.
    injection Hrun as <- <-. constructor; eauto.
Qed.

Lemma for_map_pure {A B} (f : A -> M B) (g : A -> B) (P : World -> Prop) :
  (forall x w, P w -> exists w', f x w = Returns (g x) w' /\ P w') ->
  forall l w, P w ->
    exists w', for_map f l w = Returns (List.map g l) w' /\ P w'.
Proof.
  intros Hf. induction l as [|x l IH]; intros w Hw.
  - exists w. by split.
  - destruct (Hf x w Hw) as (w1 & Hx & Hw1).
    destruct (IH w1 Hw1) as (w2 & Hl & Hw2).
    exists w2. split; [|done]. cbn [for_map].
    rewrite (bind_Returns _ _ _ _ _ Hx), (bind_Returns _ _ _ _ _ Hl).
    reflexivity.
Qed.

Lemma for_map_total {A B} (f : A -> M B) (P : World -> Prop)
    (Q : A -> Prop) :
  (forall x w, Q x -> P w -> exists y w', f x w = Returns y w' /\ P w') ->
  forall l w, Forall Q l -> P w ->
    exists ys w', for_map f l w = Returns ys w' /\ P w'.
Proof.
  intros Hf. induction l as [|x l IH]; intros w Hl Hw.
  - exists [], w. by split.
  - apply Forall_cons in Hl as [Hx Hl].
    destruct (Hf x w Hx Hw) as (y & w1 & Hy & Hw1).
    destruct (IH w1 Hl Hw1) as (ys & w2 & Hys & Hw2).
    exists (y :: ys), w2. split; [|done]. cbn [for_map].
    rewrite (bind_Returns _ _ _ _ _ Hy), (bind_Returns _ _ _ _ _ Hys).
    reflexivity.
Qed.

Lemma encode_cell_frame c w c' w' :
  encode_cell c w = Returns c' w' -> cell_frame c c'.
Proof.
  unfold cell_frame. destruct c as [s| | | | |]; simpl;
    try (by intros [= <- <-]).
  unfold bind. destruct (detect_pii s w) as [ents w1| |]; try discriminate.
  destruct ents as [|e ents]; [by intros [= <- <-]|].
  destruct (for_fold _ _ _ _) as [ev w2| |]; try discriminate.
  by intros [= <- <-].
Qed.

Lemma encode_entity_total val : forall l ev w,
  Forall scalar_value val ->
  connected (redis_client w) = true ->
  exists r w', for_fold (encode_entity val) l ev w = Returns r w' /\
               connected (redis_client w') = true.
Proof.
  induction l as [|x l IH]; intros ev w Hsc Hc.
  - simpl. eauto.
  - cbn [for_fold].
    destruct (get_token_hash_total (slice val (start x) (end_ x))
                (entity_type x) (slice_scalar _ _ _ Hsc)) as [tok Htok].
    set (w0 := set_entropy (S (entropy w)) w).
    destruct (store_mapping_connected tok
                (encrypt_value (entropy w) (slice val (start x) (end_ x)))
                w0 Hc) as (w1 & lg & Hst & _ & _ & _ & Hrc & _).
    assert (Hstep : exists ev1,
              encode_entity val ev x w = Returns ev1 w1).
    { unfold encode_entity, token_hash. rewrite Htok, bind_ret. unfold encrypt.
      rewrite bind_assoc, bind_gets, bind_assoc, bind_modify, bind_ret.
      fold w0. rewrite (bind_Returns _ _ _ _ _ Hst). eauto. }
    destruct Hstep as [ev1 Hstep].
    rewrite (bind_Returns _ _ _ _ _ Hstep).
    apply IH; auto. by rewrite Hrc.
Qed.

Lemma encode_cell_total c w :
  encodable_cell c ->
  connected (redis_client w) = true ->
  exists c' w', encode_cell c w = Returns c' w' /\
                connected (redis_client w') = true.
Proof.
  intros Hc Hw. destruct c as [s| | | | |]; simpl; eauto.
  destruct (proj1 (detector_total_fallback s w)) as (ents & w1 & Hdet).
  rewrite (bind_Returns _ _ _ _ _ Hdet).
  apply detect_pii_Returns in Hdet as (_ & Hrc & _).
  destruct ents as [|e ents]; [exists (CStr s), w1; by rewrite Hrc|].
  destruct (encode_entity_total s (sort_desc start (e :: ents)) s w1 Hc)
    as (ev & w2 & Hrun & Hc2); [by rewrite Hrc|].
  rewrite (bind_Returns _ _ _ _ _ Hrun). eauto.
Qed.

Lemma decode_cell_spec w0 c w :
  _TOKEN_FILE_LOCK w = false ->
  (forall t, tier_value w t = tier_value w0 t) ->
  exists w', decode_cell c w = Returns (decode_cell_pure w0 c) w' /\
             _TOKEN_FILE_LOCK w' = false /\
             (forall t, tier_value w' t = tier_value w0 t).
Proof.
  intros Hlock Htv. destruct c as [s| | | | |]; simpl; eauto.
  destruct (decode_text_spec s w Hlock) as (w' & Hrun & Hsame & Htv').
  exists w'. rewrite (bind_Returns _ _ _ _ _ Hrun). repeat split.
  - by rewrite (substitute_ext w0 w _ _ Htv).
  - by rewrite (same_but_cache_lock _ _ Hsame).
  - intros t. by rewrite Htv', Htv.
Qed.

Lemma decode_item_spec w0 item : forall w,
  _TOKEN_FILE_LOCK w = false ->
  (forall t, tier_value w t = tier_value w0 t) ->
  exists w', decode_item item w = Returns (decode_item_pure w0 item) w' /\
             _TOKEN_FILE_LOCK w' = false /\
             (forall t, tier_value w' t = tier_value w0 t).
Proof.
  unfold decode_item, decode_item_pure. generalize (@nil (str * Cell)).
  induction item as [|kv item IH]; intros acc w Hlock Htv; simpl; eauto.
  destruct (decode_cell_spec w0 (snd kv) w Hlock Htv)
    as (w1 & Hrun & Hlock1 & Htv1).
  rewrite bind_assoc, (bind_Returns _ _ _ _ _ Hrun), bind_ret.
  by apply IH.
Qed.

Lemma decode_cell_pure_frame w c : cell_frame c (decode_cell_pure w c).
Proof. unfold cell_frame. by destruct c. Qed.

Lemma dict_set_fresh k v d :
  k ∉ List.map fst d -> dict_set k v d = d ++ [(k, v)].
Proof.
  induction d as [|[k' v'] d IH]; simpl; intros Hk; [done|].
  destruct (decide (k = k')) as [->|Hne].
  - exfalso. apply Hk. constructor.
  - f_equal. apply IH. intros Hin. apply Hk. by constructor.
Qed.

(** A row whose keys are distinct keeps its keys, in order. *)
Lemma decode_item_pure_map w item :
  NoDup (List.map fst item) ->
  decode_item_pure w item
  = List.map (fun kv => (fst kv, decode_cell_pure w (snd kv))) item.
Proof.
  unfold decode_item_pure.
  assert (H : forall acc,
            NoDup (List.map fst acc ++ List.map fst item) ->
            fold_left
              (fun d kv => dict_set (fst kv) (decode_cell_pure w (snd kv)) d)
              item acc
            = acc ++ List.map
                       (fun kv => (fst kv, decode_cell_pure w (snd kv))) item).
  { induction item as [|[k v] item IH]; intros acc Hnd; simpl.
    - by rewrite app_nil_r.
    - simpl in Hnd. rewrite dict_set_fresh.
      + rewrite IH.
        * by rewrite <- app_assoc.
        * rewrite map_app, <- app_assoc. exact Hnd.
      + apply NoDup_app in Hnd as (_ & Hdis & _).
        intros Hin. apply (Hdis k Hin). constructor. }
  intros Hnd. by apply (H []).
Qed.

(** C9. Cells that are not strings pass through unchanged. Whenever
    [encode_results] returns, its output has the rows of the input, each
    with as many cells, every non-string cell equal to the input cell and
    every string cell still a string; with Redis connected at start-up and
    encodable strings it does return. [decode_results] always returns, and
    what it returns is the input with every string cell decoded on its own
    (as [decode_text] decodes it in the state the call started in) and
    every other cell, the columns and the row count as they were; rows
    that are dicts keep their keys, in order. *)
Theorem nonstring_cells_pass_through :
  (forall cols rws w out w',
     encode_results cols rws w = Returns out w' ->
     Forall2 (Forall2 cell_frame) rws out) /\
  (forall cols rws w,
     connected (redis_client w) = true ->
     Forall (Forall encodable_cell) rws ->
     exists out w', encode_results cols rws w = Returns out w') /\
  (forall r w,
     _TOKEN_FILE_LOCK w = false ->
     exists w', decode_results r w = Returns (decode_results_pure w r) w') /\
  (forall w rws,
     Forall2 (Forall2 cell_frame) rws
       (List.map (List.map (decode_cell_pure w)) rws)) /\
  (forall w items,
     Forall (fun item => NoDup (List.map fst item)) items ->
     Forall2 (Forall2 (fun kv kv' =>
                         fst kv' = fst kv /\ cell_frame (snd kv) (snd kv')))
       items (List.map (decode_item_pure w) items)).
Proof.
  split; [|split; [|split; [|split]]].
  - intros cols rws w out w'. unfold encode_results.
    apply for_map_Forall2. intros row w1 row' w2.
    apply for_map_Forall2. intros c w3 c' w4. apply encode_cell_frame.
  - intros cols rws w Hc Hrws. unfold encode_results.
    destruct (for_map_total (for_map encode_cell)
                (fun w => connected (redis_client w) = true)
                (Forall encodable_cell)) with (l := rws) (w := w)
      as (out & w' & Hrun & _); eauto.
    intros row w1 Hrow Hc1.
    apply (for_map_total encode_cell
             (fun w => connected (redis_client w) = true) encodable_cell);
      auto.
    intros c w2 Hcell Hc2. by apply encode_cell_total.
  - intros r w Hlock.
    set (P := fun w1 => _TOKEN_FILE_LOCK w1 = false /\
                        forall t, tier_value w1 t = tier_value w t).
    assert (HP : P w) by (by split).
    assert (Hrows : forall rws w1, P w1 ->
              exists w', for_map (for_map decode_cell) rws w1
                         = Returns (List.map (List.map (decode_cell_pure w)) rws) w'
                         /\ P w').
    { intros rws. apply for_map_pure. intros row.
      apply for_map_pure. intros c w2 [Hl Htv].
      destruct (decode_cell_spec w c w2 Hl Htv) as (w3 & Hrun & Hl3 & Htv3).
      exists w3. by repeat split. }
    destruct r as [|t|items|rws|c]; simpl; eauto.
    + destruct (Hrows (rows t) w HP) as (w' & Hrun & _).
      rewrite (bind_Returns _ _ _ _ _ Hrun). eauto.
    + destruct items as [|item items]; [eauto|].
      destruct (for_map_pure decode_item (decode_item_pure w) P)
        with (l := item :: items) (w := w) as (w' & Hrun & _); auto.
      { intros it w2 [Hl Htv].
        destruct (decode_item_spec w it w2 Hl Htv) as (w3 & Hrun & Hl3 & Htv3).
        exists w3. by repeat split. }
      rewrite (bind_Returns _ _ _ _ _ Hrun). eauto.
    + destruct rws as [|row rws]; [eauto|].
      destruct (Hrows (row :: rws) w HP) as (w' & Hrun & _).
      rewrite (bind_Returns _ _ _ _ _ Hrun). eauto.
  - intros w rws. induction rws as [|row rws IH]; simpl; constructor; auto.
    induction row as [|c row IHr]; simpl; constructor; auto.
    apply decode_cell_pure_frame.
  - intros w items Hnd. induction Hnd as [|item items Hi _ IH]; simpl;
      constructor; auto.
    rewrite decode_item_pure_map by done. clear.
    induction item as [|kv item IHi]; simpl; constructor; auto.
    split; [reflexivity | apply decode_cell_pure_frame].
Qed.

(** ** Segmented texts *)

Lemma cur_cons sg segs : cur (sg :: segs) = cur_seg sg ++ cur segs.
Proof. reflexivity. Qed.

Lemma orig_cons sg segs : orig (sg :: segs) = orig_seg sg ++ orig segs.
Proof. reflexivity. Qed.

Lemma prefix_app_cases (x a b : str) :
  x `prefix_of` a ++ b ->
  x `prefix_of` a \/ exists x2, x = a ++ x2 /\ x2 `prefix_of` b.
Proof.
  intros Hp.
  destruct (prefix_weak_total x a (a ++ b) Hp) as [H|[k ->]];
    [by apply prefix_app_r | by left |].
  right. exists k. split; [done|]. by apply prefix_app_inv in Hp.
Qed.

(** A string without an opening bracket that starts the text with the
    tokens in it also starts the text with the values in their place. *)
Lemma prefix_cur_orig (x : str) : forall segs,
  (chr "[" ∉ x) -> Forall seg_shape segs ->
  x `prefix_of` cur segs -> x `prefix_of` orig segs.
Proof.
  intros segs. revert x.
  induction segs as [|sg segs IH]; intros x Hx Hsegs Hp; [done|].
  apply Forall_cons in Hsegs as [Hsg Hsegs].
  rewrite cur_cons in Hp. rewrite orig_cons.
  destruct sg as [s|t v]; simpl in *.
  - apply prefix_app_cases in Hp as [Hp|(x2 & -> & Hp)].
    + by apply prefix_app_r.
    + apply prefix_app. apply IH; auto.
      intros Hin. apply Hx. apply elem_of_app. by right.
  - apply token_shape_bracketed, bracketed_inv in Hsg as (t' & -> & _ & _).
    destruct x as [|c x]; [apply prefix_nil|].
    simpl in Hp. apply prefix_cons_inv_1 in Hp as ->.
    exfalso. apply Hx. constructor.
Qed.

(** A token that starts at a literal character lies in the original. *)
Lemma token_at_literal t0 c s rest :
  token_shape t0 -> Forall seg_shape rest ->
  t0 `prefix_of` (c :: s) ++ cur rest ->
  t0 `prefix_of` (c :: s) ++ orig rest.
Proof.
  intros Ht Hrest Hp.
  destruct (bracketed_inv t0 (token_shape_bracketed _ Ht))
    as (t' & -> & Ht' & _).
  simpl in *. pose proof (prefix_cons_inv_1 _ _ _ _ Hp) as <-.
  apply prefix_cons_inv_2 in Hp. apply prefix_cons.
  apply (prefix_cur_orig t' (SLit s :: rest));
    [done | constructor; [exact I | done] | exact Hp].
Qed.

Lemma no_token_prefix pre t0 y :
  token_shape t0 -> ~ has_token (pre ++ y) -> ~ t0 `prefix_of` y.
Proof.
  intros Ht Hno [k ->]. apply Hno. by exists pre, t0, k.
Qed.

Lemma starts_with_false p s : ~ p `prefix_of` s -> starts_with p s = false.
Proof.
  intros H. destruct (starts_with p s) eqn:E; [|done].
  by apply starts_with_prefix in E.
Qed.

(** Replacing a token in a segmented text replaces exactly the segments
    that hold it. *)
Lemma replace_from_segs t0 v0 : token_shape t0 -> forall segs pre,
  Forall seg_shape segs ->
  ~ has_token (pre ++ orig segs) ->
  replace_from t0 v0 (cur segs) 0 = cur (subst_tok t0 v0 segs).
Proof.
  intros Ht0. pose proof (token_shape_bracketed _ Ht0) as Hb0.
  induction segs as [|sg segs IH]; intros pre Hsegs Hno; [done|].
  apply Forall_cons in Hsegs as [Hsg Hsegs].
  destruct sg as [s|t v].
  - cbn [subst_tok List.map]. fold (subst_tok t0 v0 segs).
    rewrite !cur_cons. cbn [cur_seg]. rewrite orig_cons in Hno. cbn [orig_seg] in Hno.
    clear Hsg. revert pre Hno. induction s as [|c s IHs]; intros pre Hno.
    + simpl. by apply (IH pre).
    + cbn [app replace_from].
      rewrite starts_with_false.
      * f_equal. apply (IHs (pre ++ [c])). by rewrite <- app_assoc.
      * intros Hp.
        apply (no_token_prefix pre t0 ((c :: s) ++ orig segs) Ht0 Hno).
        by apply token_at_literal.
  - simpl in Hsg. pose proof (token_shape_bracketed _ Hsg) as Hb.
    cbn [subst_tok List.map]. fold (subst_tok t0 v0 segs).
    rewrite orig_cons in Hno. cbn [orig_seg] in Hno.
    rewrite app_assoc in Hno. rewrite cur_cons. cbn [cur_seg].
    destruct (decide (t = t0)) as [->|Hne].
    + rewrite cur_cons. cbn [cur_seg].
      destruct t0 as [|c t0'];
        [apply bracketed_length in Hb0; simpl in Hb0; lia|].
      cbn [app replace_from].
      assert (Hsw : starts_with (c :: t0') (c :: t0' ++ cur segs) = true)
        by (apply starts_with_prefix; by exists (cur segs)).
      rewrite Hsw. f_equal.
      replace (length (c :: t0') - 1)%nat with (length t0') by (simpl; lia).
      rewrite replace_from_skip. by apply (IH (pre ++ v)).
    + rewrite cur_cons. cbn [cur_seg].
      rewrite replace_from_other by auto.
      f_equal. by apply (IH (pre ++ v)).
Qed.

Lemma replace_segs t0 v0 segs :
  token_shape t0 -> Forall seg_shape segs -> ~ has_token (orig segs) ->
  replace t0 v0 (cur segs) = cur (subst_tok t0 v0 segs).
Proof.
  intros Ht Hsegs Hno. unfold replace.
  destruct t0 as [|c t0];
    [apply token_shape_bracketed, bracketed_length in Ht; simpl in Ht; lia|].
  by apply (replace_from_segs (c :: t0) v0 Ht segs []).
Qed.

(** ** Scanning a segmented text for tokens *)

Lemma py_len_app (a b : str) : py_len (a ++ b) = py_len a + py_len b.
Proof. unfold py_len. rewrite length_app. lia. Qed.

Lemma finditer_skip r : forall x prev y pos,
  exists prev',
    finditer_from r prev (x ++ y) pos (length x)
    = finditer_from r prev' y (pos + py_len x) 0.
Proof.
  induction x as [|c x IH]; intros prev y pos.
  - exists prev. simpl. unfold py_len. simpl. by rewrite Z.add_0_r.
  - destruct (IH (Some c) y (pos + 1)) as [prev' H].
    exists prev'. cbn [app length finditer_from]. rewrite H.
    f_equal. unfold py_len. simpl length. lia.
Qed.

Lemma token_shape_cons t : token_shape t -> exists c t', t = c :: t'.
Proof. intros (ty & hx & -> & _). eauto. Qed.

Lemma match_here_token_nil prev : match_here token_pattern prev [] = None.
Proof.
  destruct (match_here token_pattern prev []) as [rest|] eqn:E; [|done].
  apply match_here_token_inv in E as (t & Ht & Heq).
  apply token_shape_cons in Ht as (c & t' & ->). discriminate.
Qed.

Lemma match_here_literal prev pre c s rest :
  Forall seg_shape rest ->
  ~ has_token (pre ++ (c :: s) ++ orig rest) ->
  match_here token_pattern prev ((c :: s) ++ cur rest) = None.
Proof.
  intros Hrest Hno.
  destruct (match_here token_pattern prev _) as [r|] eqn:E; [|done].
  exfalso. apply match_here_token_inv in E as (t & Ht & Heq).
  apply (no_token_prefix pre t ((c :: s) ++ orig rest) Ht Hno).
  apply token_at_literal; auto. by exists r.
Qed.

(** The scan reports the tokens of the segments, and nothing else. *)
Lemma finditer_segs whole : forall segs pre_cur pre_orig prev,
  whole = pre_cur ++ cur segs ->
  Forall seg_shape segs ->
  ~ has_token (pre_orig ++ orig segs) ->
  List.map (fun m => slice whole (fst m) (snd m))
    (finditer_from token_pattern prev (cur segs) (py_len pre_cur) 0)
  = tokens_of segs.
Proof.
  induction segs as [|sg segs IH]; intros pre_cur pre_orig prev Hw Hsegs Hno.
  - unfold cur. cbn [flat_map finditer_from tokens_of].
    by rewrite match_here_token_nil.
  - apply Forall_cons in Hsegs as [Hsg Hsegs].
    destruct sg as [s|t v].
    + clear Hsg. cbn [tokens_of]. rewrite cur_cons in *. cbn [cur_seg] in *.
      rewrite orig_cons in Hno. cbn [orig_seg] in Hno.
      revert pre_cur pre_orig prev Hw Hno.
      induction s as [|c s IHs]; intros pre_cur pre_orig prev Hw Hno.
      * simpl. by apply (IH pre_cur pre_orig).
      * cbn [app finditer_from].
        change (c :: s ++ cur segs) with ((c :: s) ++ cur segs).
        rewrite (match_here_literal prev pre_orig c s segs Hsegs Hno).
        replace (py_len pre_cur + 1) with (py_len (pre_cur ++ [c]))
          by (rewrite py_len_app; reflexivity).
        apply (IHs (pre_cur ++ [c]) (pre_orig ++ [c])).
        -- rewrite Hw. by rewrite <- app_assoc.
        -- by rewrite <- app_assoc.
    + simpl in Hsg. cbn [tokens_of]. rewrite cur_cons in *. cbn [cur_seg] in *.
      rewrite orig_cons in Hno. cbn [orig_seg] in Hno.
      destruct (token_shape_cons t Hsg) as (c & t' & Ht).
      assert (Hm : match_here token_pattern prev (t ++ cur segs)
                   = Some (cur segs)) by (by apply match_here_token).
      rewrite Ht in *. cbn [app finditer_from].
      change (c :: t' ++ cur segs) with ((c :: t') ++ cur segs).
      rewrite Hm. cbn [List.map fst snd].
      replace (length ((c :: t') ++ cur segs) - length (cur segs))%nat
        with (length (c :: t')) by (rewrite length_app; lia).
      f_equal.
      * rewrite Hw.
        change (Z.of_nat (length (c :: t'))) with (py_len (c :: t')).
        apply slice_app_mid.
      * replace (length (c :: t') - 1)%nat with (length t') by (simpl; lia).
        destruct (finditer_skip token_pattern t' (Some c) (cur segs)
                    (py_len pre_cur + 1)) as [prev' Hskip].
        rewrite Hskip.
        replace (py_len pre_cur + 1 + py_len t')
          with (py_len (pre_cur ++ c :: t'))
          by (rewrite py_len_app; unfold py_len; simpl length; lia).
        apply (IH (pre_cur ++ c :: t') (pre_orig ++ v)).
        -- rewrite Hw. by rewrite <- app_assoc.
        -- assumption.
        -- by rewrite <- app_assoc.
Qed.

Lemma findall_segs segs :
  Forall seg_shape segs -> ~ has_token (orig segs) ->
  findall token_pattern (cur segs) = tokens_of segs.
Proof.
  intros Hsegs Hno. unfold findall, finditer.
  by apply (finditer_segs (cur segs) segs [] [] None).
Qed.

(** ** Decoding a segmented text *)

Lemma seg_ok_shape w segs : Forall (seg_ok w) segs -> Forall seg_shape segs.
Proof.
  intros H. eapply Forall_impl; [exact H|].
  intros [s|t v]; simpl; [done | by intros [? _]].
Qed.

Lemma tokens_of_subst t0 v0 segs t :
  t ∈ tokens_of (subst_tok t0 v0 segs) -> t ∈ tokens_of segs /\ t <> t0.
Proof.
  induction segs as [|[s|t1 v1] segs IH]; simpl; intros Hin.
  - by apply elem_of_nil in Hin.
  - by apply IH.
  - destruct (decide (t1 = t0)) as [->|Hne]; simpl in Hin.
    + apply IH in Hin as [Hin Hne]. split; [by constructor | done].
    + apply elem_of_cons in Hin as [->|Hin].
      * split; [constructor | done].
      * apply IH in Hin as [Hin Hne']. split; [by constructor | done].
Qed.

Lemma seg_ok_subst w t0 v0 segs :
  Forall (seg_ok w) segs -> Forall (seg_ok w) (subst_tok t0 v0 segs).
Proof.
  intros H. unfold subst_tok. apply Forall_map.
  eapply Forall_impl; [exact H|]. intros [s|t v]; simpl; [done|].
  intros Hok. by destruct (decide (t = t0)).
Qed.

Lemma orig_subst w t0 v0 segs :
  Forall (seg_ok w) segs -> resolve w t0 = Some v0 ->
  orig (subst_tok t0 v0 segs) = orig segs.
Proof.
  intros H Hr. induction H as [|sg segs Hsg _ IH]; [done|].
  cbn [subst_tok List.map]. fold (subst_tok t0 v0 segs).
  rewrite !orig_cons, IH. f_equal.
  destruct sg as [s|t v]; [done|]. simpl in Hsg. destruct Hsg as [_ Hv].
  destruct (decide (t = t0)) as [->|]; [|done].
  simpl. congruence.
Qed.

Lemma cur_no_tokens segs : tokens_of segs = [] -> cur segs = orig segs.
Proof.
  induction segs as [|[s|t v] segs IH]; cbn [tokens_of]; intros H;
    [done | | discriminate].
  rewrite cur_cons, orig_cons, IH by done. reflexivity.
Qed.

Lemma tokens_of_resolved w segs t :
  Forall (seg_ok w) segs -> t ∈ tokens_of segs -> is_Some (resolve w t).
Proof.
  induction 1 as [|[s|t1 v1] segs Hsg _ IH]; simpl; intros Hin.
  - by apply elem_of_nil in Hin.
  - by apply IH.
  - apply elem_of_cons in Hin as [->|Hin]; [|by apply IH].
    destruct Hsg as [_ ->]. eauto.
Qed.

(** Substituting all the tokens of a segmented text gives the text with
    the values in their place, in whatever order the tokens are taken. *)
Lemma substitute_segs w : forall tokens segs,
  Forall (seg_ok w) segs ->
  ~ has_token (orig segs) ->
  (forall t, t ∈ tokens_of segs -> t ∈ tokens) ->
  (forall t, t ∈ tokens -> token_shape t) ->
  substitute w tokens (cur segs) = orig segs.
Proof.
  induction tokens as [|t0 tokens IH]; intros segs Hok Hno Hsub Hshape.
  - simpl. apply cur_no_tokens.
    destruct (tokens_of segs) as [|t l] eqn:E; [done|].
    exfalso. apply (elem_of_nil t). apply Hsub. constructor.
  - unfold substitute. cbn [fold_left]. fold (substitute w tokens).
    assert (Hshape' : forall t, t ∈ tokens -> token_shape t)
      by (intros; apply Hshape; by constructor).
    destruct (resolve w t0) as [v0|] eqn:Er.
    + rewrite replace_segs;
        [| apply Hshape; constructor | by eapply seg_ok_shape | done].
      rewrite <- (orig_subst w t0 v0 segs Hok Er).
      apply IH; auto.
      * by apply seg_ok_subst.
      * by rewrite (orig_subst w t0 v0 segs Hok Er).
      * intros t Ht. apply tokens_of_subst in Ht as [Ht Hne].
        apply Hsub in Ht. apply elem_of_cons in Ht as [->|Ht]; done.
    + apply IH; auto.
      intros t Ht. pose proof (Hsub t Ht) as Hin.
      apply elem_of_cons in Hin as [->|Hin]; [|done].
      apply (tokens_of_resolved w segs) in Ht as [v Hv]; [|done].
      congruence.
Qed.

(** ** The encoded text, segment by segment *)

Lemma cur_segs_of text : forall asc pos hi,
  cur (segs_of text pos asc hi) = splice_seg text pos asc hi.
Proof.
  induction asc as [|x asc IH]; intros pos hi; cbn [segs_of splice_seg].
  - unfold cur. simpl. apply app_nil_r.
  - by rewrite !cur_cons, IH.
Qed.

Lemma orig_segs_of_snoc text x hi : forall asc q,
  orig (segs_of text q (asc ++ [x]) hi)
  = orig (segs_of text q asc (start x))
      ++ slice text (start x) (end_ x) ++ slice text (end_ x) hi.
Proof.
  induction asc as [|y asc IH]; intros q; cbn [app segs_of].
  - unfold orig. simpl. by rewrite !app_nil_r.
  - rewrite !orig_cons, IH. by rewrite <- !app_assoc.
Qed.

Lemma orig_segs_of_rev text : forall l p,
  chain p l -> p <= py_len text ->
  orig (segs_of text 0 (rev l) p) = slice text 0 p.
Proof.
  induction l as [|x l IH]; intros p Hch Hp.
  - unfold orig. simpl. apply app_nil_r.
  - simpl in Hch. destruct Hch as (H0 & H1 & H2 & Hch).
    cbn [rev]. rewrite orig_segs_of_snoc, IH by (done || lia).
    rewrite app_assoc, !slice_concat by lia. reflexivity.
Qed.

Lemma tokens_of_segs_of text : forall asc pos hi,
  tokens_of (segs_of text pos asc hi) = List.map (token_of text) asc.
Proof.
  induction asc as [|x asc IH]; intros pos hi; cbn [segs_of tokens_of List.map];
    [done|]. by rewrite IH.
Qed.

Lemma segs_of_ok w text : forall asc pos hi,
  (forall x, x ∈ asc ->
     token_shape (token_of text x) /\
     resolve w (token_of text x) = Some (slice text (start x) (end_ x))) ->
  Forall (seg_ok w) (segs_of text pos asc hi).
Proof.
  induction asc as [|x asc IH]; intros pos hi H; cbn [segs_of].
  - by repeat constructor.
  - constructor; [exact I|]. constructor.
    + apply H. constructor.
    + apply IH. intros y Hy. apply H. by constructor.
Qed.

Lemma tokens_of_shape segs t :
  Forall seg_shape segs -> t ∈ tokens_of segs -> token_shape t.
Proof.
  induction 1 as [|[s|t1 v1] segs Hsg _ IH]; simpl; intros Hin.
  - by apply elem_of_nil in Hin.
  - by apply IH.
  - apply elem_of_cons in Hin as [->|Hin]; [done | by apply IH].
Qed.

(** ** The stores after encoding *)

Lemma encode_fold_world text : forall l acc w r w',
  for_fold (encode_span text) l acc w = Returns r w' ->
  _TOKEN_FILE_LOCK w' = _TOKEN_FILE_LOCK w /\
  (forall x, x ∈ l ->
     get_token_hash (slice text (start x) (end_ x)) (entity_type x)
       = Some (token_of text x)) /\
  (forall k, k ∉ List.map (token_of text) l ->
     _token_store w' !! k = _token_store w !! k) /\
  (forall x, x ∈ l ->
     exists y n, y ∈ l /\ token_of text y = token_of text x /\
       _token_store w' !! token_of text x
         = Some (encrypt_value n (slice text (start y) (end_ y)))).
Proof.
  induction l as [|x l IH]; intros [enc maps] w r w' Hrun.
  - simpl in Hrun. injection Hrun as <- <-.
    repeat split; auto; intros y Hy; by apply elem_of_nil in Hy.
  - apply for_fold_cons_Returns in Hrun as ([enc1 maps1] & w1 & Hstep & Hrun).
    apply encode_span_Returns in Hstep as (Htok & _ & _ & Hst).
    apply store_mapping_Returns in Hst as (Hts1 & Hlk1 & _).
    simpl in Hts1, Hlk1.
    destruct (IH _ _ _ _ Hrun) as (Hlk & Hhash & Hother & Hmine).
    split; [congruence|]. split; [|split].
    + intros y Hy. apply elem_of_cons in Hy as [->|Hy]; auto.
    + intros k Hk. rewrite Hother, Hts1.
      * apply lookup_insert_ne. intros <-. apply Hk. constructor.
      * intros Hin. apply Hk. cbn [List.map]. by constructor.
    + intros x' Hx'. apply elem_of_cons in Hx' as [->|Hx'].
      * destruct (decide (token_of text x ∈ List.map (token_of text) l))
          as [Hin|Hnin].
        -- apply list_elem_of_In, in_map_iff in Hin as (z & Hz & Hzin).
           apply list_elem_of_In in Hzin.
           destruct (Hmine z Hzin) as (y & n & Hy & Hty & Hsto).
           exists y, n. split; [by constructor|]. split; [congruence|].
           by rewrite <- Hz.
        -- exists x, (entropy w). split; [constructor|]. split; [done|].
           rewrite (Hother _ Hnin), Hts1. apply lookup_insert_eq.
      * destruct (Hmine x' Hx') as (y & n & Hy & Hty & Hsto).
        exists y, n. split; [by constructor | done].
Qed.

Lemma resolve_cached w t c v :
  _token_store w !! t = Some c -> c <> [] -> decrypt_value c = Some v ->
  resolve w t = Some v.
Proof.
  intros Hc Hne Hd. unfold resolve, tier_value. rewrite Hc.
  destruct c as [|x c]; [done|]. simpl. exact Hd.
Qed.

(** C1, as the code has it: the round trip on the happy path. For a text
    with no substring matching the token grammar, when the detected spans
    lie within the text, are not empty, do not overlap and carry entity
    types of [PII_ENTITIES], no two spans with different values share a
    token, and the cipher gives non-empty ciphertexts that decrypt to what
    was encrypted: whenever [encode_query] returns, [decode_text] of the
    encoded text, in the same process, returns the original text. *)
Theorem round_trip (text : str) (w : World) (spans : list Span) (w1 : World)
    (out : str) (maps : list Mapping) (w' : World) :
  (forall a t b, text = a ++ t ++ b -> fullmatch token_pattern t = false) ->
  _TOKEN_FILE_LOCK w = false ->
  detect_pii text w = Returns spans w1 ->
  Forall (in_text text) spans ->
  pairwise_apart spans ->
  Forall (fun sp => In (entity_type sp) PII_ENTITIES) spans ->
  (forall x y, x ∈ spans -> y ∈ spans ->
     token_of text x = token_of text y ->
     slice text (start x) (end_ x) = slice text (start y) (end_ y)) ->
  (forall n v, decrypt_value (encrypt_value n v) = Some v) ->
  (forall n v, encrypt_value n v <> []) ->
  encode_query text w = Returns (out, maps) w' ->
  exists w'', decode_text out w' = Returns text w''.
Proof.
  intros Hfree Hlock Hdet Hin Hap Hety Hcoll Hdec Hnonempty Hrun.
  assert (Hno : ~ has_token text).
  { intros (a & t & b & Heq & Ht). apply fullmatch_token_shape in Ht.
    by rewrite (Hfree a t b Heq) in Ht. }
  set (l := sort_desc start spans).
  assert (Hperm : forall x, x ∈ l <-> x ∈ spans)
    by (intros x; unfold l; by rewrite sort_desc_perm).
  pose proof (chain_sort_desc text spans Hin Hap) as Hch. fold l in Hch.
  destruct (proj1 (offset_safety text w spans w1 Hdet Hin Hap) out maps w' Hrun)
    as [Hout _].
  fold l in Hout.
  unfold encode_query in Hrun. rewrite (bind_Returns _ _ _ _ _ Hdet) in Hrun.
  fold l in Hrun.
  apply detect_pii_Returns in Hdet as (_ & _ & Hlock1 & _).
  destruct (encode_fold_world text l _ _ _ _ Hrun)
    as (Hlock' & Hhash & _ & Hstore).
  assert (Hlockd : _TOKEN_FILE_LOCK w' = false) by congruence.
  set (segs := segs_of text 0 (rev l) (py_len text)).
  assert (Hcur : out = cur segs)
    by (subst segs; by rewrite cur_segs_of).
  assert (Horig : orig segs = text).
  { subst segs. rewrite orig_segs_of_rev by (done || lia).
    apply slice_full. }
  assert (Hok : Forall (seg_ok w') segs).
  { apply segs_of_ok. intros x Hx.
    apply list_elem_of_In, in_rev, list_elem_of_In in Hx.
    pose proof (Hhash x Hx) as Hh. split.
    - rewrite Forall_forall in Hety.
      destruct (PII_ENTITIES_upper (entity_type x)) as [Hne Hty].
      { apply Hety. by apply Hperm. }
      eapply get_token_hash_shape; eauto.
    - destruct (Hstore x Hx) as (y & n & Hy & Hty & Hsto).
      rewrite <- (Hcoll y x); [| by apply Hperm | by apply Hperm | done].
      eapply resolve_cached; eauto. }
  pose proof (seg_ok_shape _ _ Hok) as Hshape.
  destruct (decode_text_spec out w' Hlockd) as (w'' & Hdecode & _ & _).
  exists w''. rewrite Hdecode. f_equal.
  rewrite Hcur, findall_segs by (done || by rewrite Horig).
  transitivity (orig segs); [|exact Horig]. apply substitute_segs; auto.
  - by rewrite Horig.
  - intros t Ht. by apply elem_of_set_iter.
  - intros t Ht. apply (proj1 (elem_of_set_iter _ _)) in Ht.
    exact (tokens_of_shape segs t Hshape Ht).
Qed.

End Privacy.

(** * The theorems at concrete inputs *)

Lemma token_format_witness :
  In (str_of "PERSON") PII_ENTITIES /\
  get_token_hash (str_of "John Smith") (str_of "PERSON") = Some tok_john /\
  fullmatch token_pattern tok_john = true.
Proof.
  assert (H1 : In (str_of "PERSON") PII_ENTITIES) by (left; reflexivity).
  assert (H2 : get_token_hash (str_of "John Smith") (str_of "PERSON")
               = Some tok_john) by (vm_compute; reflexivity).
  split; [exact H1|]. split; [exact H2|].
  exact (proj1 (token_format _ _ _ H1 H2)).
Defined.

Lemma tier_precedence_witness :
  lookup_token tok_john hit_world = Returns (Some ct_john) hit_world /\
  exists w',
    lookup_token tok_john file_world = Returns (Some ct_other) w' /\
    lookup_token tok_john w' = Returns (Some ct_other) w'.
Proof.
  split.
  - destruct (tier_precedence tok_john hit_world eq_refl) as [H _].
    apply (H ct_john); [vm_compute; reflexivity | discriminate].
  - destruct (tier_precedence tok_john file_world eq_refl) as [_ H].
    destruct (H ct_other) as (w' & H1 & _ & _ & H2).
    + vm_compute; reflexivity.
    + discriminate.
    + right. split; vm_compute; reflexivity.
    + exists w'. split; assumption.
Defined.

Lemma decode_text_token_free_witness :
  decode_text demo_decrypt demo_hash (str_of "Show all orders") hit_world
  = Returns (str_of "Show all orders") hit_world.
Proof.
  apply decode_text_token_free. apply no_bracket_no_token.
  rewrite list_elem_of_In. vm_compute. intuition discriminate.
Defined.

Lemma fail_open_decode_witness :
  exists w',
    decode_text demo_decrypt demo_hash (str_of "Hi [PERSON_EF61A579]!")
      fresh_world
    = Returns (str_of "Hi [PERSON_EF61A579]!") w'.
Proof.
  destruct (fail_open_decode demo_decrypt demo_hash
              (str_of "Hi [PERSON_EF61A579]!") fresh_world eq_refl)
    as (out & w' & Hrun & Hkeep & _).
  exists w'. rewrite Hrun. f_equal.
  rewrite (Hkeep (str_of "Hi ") tok_john (str_of "!")).
  - vm_compute. reflexivity.
  - reflexivity.
  - vm_compute. reflexivity.
  - left. repeat split.
    + intros db Hdb. discriminate.
    + intros d Hd. discriminate.
Defined.

Lemma store_routing_witness :
  exists w',
    store_mapping tok_john ct_john redis_world = Returns tt w' /\
    _token_store w' !! tok_john = Some ct_john /\
    token_file w' = None /\
    redis_server w'
      = Some (<[pii_key tok_john := (ct_john, _PII_TTL_SECONDS)]> ∅).
Proof.
  destruct (store_routing tok_john ct_john redis_world eq_refl) as [H _].
  destruct (H eq_refl) as (w' & l & Hrun & Hts & Htf & _ & _ & Hc & _).
  exists w'. repeat split; try assumption.
  destruct Hc as [_ Hdb]; [discriminate|]. by apply Hdb.
Defined.

(** Redis reachable at start-up and unreachable now: the mapping reaches
    neither Redis nor the file. *)
Lemma store_routing_counterexample :
  ~ routes_by_reachability tok_john ct_john redis_down_world.
Proof.
  intros (w' & Hrun & _ & Hfile & _).
  vm_compute in Hrun. injection Hrun as <-.
  vm_compute in Hfile. discriminate.
Qed.

(** With no Redis at start-up, the first mapping creates the token file
    and the second one never comes back. *)
Example second_persist_blocks :
  exists w1,
    store_mapping tok_john ct_john fresh_world = Returns tt w1 /\
    token_file w1 = Some (FileDict {[ tok_john := ct_john ]}) /\
    store_mapping tok_john ct_john w1 = Blocks.
Proof.
  eexists. split; [vm_compute; reflexivity|]. split; reflexivity.
Qed.

Lemma offset_safety_witness :
  exists spans w1,
    detect_pii ascii_db (str_of "Mail john.smith@example.com or Jane Doe")
      redis_world = Returns spans w1 /\
    exists w',
      encode_query demo_encrypt ascii_db
        (str_of "Mail john.smith@example.com or Jane Doe") redis_world
      = Returns
          (str_of "Mail [EMAIL_ADDRESS_8E621E3D] or [PERSON_01332C87]",
           List.map (mapping_of (str_of "Mail john.smith@example.com or Jane Doe"))
             (sort_desc start spans)) w'.
Proof.
  set (text := str_of "Mail john.smith@example.com or Jane Doe").
  destruct (proj1 (detector_total_fallback demo_encrypt demo_decrypt ascii_db
                     demo_hash text redis_world)) as (spans & w1 & Hdet).
  exists spans, w1. split; [exact Hdet|].
  assert (Hspans : spans =
            [mk_span (str_of "EMAIL_ADDRESS") 5 27 (1 # 2);
             mk_span (str_of "PERSON") 31 39 (1 # 2)])
    by (vm_compute in Hdet; injection Hdet as <- _; reflexivity).
  destruct (offset_safety demo_encrypt ascii_db text redis_world spans w1 Hdet)
    as [Hout Hret].
  - subst spans. repeat constructor; vm_compute; congruence.
  - subst spans. simpl.
    split; [|split; constructor].
    constructor; [|constructor]. left. vm_compute. congruence.
  - destruct Hret as (out & maps & w' & Hrun); [reflexivity | |].
    + apply scalar_check. vm_compute. reflexivity.
    + exists w'. rewrite Hrun.
      destruct (Hout out maps w' Hrun) as [Ho ->].
      assert (Hs : out =
                str_of "Mail [EMAIL_ADDRESS_8E621E3D] or [PERSON_01332C87]")
        by (rewrite Ho, Hspans; vm_compute; reflexivity).
      rewrite Hs. reflexivity.
Defined.

(** The pattern-based detector reports the twelve digits of an Aadhaar
    number twice, as a phone number and as an Aadhaar number; the second
    substitution then cuts into the first token. *)
Lemma offset_safety_counterexample :
  exists spans w1 out maps w',
    detect_pii ascii_db aadhaar_text redis_world = Returns spans w1 /\
    List.map (fun sp => (entity_type sp, start sp, end_ sp)) spans
      = [(str_of "PHONE_NUMBER", 0, 14); (str_of "IN_AADHAAR", 0, 14)] /\
    encode_query demo_encrypt ascii_db aadhaar_text redis_world
      = Returns (out, maps) w' /\
    out = str_of "[IN_AADHAAR_48D49A5F]48D49A5F]" /\
    out <> splice aadhaar_text (rev (sort_desc start spans)).
Proof.
  do 5 eexists. split; [vm_compute; reflexivity|].
  split; [vm_compute; reflexivity|].
  split; [vm_compute; reflexivity|].
  split; [vm_compute; reflexivity|].
  vm_compute. discriminate.
Qed.

Lemma round_trip_witness :
  exists out maps w' w'',
    encode_query demo_encrypt ascii_db mail_text redis_world
      = Returns (out, maps) w' /\
    out = str_of "Mail [EMAIL_ADDRESS_8E621E3D] or [PERSON_01332C87]" /\
    decode_text demo_decrypt demo_hash out w' = Returns mail_text w''.
Proof.
  assert (Hdet : exists w1,
            detect_pii ascii_db mail_text redis_world
            = Returns [mk_span (str_of "EMAIL_ADDRESS") 5 27 (1 # 2);
                       mk_span (str_of "PERSON") 31 39 (1 # 2)] w1)
    by (eexists; vm_compute; reflexivity).
  destruct Hdet as [w1 Hdet].
  assert (Hrun : exists maps w',
            encode_query demo_encrypt ascii_db mail_text redis_world
            = Returns
                (str_of "Mail [EMAIL_ADDRESS_8E621E3D] or [PERSON_01332C87]",
                 maps) w')
    by (do 2 eexists; vm_compute; reflexivity).
  destruct Hrun as (maps & w' & Hrun).
  destruct (round_trip demo_encrypt demo_decrypt ascii_db demo_hash mail_text
              redis_world
              [mk_span (str_of "EMAIL_ADDRESS") 5 27 (1 # 2);
               mk_span (str_of "PERSON") 31 39 (1 # 2)] w1
              (str_of "Mail [EMAIL_ADDRESS_8E621E3D] or [PERSON_01332C87]")
              maps w') as [w'' Hdecode].
  - apply no_bracket_no_token. rewrite list_elem_of_In. vm_compute.
    intuition discriminate.
  - reflexivity.
  - exact Hdet.
  - repeat constructor; vm_compute; congruence.
  - simpl. split; [|split; constructor].
    constructor; [|constructor]. left. vm_compute. congruence.
  - repeat constructor; vm_compute; tauto.
  - intros x y Hx Hy.
    apply list_elem_of_In in Hx, Hy. simpl in Hx, Hy.
    destruct Hx as [<-|[<-|[]]]; destruct Hy as [<-|[<-|[]]];
      try reflexivity; vm_compute; discriminate.
  - reflexivity.
  - discriminate.
  - exact Hrun.
  - exists (str_of "Mail [EMAIL_ADDRESS_8E621E3D] or [PERSON_01332C87]"),
      maps, w', w''.
    split; [exact Hrun|]. split; [reflexivity | exact Hdecode].
Defined.

(** The twelve digits of an Aadhaar number, detected twice by the
    pattern-based detector: both mappings are stored, and the decoded text
    is not the original. *)
Lemma round_trip_counterexample :
  (forall a t b, aadhaar_text = a ++ t ++ b ->
     fullmatch token_pattern t = false) /\
  exists out maps w' decoded w'',
    encode_query demo_encrypt ascii_db aadhaar_text redis_world
      = Returns (out, maps) w' /\
    Forall (fun m => is_Some (_token_store w' !! m_token m)) maps /\
    decode_text demo_decrypt demo_hash out w' = Returns decoded w'' /\
    decoded = str_of "1234 5678 901248D49A5F]" /\
    decoded <> aadhaar_text.
Proof.
  split.
  - apply no_bracket_no_token. rewrite list_elem_of_In. vm_compute.
    intuition discriminate.
  - do 5 eexists. split; [vm_compute; reflexivity|].
    split; [repeat constructor; vm_compute; eauto|].
    split; [vm_compute; reflexivity|].
    split; [reflexivity | discriminate].
Qed.

(** Two different values whose SHA-256 digests start with the same eight
    hexadecimal characters get the same token; the later mapping replaces
    the earlier one, and both occurrences decode to one value. *)
Example round_trip_collision :
  get_token_hash (str_of "69235") (str_of "PERSON")
    = get_token_hash (str_of "95303") (str_of "PERSON") /\
  exists out maps w' decoded w'',
    encode_query demo_encrypt ascii_db (str_of "69235 95303") model_world
      = Returns (out, maps) w' /\
    out = str_of "[PERSON_C11EB5E6] [PERSON_C11EB5E6]" /\
    decode_text demo_decrypt demo_hash out w' = Returns decoded w'' /\
    decoded = str_of "69235 69235".
Proof.
  split; [vm_compute; reflexivity|].
  do 5 eexists. split; [vm_compute; reflexivity|].
  split; [reflexivity|].
  split; [vm_compute; reflexivity | reflexivity].
Qed.

(** * Further properties of the code *)

(** ** app/services/redis.py *)

Lemma pii_key_inj (a b : str) : pii_key a = pii_key b -> a = b.
Proof. unfold pii_key. intros H. exact (app_inv_head _ _ _ H). Qed.

Lemma token_key_inj (a b : str) : token_key a = token_key b -> a = b.
Proof. unfold token_key. intros H. exact (app_inv_head _ _ _ H). Qed.

Lemma token_key_not_pii_key (a b : str) : token_key a <> pii_key b.
Proof. unfold token_key, pii_key. cbn. intros H. discriminate H. Qed.

(** What a write through the client does, when it reports success. *)
Lemma setex_reported (key value : str) (ttl : Z) (w w' : World) :
  client (redis_client w) <> None ->
  try_except (client_setex key ttl value ;;; ret true) (fun _ => ret false) w
    = Returns true w' ->
  exists db,
    redis_server w = Some db /\
    redis_server w' = Some (<[key := (value, ttl)]> db) /\
    redis_client w' = redis_client w.
Proof.
  intros _. unfold try_except, client_setex, bind, modify, gets, ret, raise.
  cbn. destruct (redis_server w) as [db|] eqn:E; cbn; [|discriminate].
  intros H. injection H as <-. exists db. auto.
Qed.

Lemma set_pii_mapping_true (token enc : str) (ttl : Z) (w w' : World) :
  set_pii_mapping token enc ttl w = Returns true w' ->
  exists db,
    client (redis_client w) <> None /\
    redis_server w = Some db /\
    redis_server w' = Some (<[pii_key token := (enc, ttl)]> db) /\
    redis_client w' = redis_client w.
Proof.
  unfold set_pii_mapping. rewrite bind_gets.
  destruct (client (redis_client w)) as [h|] eqn:Ec; [|discriminate].
  intros H. apply setex_reported in H; [|congruence].
  destruct H as (db & ? & ? & ?). exists db. repeat split; auto.
Qed.

Lemma set_token_true (user_id token : str) (ttl : Z) (w w' : World) :
  set_token user_id token ttl w = Returns true w' ->
  exists db,
    client (redis_client w) <> None /\
    redis_server w = Some db /\
    redis_server w' = Some (<[token_key token := (user_id, ttl)]> db) /\
    redis_client w' = redis_client w.
Proof.
  unfold set_token. rewrite bind_gets.
  destruct (client (redis_client w)) as [h|] eqn:Ec; [|discriminate].
  intros H. apply setex_reported in H; [|congruence].
  destruct H as (db & ? & ? & ?). exists db. repeat split; auto.
Qed.

Lemma get_token_user_spec (token : str) (w : World) :
  get_token_user token w =
  Returns
    match client (redis_client w) with
    | Some _ =>
        match redis_server w with
        | Some db => fst <$> db !! token_key token
        | None => None
        end
    | None => None
    end
    match client (redis_client w) with
    | Some _ => add_log [EvRedisGet (token_key token)] w
    | None => w
    end.
Proof.
  unfold get_token_user. rewrite bind_gets.
  destruct (client (redis_client w)); [|reflexivity].
  unfold try_except, client_get, bind, modify, gets, ret, raise. cbn.
  destruct (redis_server w); reflexivity.
Qed.

(** X1. A mapping that [set_pii_mapping] reports as stored is what
    [get_pii_mapping] returns for that token right afterwards, whatever the
    expiry time asked for; the answers for all other tokens are what they
    were before the write. *)
Theorem pii_mapping_set_get (token enc : str) (ttl : Z) (w w' : World) :
  set_pii_mapping token enc ttl w = Returns true w' ->
  result_of (get_pii_mapping token w') = Some (Some enc) /\
  forall other, other <> token ->
    result_of (get_pii_mapping other w') = result_of (get_pii_mapping other w).
Proof.
  intros H. apply set_pii_mapping_true in H.
  destruct H as (db & Hc & Hs & Hs' & Hrc).
  split.
  - rewrite get_pii_mapping_spec, Hrc, Hs'. cbn.
    destruct (client (redis_client w)); [|congruence].
    now rewrite lookup_insert_eq.
  - intros other Hne. rewrite !get_pii_mapping_spec, Hrc, Hs, Hs'. cbn.
    destruct (client (redis_client w)); [|reflexivity].
    rewrite lookup_insert_ne; [reflexivity|].
    intros E. apply pii_key_inj in E. congruence.
Qed.

Lemma pii_mapping_set_get_witness :
  exists w',
    set_pii_mapping tok_john ct_john 60 redis_world = Returns true w' /\
    result_of (get_pii_mapping tok_john w') = Some (Some ct_john).
Proof.
  eexists. split; [reflexivity|].
  eapply (pii_mapping_set_get tok_john ct_john 60 redis_world). reflexivity.
Defined.

(** X2. Session entries and PII mappings live under different key
    prefixes and never disturb each other: storing a session token changes
    the answer of [get_pii_mapping] for no token, and storing a PII mapping
    changes the answer of [get_token_user] for no session token, even when
    the two tokens are the same string. *)
Theorem session_and_pii_keys_apart (a b v : str) (ttl : Z) (w w' : World) :
  (set_token v a ttl w = Returns true w' ->
   result_of (get_pii_mapping b w') = result_of (get_pii_mapping b w)) /\
  (set_pii_mapping a v ttl w = Returns true w' ->
   result_of (get_token_user b w') = result_of (get_token_user b w)).
Proof.
  split; intros H.
  - apply set_token_true in H. destruct H as (db & Hc & Hs & Hs' & Hrc).
    rewrite !get_pii_mapping_spec, Hrc, Hs, Hs'. cbn.
    destruct (client (redis_client w)); [|reflexivity].
    rewrite lookup_insert_ne; [reflexivity|]. apply token_key_not_pii_key.
  - apply set_pii_mapping_true in H. destruct H as (db & Hc & Hs & Hs' & Hrc).
    rewrite !get_token_user_spec, Hrc, Hs, Hs'. cbn.
    destruct (client (redis_client w)); [|reflexivity].
    rewrite lookup_insert_ne; [reflexivity|].
    intros E. symmetry in E. revert E. apply token_key_not_pii_key.
Qed.

Lemma session_and_pii_keys_apart_witness :
  exists w',
    set_token (str_of "alice") tok_john 60 redis_world = Returns true w' /\
    result_of (get_pii_mapping tok_john w') =
    result_of (get_pii_mapping tok_john redis_world).
Proof.
  eexists. split; [reflexivity|].
  apply (proj1 (session_and_pii_keys_apart tok_john tok_john (str_of "alice")
                  60 redis_world _)).
  reflexivity.
Defined.

(** X3. [delete_token] deletes nothing. It returns [False] without a
    client and [None] with one, and leaves the state as it found it; a
    session stored by [set_token] is still answered by [get_token_user]
    after [delete_token] has been called for it. *)
Theorem delete_token_keeps_session (user_id token : str) (ttl : Z)
    (w w1 : World) :
  delete_token token w =
    Returns (match client (redis_client w) with
             | None => Some false
             | Some _ => None
             end) w /\
  (set_token user_id token ttl w = Returns true w1 ->
   exists w2,
     (delete_token token ;;; get_token_user token) w1 =
       Returns (Some user_id) w2 /\
     redis_server w2 = redis_server w1).
Proof.
  assert (D : forall w0, delete_token token w0 =
    Returns (match client (redis_client w0) with
             | None => Some false
             | Some _ => None
             end) w0).
  { intros w0. unfold delete_token. rewrite bind_gets.
    destruct (client (redis_client w0)); reflexivity. }
  split; [apply D|].
  intros H. apply set_token_true in H.
  destruct H as (db & Hc & Hs & Hs' & Hrc).
  exists (add_log [EvRedisGet (token_key token)] w1).
  split; [|reflexivity].
  unfold bind. rewrite D, get_token_user_spec, Hrc, Hs'.
  destruct (client (redis_client w)); [|congruence].
  cbn. now rewrite lookup_insert_eq.
Qed.

Lemma delete_token_keeps_session_witness :
  exists w1 w2,
    set_token (str_of "alice") (str_of "t0") 60 redis_world =
      Returns true w1 /\
    (delete_token (str_of "t0") ;;; get_token_user (str_of "t0")) w1 =
      Returns (Some (str_of "alice")) w2.
Proof.
  destruct (proj2 (delete_token_keeps_session (str_of "alice") (str_of "t0")
                     60 redis_world _) eq_refl) as (w2 & H & _).
  eexists. exists w2. split; [reflexivity | exact H].
Defined.

(** ** encoder.py: the token file *)

(** X4. [get_persisted_token] is fail-safe on reading: when the token
    file is missing, holds something that is not a JSON object, or cannot be
    parsed, it answers [None] for every token instead of raising; the file
    is left as it was and the lock is free again afterwards, also after the
    parse error raised inside the [with] block. *)
Theorem get_persisted_token_fail_safe (token : str) (w : World) :
  _TOKEN_FILE_LOCK w = false ->
  token_file w = None \/ token_file w = Some FileNotDict \/
    token_file w = Some FileCorrupt ->
  exists w',
    get_persisted_token token w = Returns None w' /\
    token_file w' = token_file w /\
    _TOKEN_FILE_LOCK w' = false /\
    _token_store w' = _token_store w.
Proof.
  intros Hl Hf. exists (add_log (load_log w) w).
  rewrite (get_persisted_token_spec token w Hl).
  split.
  { unfold file_value. destruct Hf as [E | [E | E]]; rewrite E; reflexivity. }
  split; [reflexivity|]. split; [exact Hl | reflexivity].
Qed.

Lemma get_persisted_token_fail_safe_witness :
  exists w',
    get_persisted_token tok_john
      (set_token_file (Some FileCorrupt) fresh_world) = Returns None w' /\
    _TOKEN_FILE_LOCK w' = false.
Proof.
  destruct (get_persisted_token_fail_safe tok_john
              (set_token_file (Some FileCorrupt) fresh_world) eq_refl
              (or_intror (or_intror eq_refl))) as (w' & H & _ & Hl & _).
  exists w'. split; [exact H | exact Hl].
Defined.

(** The first write: no file yet. *)
Lemma persist_token_fresh (token enc : str) (w : World) :
  _TOKEN_FILE_LOCK w = false ->
  token_file w = None ->
  _persist_token token enc w =
  Returns tt
    (set_token_file
       (if file_writable w then Some (FileDict (<[token := enc]> ∅))
        else None)
       (add_log [EvFileExists; EvFileWrite] w)).
Proof.
  destruct w as [an ts rc lk ea rs tf fw en io]. cbn. intros -> ->.
  destruct fw; cbv -[insert app empty]; rewrite <- app_assoc; reflexivity.
Qed.

(** X5. Written once, read back: with no token file yet and a writable
    directory, [_persist_token] creates the file, and [get_persisted_token]
    then returns the stored value for that token and [None] for every other
    one. When the file cannot be written the mapping is dropped without an
    error and a later read finds nothing. *)
Theorem persist_then_get (token enc : str) (w : World) :
  _TOKEN_FILE_LOCK w = false ->
  token_file w = None ->
  exists w1,
    _persist_token token enc w = Returns tt w1 /\
    _TOKEN_FILE_LOCK w1 = false /\
    _token_store w1 = _token_store w /\
    (file_writable w = true ->
     result_of (get_persisted_token token w1) = Some (Some enc) /\
     forall other, other <> token ->
       result_of (get_persisted_token other w1) = Some None) /\
    (file_writable w = false ->
     token_file w1 = None /\
     forall t, result_of (get_persisted_token t w1) = Some None).
Proof.
  intros Hl Hf. eexists. split; [apply persist_token_fresh; assumption|].
  split; [exact Hl|]. split; [reflexivity|].
  split; intros Hw; rewrite Hw.
  - split; [|intros other Hne];
      (rewrite get_persisted_token_spec by exact Hl); cbn;
      unfold file_value; cbn.
    + now rewrite lookup_insert_eq.
    + rewrite lookup_insert_ne by congruence. reflexivity.
  - split; [reflexivity|]. intros t.
    rewrite get_persisted_token_spec by exact Hl. reflexivity.
Qed.

Lemma persist_then_get_witness :
  exists w1,
    _persist_token tok_john ct_john fresh_world = Returns tt w1 /\
    result_of (get_persisted_token tok_john w1) = Some (Some ct_john).
Proof.
  destruct (persist_then_get tok_john ct_john fresh_world eq_refl eq_refl)
    as (w1 & H & _ & _ & Hw & _).
  exists w1. split; [exact H | exact (proj1 (Hw eq_refl))].
Defined.

(** ** encoder.py: the file tier under [encode_query] *)

Lemma encode_span_blocks (encrypt_value : nat -> str -> str) (text : str)
    (acc : str * list Mapping) (x : Span) (w : World) :
  Forall scalar_value text ->
  connected (redis_client w) = false ->
  _TOKEN_FILE_LOCK w = false ->
  token_file w <> None ->
  encode_span encrypt_value text acc x w = Blocks.
Proof.
  intros Hsc Hc Hl Hf. destruct acc as [enc maps].
  unfold encode_span, token_hash.
  destruct (get_token_hash_total (slice text (start x) (end_ x))
              (entity_type x) (slice_scalar text _ _ Hsc)) as [tok ->].
  rewrite bind_ret. unfold encrypt.
  rewrite bind_assoc, bind_gets, bind_assoc, bind_modify, bind_ret.
  apply bind_Blocks. apply store_mapping_deadlock; assumption.
Qed.

Lemma encode_span_creates_file (encrypt_value : nat -> str -> str)
    (text : str) (acc : str * list Mapping) (x : Span) (w : World) :
  Forall scalar_value text ->
  connected (redis_client w) = false ->
  _TOKEN_FILE_LOCK w = false ->
  token_file w = None ->
  file_writable w = true ->
  exists acc' w',
    encode_span encrypt_value text acc x w = Returns acc' w' /\
    connected (redis_client w') = false /\
    _TOKEN_FILE_LOCK w' = false /\
    token_file w' <> None.
Proof.
  intros Hsc Hc Hl Hf Hw. destruct acc as [enc maps].
  unfold encode_span, token_hash.
  destruct (get_token_hash_total (slice text (start x) (end_ x))
              (entity_type x) (slice_scalar text _ _ Hsc)) as [tok ->].
  rewrite bind_ret. unfold encrypt.
  rewrite bind_assoc, bind_gets, bind_assoc, bind_modify, bind_ret.
  set (w0 := set_entropy (S (entropy w)) w).
  set (enc0 := encrypt_value (entropy w) (slice text (start x) (end_ x))).
  destruct (store_mapping_file tok enc0 w0 Hc Hl Hf)
    as (w' & Hrun & _ & _ & Hl' & _ & Hf').
  destruct (store_mapping_Returns _ _ _ _ Hrun) as (_ & _ & Hrc & _).
  eexists. exists w'. split.
  - erewrite bind_Returns by exact Hrun. reflexivity.
  - split; [rewrite Hrc; exact Hc|]. split; [exact Hl'|].
    rewrite Hf'. change (file_writable w0) with (file_writable w).
    rewrite Hw. discriminate.
Qed.

(** X6. Without Redis at start-up [encode_query] cannot get past the
    token file: if the file already exists, the first detected span makes
    [_persist_token] take the lock and then wait for it again inside
    [_load_token_file], so the call never returns; if the file does not
    exist yet and can be written, the first span creates it and the second
    span is the one that never returns. *)
Theorem encode_query_blocks_in_file_mode (encrypt_value : nat -> str -> str)
    (udb : UnicodeDB) (text : str) (w : World) (spans : list Span)
    (w1 : World) :
  connected (redis_client w) = false ->
  _TOKEN_FILE_LOCK w = false ->
  Forall scalar_value text ->
  detect_pii udb text w = Returns spans w1 ->
  (token_file w <> None /\ (1 <= length spans)%nat) \/
  (token_file w = None /\ file_writable w = true /\
   (2 <= length spans)%nat) ->
  encode_query encrypt_value udb text w = Blocks.
Proof.
  intros Hc Hl Hsc Hdet Hcase.
  destruct (detect_pii_Returns _ _ _ _ _ Hdet) as (_ & Hrc & Hl1 & _ & Hf1).
  assert (Hw1 : file_writable w1 = file_writable w).
  { rewrite detect_pii_spec in Hdet.
    destruct (_analyzer w); [destruct (engine_available w) as [e|]|..];
      try destruct (analyze _ _); injection Hdet as _ <-; reflexivity. }
  unfold encode_query. erewrite bind_Returns by exact Hdet. cbv zeta.
  assert (Hlen : length (sort_desc start spans) = length spans)
    by (apply Permutation_length, sort_desc_perm).
  destruct (sort_desc start spans) as [|x l]; simpl in Hlen.
  { destruct Hcase as [[_ H] | (_ & _ & H)]; lia. }
  cbn [for_fold].
  destruct Hcase as [[Hf _] | (Hf & Hw & Hn)].
  - apply bind_Blocks, encode_span_blocks; congruence.
  - destruct (encode_span_creates_file encrypt_value text (text, []) x w1)
      as (acc' & w' & Hrun & Hc' & Hl' & Hf'); try congruence.
    erewrite bind_Returns by exact Hrun.
    destruct l as [|y l]; [simpl in Hlen; lia|].
    cbn [for_fold]. apply bind_Blocks, encode_span_blocks; assumption.
Qed.

Lemma encode_query_blocks_in_file_mode_witness :
  encode_query demo_encrypt ascii_db mail_text file_world = Blocks /\
  encode_query demo_encrypt ascii_db mail_text fresh_world = Blocks.
Proof.
  assert (Hsc : Forall scalar_value mail_text)
    by (apply scalar_check; vm_compute; reflexivity).
  split.
  - destruct (detect_pii ascii_db mail_text file_world) as [spans w1| |] eqn:E;
      [|vm_compute in E; discriminate E..].
    apply (encode_query_blocks_in_file_mode demo_encrypt ascii_db mail_text
             file_world spans w1 eq_refl eq_refl Hsc E).
    left. split; [discriminate|].
    vm_compute in E. injection E as <- _. simpl. lia.
  - destruct (detect_pii ascii_db mail_text fresh_world) as [spans w1| |] eqn:E;
      [|vm_compute in E; discriminate E..].
    apply (encode_query_blocks_in_file_mode demo_encrypt ascii_db mail_text
             fresh_world spans w1 eq_refl eq_refl Hsc E).
    right. split; [reflexivity|]. split; [reflexivity|].
    vm_compute in E. injection E as <- _. simpl. lia.
Defined.

(** ** encoder.py: the pattern-based detector *)

Lemma matches_length r p s p' s' :
  matches r p s p' s' -> (length s' <= length s)%nat.
Proof.
  intros H. destruct (matches_suffix _ _ _ _ _ H) as [t ->].
  rewrite length_app. lia.
Qed.

(** A pattern that cannot match the empty string consumes something. *)
Lemma matches_nonnull r p s p' s' :
  matches r p s p' s' -> nullable r = false -> (length s' < length s)%nat.
Proof.
  induction 1 as [ | | | r1 r2 p s p1 s1 p2 s2 H1 IH1 H2 IH2
                   | r1 r2 p s p' s' H1 IH1 | r1 r2 p s p' s' H1 IH1
                   | | | ]; cbn [nullable]; intros Hn; try discriminate.
  - simpl. lia.
  - simpl. lia.
  - apply matches_length in H1 as L1. apply matches_length in H2 as L2.
    apply andb_false_iff in Hn as [Hn | Hn]; [apply IH1 in Hn | apply IH2 in Hn];
      lia.
  - apply orb_false_iff in Hn as [Hn _]. auto.
  - apply orb_false_iff in Hn as [_ Hn]. auto.
Qed.

Lemma match_here_nonnull r p s rest :
  nullable r = false -> match_here r p s = Some rest ->
  (length rest < length s)%nat.
Proof.
  intros Hn H. unfold match_here in H.
  apply rmatch_sound in H as (p' & s' & Hm & [= ->]).
  eapply matches_nonnull; eauto.
Qed.

(** Where the matches of a scan lie: after the characters still to be
    passed, inside the text, one after the other. *)
Lemma finditer_from_bounds r : nullable r = false ->
  forall s prev pos skip,
    Forall (fun m : Z * Z => pos + Z.of_nat skip <= m.1 /\ m.1 < m.2 /\
                             m.2 <= pos + py_len s)
           (finditer_from r prev s pos skip).
Proof.
  intros Hn. induction s as [|c s IH]; intros prev pos skip.
  - simpl. destruct skip; [|constructor].
    destruct (match_here r prev []) as [rest|] eqn:E; [|constructor].
    apply match_here_nonnull in E; [simpl in E; lia | exact Hn].
  - cbn [finditer_from]. destruct skip as [|n].
    + destruct (match_here r prev (c :: s)) as [rest|] eqn:E.
      * apply match_here_nonnull in E as L; [|exact Hn].
        cbv zeta. constructor.
        { cbn [fst snd]. unfold py_len. lia. }
        eapply Forall_impl; [apply IH|]. cbn beta.
        intros m (H1 & H2 & H3). unfold py_len in *. cbn [length] in *. lia.
      * eapply Forall_impl; [apply IH|]. cbn beta.
        intros m (H1 & H2 & H3). unfold py_len in *. cbn [length] in *. lia.
    + eapply Forall_impl; [apply IH|]. cbn beta.
      intros m (H1 & H2 & H3). unfold py_len in *. cbn [length] in *. lia.
Qed.

Lemma finditer_from_sorted r : nullable r = false ->
  forall s prev pos skip,
    ForallOrdPairs (fun m m' : Z * Z => m.2 <= m'.1)
                   (finditer_from r prev s pos skip).
Proof.
  intros Hn. induction s as [|c s IH]; intros prev pos skip.
  - simpl. destruct skip; [|constructor].
    destruct (match_here r prev []); repeat constructor.
  - cbn [finditer_from]. destruct skip as [|n]; [|apply IH].
    destruct (match_here r prev (c :: s)) as [rest|] eqn:E; [|apply IH].
    apply match_here_nonnull in E as L; [|exact Hn].
    cbv zeta. constructor; [|apply IH].
    eapply Forall_impl;
      [apply (finditer_from_bounds r Hn s (Some c) (pos + 1))|].
    cbn beta. intros m (H1 & _). cbn [fst snd]. lia.
Qed.

Lemma patterns_nonnull udb p :
  In p (patterns udb) -> nullable p.2 = false /\ In p.1 FALLBACK_ENTITIES.
Proof.
  unfold patterns. cbn [In].
  intros [<- | [<- | [<- | [<- | [<- | []]]]]]; (split; [reflexivity|]);
    cbn; tauto.
Qed.

Lemma regex_span_inv udb text sp :
  In sp (_regex_detect_pii udb text) ->
  exists p m, In p (patterns udb) /\ In m (finditer p.2 text) /\
              sp = mk_span p.1 m.1 m.2 (1 # 2).
Proof.
  unfold _regex_detect_pii. intros H.
  apply in_flat_map in H as (p & Hp & H).
  apply in_map_iff in H as (m & <- & Hm). eauto.
Qed.

(** X7. Every span of the pattern-based detector is a non-empty range
    inside the text, carries score 0.5, and has one of the five entity
    types that have a pattern; [LOCATION], though listed in
    [PII_ENTITIES], is never reported by it. *)
Theorem regex_spans_well_formed (udb : UnicodeDB) (text : str) :
  Forall (fun sp =>
            in_text text sp /\
            score sp = (1 # 2)%Q /\
            In (entity_type sp) FALLBACK_ENTITIES /\
            In (entity_type sp) PII_ENTITIES /\
            entity_type sp <> str_of "LOCATION")
         (_regex_detect_pii udb text).
Proof.
  apply Forall_forall. intros sp Hsp. apply list_elem_of_In in Hsp.
  apply regex_span_inv in Hsp as (p & m & Hp & Hm & ->).
  destruct (patterns_nonnull udb p Hp) as [Hn Hty].
  pose proof (finditer_from_bounds p.2 Hn text None 0 0%nat) as Hb.
  rewrite List.Forall_forall in Hb. specialize (Hb m Hm).
  cbn [entity_type start end_ score]. unfold in_text. cbn [start end_].
  split; [lia|]. split; [reflexivity|]. split; [exact Hty|].
  unfold FALLBACK_ENTITIES in Hty. cbn [In] in Hty.
  destruct Hty as [<- | [<- | [<- | [<- | [<- | []]]]]];
    (split; [cbn; tauto | discriminate]).
Qed.

(** X8. Two spans of the same entity type reported by the pattern-based
    detector are the same span or do not overlap: each pattern's matches
    are taken left to right without overlap. *)
Theorem regex_spans_same_type_apart (udb : UnicodeDB) (text : str)
    (x y : Span) :
  In x (_regex_detect_pii udb text) ->
  In y (_regex_detect_pii udb text) ->
  entity_type x = entity_type y ->
  x = y \/ apart x y.
Proof.
  intros Hx Hy Hty.
  apply regex_span_inv in Hx as (p & m & Hp & Hm & ->).
  apply regex_span_inv in Hy as (p' & m' & Hp' & Hm' & ->).
  cbn [entity_type] in Hty.
  assert (p = p') as <-.
  { unfold patterns in Hp, Hp'. cbn [In] in Hp, Hp'.
    destruct Hp as [<- | [<- | [<- | [<- | [<- | []]]]]];
      destruct Hp' as [<- | [<- | [<- | [<- | [<- | []]]]]];
      first [reflexivity | discriminate Hty]. }
  destruct (patterns_nonnull udb p Hp) as [Hn _].
  destruct (ForallOrdPairs_In
              (finditer_from_sorted p.2 Hn text None 0 0%nat) m m' Hm Hm')
    as [-> | [H | H]]; unfold apart; cbn [start end_]; auto.
Qed.

Lemma regex_spans_same_type_apart_witness :
  let text := str_of "Ann Lee met Bob Ray" in
  let x := mk_span (str_of "PERSON") 0 7 (1 # 2) in
  let y := mk_span (str_of "PERSON") 12 19 (1 # 2) in
  In x (_regex_detect_pii ascii_db text) /\
  In y (_regex_detect_pii ascii_db text) /\
  (x = y \/ apart x y).
Proof.
  cbv zeta.
  assert (Hx : In (mk_span (str_of "PERSON") 0 7 (1 # 2))
                  (_regex_detect_pii ascii_db (str_of "Ann Lee met Bob Ray")))
    by (vm_compute; tauto).
  assert (Hy : In (mk_span (str_of "PERSON") 12 19 (1 # 2))
                  (_regex_detect_pii ascii_db (str_of "Ann Lee met Bob Ray")))
    by (vm_compute; tauto).
  split; [exact Hx|]. split; [exact Hy|].
  exact (regex_spans_same_type_apart ascii_db _ _ _ Hx Hy eq_refl).
Defined.

(** ** encoder.py: [get_token_hash] *)

Lemma utf8_char_defined (c : N) : is_Some (utf8_char c) <-> scalar_value c.
Proof.
  unfold utf8_char, scalar_value. cbv zeta.
  destruct (Z.ltb_spec (Z.of_N c) 128); [split; [lia | eauto]|].
  destruct (Z.ltb_spec (Z.of_N c) 2048); [split; [lia | eauto]|].
  destruct (Z.leb_spec 55296 (Z.of_N c)); destruct (Z.leb_spec (Z.of_N c) 57343);
    cbn [andb].
  - split; [intros [? [=]] | lia].
  - destruct (Z.ltb_spec (Z.of_N c) 65536); [split; [lia | eauto]|].
    destruct (Z.leb_spec (Z.of_N c) 1114111); [split; [lia | eauto]|].
    split; [intros [? [=]] | lia].
  - destruct (Z.ltb_spec (Z.of_N c) 65536); [split; [lia | eauto]|]. lia.
  - lia.
Qed.

Lemma utf8_encode_defined (s : str) :
  is_Some (utf8_encode s) <-> Forall scalar_value s.
Proof.
  induction s as [|c s IH]; cbn [utf8_encode].
  - split; [constructor | eauto].
  - rewrite Forall_cons, <- IH, <- utf8_char_defined, !is_Some_alt.
    destruct (utf8_char c); destruct (utf8_encode s); tauto.
Qed.

(** X9. [get_token_hash] produces a token exactly for the values whose
    code points can all be encoded as UTF-8, whatever the entity type; a
    value with a lone surrogate makes the call raise [UnicodeEncodeError]
    and leaves the state untouched. *)
Theorem get_token_hash_defined_iff (value ety : str) :
  (is_Some (get_token_hash value ety) <-> Forall scalar_value value) /\
  (forall w,
     ~ Forall scalar_value value ->
     token_hash value ety w = Raises UnicodeEncodeError w).
Proof.
  assert (E : is_Some (get_token_hash value ety)
              <-> Forall scalar_value value).
  { rewrite <- utf8_encode_defined. unfold get_token_hash.
    destruct (utf8_encode value); split; eauto; intros [? [=]]. }
  split; [exact E|].
  intros w Hn. unfold token_hash.
  destruct (get_token_hash value ety) eqn:H; [|reflexivity].
  exfalso. apply Hn, E. eauto.
Qed.

Lemma token_parts (e1 e2 h1 h2 : str) :
  length h1 = length h2 ->
  str_of "[" ++ e1 ++ str_of "_" ++ h1 ++ str_of "]" =
  str_of "[" ++ e2 ++ str_of "_" ++ h2 ++ str_of "]" ->
  e1 = e2 /\ h1 = h2.
Proof.
  intros Hl H. apply app_inv_head in H.
  apply app_inj_2 in H as [-> H].
  - split; [reflexivity|]. apply app_inv_head in H.
    now apply app_inv_tail in H.
  - rewrite !length_app, Hl. reflexivity.
Qed.

(** X10. Two tokens are the same string exactly when they were made for
    the same entity type and the first eight hexadecimal characters of the
    two digests agree. The entity type can therefore always be read back
    from a token, while the value is told apart by 32 bits of its digest
    only. A token is eleven characters longer than its entity type. *)
Theorem token_equality (v1 v2 e1 e2 t1 t2 : str) (b1 b2 : list Z) :
  utf8_encode v1 = Some b1 ->
  utf8_encode v2 = Some b2 ->
  get_token_hash v1 e1 = Some t1 ->
  get_token_hash v2 e2 = Some t2 ->
  (t1 = t2 <->
   e1 = e2 /\
   upper (take 8 (SHA256.hexdigest b1))
   = upper (take 8 (SHA256.hexdigest b2))) /\
  length t1 = (length e1 + 11)%nat.
Proof.
  intros B1 B2 H1 H2. unfold get_token_hash in H1, H2.
  rewrite B1 in H1. rewrite B2 in H2. cbv zeta in H1, H2.
  destruct (short_hash_hex b1) as [L1 _]. destruct (short_hash_hex b2) as [L2 _].
  cbv zeta in L1, L2.
  set (h1 := upper (take 8 (SHA256.hexdigest b1))) in *.
  set (h2 := upper (take 8 (SHA256.hexdigest b2))) in *.
  assert (T1 : t1 = str_of "[" ++ e1 ++ str_of "_" ++ h1 ++ str_of "]")
    by congruence.
  assert (T2 : t2 = str_of "[" ++ e2 ++ str_of "_" ++ h2 ++ str_of "]")
    by congruence.
  clear H1 H2. subst t1 t2. split.
  - split.
    + intros H. apply token_parts in H; [exact H | congruence].
    + intros [-> ->]. reflexivity.
  - rewrite !length_app, L1. cbn. lia.
Qed.

Lemma token_equality_witness :
  get_token_hash (str_of "69235") (str_of "PERSON") =
  get_token_hash (str_of "95303") (str_of "PERSON") /\
  get_token_hash (str_of "69235") (str_of "PERSON") <>
  get_token_hash (str_of "69235") (str_of "LOCATION").
Proof.
  assert (B1 : utf8_encode (str_of "69235") = Some [54; 57; 50; 51; 53])
    by (vm_compute; reflexivity).
  assert (B2 : utf8_encode (str_of "95303") = Some [57; 53; 51; 48; 51])
    by (vm_compute; reflexivity).
  assert (H1 : exists t, get_token_hash (str_of "69235") (str_of "PERSON")
                         = Some t)
    by (unfold get_token_hash; rewrite B1; eexists; reflexivity).
  assert (H2 : exists t, get_token_hash (str_of "95303") (str_of "PERSON")
                         = Some t)
    by (unfold get_token_hash; rewrite B2; eexists; reflexivity).
  assert (H3 : exists t, get_token_hash (str_of "69235") (str_of "LOCATION")
                         = Some t)
    by (unfold get_token_hash; rewrite B1; eexists; reflexivity).
  destruct H1 as [t1 H1]. destruct H2 as [t2 H2]. destruct H3 as [t3 H3].
  assert (S : upper (take 8 (SHA256.hexdigest [54; 57; 50; 51; 53]))
              = upper (take 8 (SHA256.hexdigest [57; 53; 51; 48; 51])))
    by (vm_compute; reflexivity).
  destruct (token_equality _ _ _ _ t1 t2 _ _ B1 B2 H1 H2) as [E12 _].
  destruct (token_equality _ _ _ _ t1 t3 _ _ B1 B1 H1 H3) as [E13 _].
  split.
  - rewrite H1, H2. f_equal. apply E12. split; [reflexivity | exact S].
  - rewrite H1, H3. intros E. assert (E' : t1 = t3) by congruence.
    apply E13 in E' as [E' _]. revert E'. vm_compute. discriminate.
Defined.

(** ** encoder.py: [encode_query] and [encode_results] *)

Lemma detect_pii_quiet (udb : UnicodeDB) (text : str) (w : World)
    (spans : list Span) (w1 : World) :
  detect_pii udb text w = Returns spans w1 ->
  entropy w1 = entropy w /\ io_log w1 = io_log w /\
  file_writable w1 = file_writable w.
Proof.
  rewrite detect_pii_spec.
  destruct (_analyzer w); [destruct (engine_available w) as [e|]|..];
    try destruct (analyze _ _); intros [= _ <-]; auto.
Qed.

(** X11. When the detector reports nothing, a query and a result cell
    pass through as they are: [encode_query] returns the text itself with
    an empty mapping list, [encode_results] returns the cell itself, and
    nothing is stored, encrypted, sent to Redis or written to the token
    file. *)
Theorem nothing_detected_passes_through (encrypt_value : nat -> str -> str)
    (udb : UnicodeDB) (cols : list str) (text : str) (w w1 : World) :
  detect_pii udb text w = Returns [] w1 ->
  encode_query encrypt_value udb text w = Returns (text, []) w1 /\
  encode_results encrypt_value udb cols [[CStr text]] w
    = Returns [[CStr text]] w1 /\
  _token_store w1 = _token_store w /\
  redis_server w1 = redis_server w /\
  token_file w1 = token_file w /\
  entropy w1 = entropy w /\
  io_log w1 = io_log w.
Proof.
  intros Hdet.
  destruct (detect_pii_Returns _ _ _ _ _ Hdet) as (Hts & _ & _ & Hrs & Htf).
  destruct (detect_pii_quiet _ _ _ _ _ Hdet) as (Hen & Hio & _).
  split; [|split]; [| |auto].
  - unfold encode_query. erewrite bind_Returns by exact Hdet. reflexivity.
  - unfold encode_results. cbn [for_map encode_cell].
    rewrite !bind_assoc. erewrite bind_Returns by exact Hdet. reflexivity.
Qed.

Lemma nothing_detected_passes_through_witness :
  encode_query demo_encrypt ascii_db [] file_world
    = Returns ([], []) (set_analyzer Fallback file_world).
Proof.
  apply (nothing_detected_passes_through demo_encrypt ascii_db [] []
           file_world (set_analyzer Fallback file_world)).
  vm_compute. reflexivity.
Defined.

Lemma encode_fold_maps (encrypt_value : nat -> str -> str) (text : str) :
  forall l enc maps w enc' maps' w',
    for_fold (encode_span encrypt_value text) l (enc, maps) w
      = Returns (enc', maps') w' ->
    maps' = maps ++ map (mapping_of text) l.
Proof.
  induction l as [|x l IH]; intros enc maps w enc' maps' w' H.
  - cbn in H. injection H as _ <- _. now rewrite app_nil_r.
  - apply for_fold_cons_Returns in H as ([enc1 maps1] & w1 & H1 & H2).
    apply encode_span_Returns in H1 as (_ & _ & -> & _).
    apply IH in H2 as ->. now rewrite <- app_assoc.
Qed.

(** X12. Whatever the detector reports, when [encode_query] returns it
    has reported one mapping per detected span, in descending order of
    start, and each reported token is a key of the dict that
    [get_encrypted_mapping] hands out, where it holds a ciphertext of a
    detected substring that has this very token. *)
Theorem encode_query_mappings_stored (encrypt_value : nat -> str -> str)
    (udb : UnicodeDB) (text : str) (w : World) (out : str)
    (maps : list Mapping) (w' : World) :
  encode_query encrypt_value udb text w = Returns (out, maps) w' ->
  exists spans w1,
    detect_pii udb text w = Returns spans w1 /\
    maps = map (mapping_of text) (sort_desc start spans) /\
    length maps = length spans /\
    get_encrypted_mapping w' = Returns (_token_store w') w' /\
    forall m, In m maps ->
      exists x y n,
        In x spans /\ In y spans /\
        m_entity_type m = entity_type x /\
        original_len m = end_ x - start x /\
        get_token_hash (slice text (start x) (end_ x)) (entity_type x)
          = Some (m_token m) /\
        get_token_hash (slice text (start y) (end_ y)) (entity_type y)
          = Some (m_token m) /\
        _token_store w' !! m_token m
          = Some (encrypt_value n (slice text (start y) (end_ y))).
Proof.
  unfold encode_query. intros H.
  destruct (detect_pii udb text w) as [spans w1| |] eqn:Hdet;
    try (unfold bind in H; rewrite Hdet in H; discriminate H).
  erewrite bind_Returns in H by exact Hdet. cbv zeta in H.
  exists spans, w1. split; [reflexivity|].
  pose proof (encode_fold_maps _ _ _ _ _ _ _ _ _ H) as Hm. cbn [app] in Hm.
  split; [exact Hm|].
  split.
  { rewrite Hm, length_map. apply Permutation_length, sort_desc_perm. }
  split; [reflexivity|].
  destruct (encode_fold_world _ _ _ _ _ _ _ H) as (_ & Htok & _ & Hst).
  intros m Hin. rewrite Hm in Hin.
  apply in_map_iff in Hin as (x & <- & Hx).
  apply list_elem_of_In in Hx.
  destruct (Hst x Hx) as (y & n & Hy & Hyx & Hsto).
  assert (P : forall z, z ∈ sort_desc start spans -> In z spans).
  { intros z Hz. apply list_elem_of_In. now rewrite <- (sort_desc_perm start). }
  exists x, y, n. cbn [mapping_of m_token m_entity_type original_len].
  split; [auto|]. split; [auto|]. split; [reflexivity|].
  split; [reflexivity|]. split; [auto|].
  split; [rewrite <- Hyx; auto | exact Hsto].
Qed.

Lemma encode_query_mappings_stored_witness :
  exists out maps w',
    encode_query demo_encrypt ascii_db mail_text redis_world
      = Returns (out, maps) w' /\
    length maps = 2%nat /\
    forall m, In m maps -> is_Some (_token_store w' !! m_token m).
Proof.
  assert (Hrun : exists out maps w',
            encode_query demo_encrypt ascii_db mail_text redis_world
            = Returns (out, maps) w')
    by (do 3 eexists; vm_compute; reflexivity).
  destruct Hrun as (out & maps & w' & Hrun).
  destruct (encode_query_mappings_stored demo_encrypt ascii_db mail_text
              redis_world out maps w' Hrun)
    as (spans & w1 & Hdet & _ & Hlen & _ & Hall).
  exists out, maps, w'. split; [exact Hrun|]. split.
  - rewrite Hlen. revert Hdet. vm_compute. intros [= <- _]. reflexivity.
  - intros m Hm. destruct (Hall m Hm) as (x & y & n & _ & _ & _ & _ & _ & _ & E).
    rewrite E. eexists. reflexivity.
Defined.

Lemma encode_span_entity (encrypt_value : nat -> str -> str) (text ev : str)
    (maps : list Mapping) (x : Span) (w : World) :
  encode_span encrypt_value text (ev, maps) x w =
  match encode_entity encrypt_value text ev x w with
  | Returns ev' w' => Returns (ev', maps ++ [mapping_of text x]) w'
  | Raises e w' => Raises e w'
  | Blocks => Blocks
  end.
Proof.
  unfold encode_span, encode_entity, mapping_of, token_of, token_hash.
  destruct (get_token_hash _ _) as [tok|]; [|reflexivity].
  rewrite !bind_ret. unfold encrypt.
  rewrite !bind_assoc, !bind_gets, !bind_assoc, !bind_modify, !bind_ret.
  unfold bind. destruct (store_mapping _ _ _) as [[] w1| |]; reflexivity.
Qed.

Lemma encode_fold_entity (encrypt_value : nat -> str -> str) (text : str) :
  forall l ev maps w,
    for_fold (encode_entity encrypt_value text) l ev w =
    match for_fold (encode_span encrypt_value text) l (ev, maps) w with
    | Returns r w' => Returns r.1 w'
    | Raises e w' => Raises e w'
    | Blocks => Blocks
    end.
Proof.
  induction l as [|x l IH]; intros ev maps w; [reflexivity|].
  cbn [for_fold]. unfold bind. rewrite encode_span_entity.
  destruct (encode_entity encrypt_value text ev x w) as [ev1 w1| |];
    [apply IH | reflexivity | reflexivity].
Qed.

Lemma encode_cell_query (encrypt_value : nat -> str -> str)
    (udb : UnicodeDB) (s : str) (w : World) :
  encode_cell encrypt_value udb (CStr s) w =
  match encode_query encrypt_value udb s w with
  | Returns r w' => Returns (CStr r.1) w'
  | Raises e w' => Raises e w'
  | Blocks => Blocks
  end.
Proof.
  unfold encode_cell, encode_query. unfold bind at 1 3.
  destruct (detect_pii udb s w) as [spans w1| |]; [|reflexivity..].
  cbv zeta. destruct spans as [|x spans]; [reflexivity|].
  unfold bind. rewrite (encode_fold_entity encrypt_value s _ s [] w1).
  destruct (for_fold (encode_span encrypt_value s) _ _ w1) as [[o m] w2| |];
    reflexivity.
Qed.

(** X13. [encode_results] treats a string cell exactly as [encode_query]
    treats a query: the cell becomes the text [encode_query] would return
    for it, the same mappings are stored, and the call raises or fails to
    return in the same cases. *)
Theorem encode_cell_as_encode_query (encrypt_value : nat -> str -> str)
    (udb : UnicodeDB) (s : str) (w : World) :
  encode_cell encrypt_value udb (CStr s) w =
  match encode_query encrypt_value udb s w with
  | Returns r w' => Returns (CStr r.1) w'
  | Raises e w' => Raises e w'
  | Blocks => Blocks
  end.
Proof. apply encode_cell_query. Qed.

(** ** decoder.py: what decoding leaves behind *)

Lemma backfilled_lookup (w : World) (token k : str) :
  backfilled w token !! k = _token_store w !! k \/
  k = token /\ backfilled w token !! k = tier_value w k.
Proof.
  unfold backfilled.
  destruct (tier_value w token) as [[|c s]|] eqn:E; auto.
  destruct (decide (k = token)) as [->|Hne].
  - right. split; [reflexivity|]. now rewrite lookup_insert_eq, E.
  - left. now rewrite lookup_insert_ne by congruence.
Qed.

Lemma decode_token_store (decrypt_value : str -> option str)
    (text token : str) (w : World) (out : str) (w' : World) :
  _TOKEN_FILE_LOCK w = false ->
  decode_token decrypt_value text token w = Returns out w' ->
  _token_store w' = backfilled w token.
Proof.
  intros Hl. unfold decode_token.
  destruct (lookup_token_spec token w Hl) as (w1 & Hrun & Hst & _).
  erewrite bind_Returns by exact Hrun.
  destruct (tier_value w token) as [[|c s]|].
  - intros [= _ <-]. exact Hst.
  - unfold try_except, decrypt, bind.
    destruct (decrypt_value (c :: s)); cbn; intros [= _ <-]; exact Hst.
  - intros [= _ <-]. exact Hst.
Qed.

Lemma decode_loop_store (decrypt_value : str -> option str) (w : World) :
  forall tokens text w0,
    _TOKEN_FILE_LOCK w0 = false ->
    (forall t, tier_value w0 t = tier_value w t) ->
    exists out w',
      for_fold (decode_token decrypt_value) tokens text w0 = Returns out w' /\
      same_but_cache w0 w' /\
      forall k,
        _token_store w' !! k = _token_store w0 !! k \/
        In k tokens /\ _token_store w' !! k = tier_value w k.
Proof.
  induction tokens as [|token tokens IH]; intros text w0 Hl Htv.
  - exists text, w0. split; [reflexivity|].
    split; [apply same_but_cache_refl | auto].
  - destruct (decode_token_spec decrypt_value text token w0 Hl)
      as (w1 & Hrun & Hsame & Htv1).
    pose proof (decode_token_store _ _ _ _ _ _ Hl Hrun) as Hst.
    destruct (IH (match resolve decrypt_value w0 token with
                  | Some v => replace token v text
                  | None => text
                  end) w1) as (out & w' & Hrest & Hsame' & Hk).
    { rewrite (same_but_cache_lock _ _ Hsame). exact Hl. }
    { intros t. now rewrite Htv1. }
    exists out, w'. split.
    { cbn [for_fold]. erewrite bind_Returns by exact Hrun. exact Hrest. }
    split; [eapply same_but_cache_trans; eassumption|].
    intros k. destruct (Hk k) as [E | [Hin E]].
    + rewrite E, Hst.
      destruct (backfilled_lookup w0 token k) as [E' | [-> E']].
      * auto.
      * right. split; [now left|]. now rewrite E', Htv.
    + right. split; [now right | exact E].
Qed.

(** X14. Decoding only reads the slower tiers. [decode_text] returns
    with Redis, the token file, the analyzer and the lock as they were; in
    the in-process dict every usable entry is kept, and an entry that
    changed belongs to a token occurring in the text and now holds what the
    tiers answered for that token before the call. *)
Theorem decode_text_read_only (decrypt_value : str -> option str)
    (str_hash : str -> Z) (text : str) (w : World) :
  _TOKEN_FILE_LOCK w = false ->
  exists out w',
    decode_text decrypt_value str_hash text w = Returns out w' /\
    redis_server w' = redis_server w /\
    token_file w' = token_file w /\
    _analyzer w' = _analyzer w /\
    _TOKEN_FILE_LOCK w' = false /\
    (forall k, truthy (_token_store w !! k) = true ->
       _token_store w' !! k = _token_store w !! k) /\
    (forall k, _token_store w' !! k <> _token_store w !! k ->
       In k (findall token_pattern text) /\
       _token_store w' !! k = tier_value w k).
Proof.
  intros Hl. unfold decode_text. cbv zeta.
  destruct (decode_loop_store decrypt_value w
              (set_iter str_hash (findall token_pattern text)) text w Hl)
    as (out & w' & Hrun & Hsame & Hk); [reflexivity|].
  exists out, w'. split; [exact Hrun|].
  pose proof (same_but_cache_lock _ _ Hsame) as Hl'.
  destruct Hsame as (Ha & _ & _ & _ & Hrs & Htf & _).
  split; [exact Hrs|]. split; [exact Htf|]. split; [exact Ha|].
  split; [congruence|]. split.
  - intros k Ht. destruct (Hk k) as [E | [_ E]]; [exact E|].
    rewrite E. unfold tier_value. now rewrite Ht.
  - intros k Hne. destruct (Hk k) as [E | [Hin E]]; [contradiction|].
    split; [|exact E].
    apply list_elem_of_In, elem_of_set_iter in Hin.
    now apply list_elem_of_In.
Qed.

Lemma decode_text_read_only_witness :
  exists out w',
    decode_text demo_decrypt demo_hash tok_john file_world = Returns out w' /\
    token_file w' = token_file file_world /\
    _token_store w' !! tok_john = Some ct_other.
Proof.
  destruct (decode_text_read_only demo_decrypt demo_hash tok_john file_world
              eq_refl) as (out & w' & Hrun & _ & Htf & _ & _ & _ & Hnew).
  exists out, w'. split; [exact Hrun|]. split; [exact Htf|].
  revert Hrun. vm_compute. intros [= _ <-]. reflexivity.
Defined.

(** ** encoder.py and decoder.py: written by one, read by the other *)

(** X15. What the encoder's store step has written, the decoder's lookup
    finds in the in-process dict: after [store_mapping] has returned with a
    non-empty ciphertext, [lookup_token] returns exactly that ciphertext
    and touches neither Redis nor the token file, whatever those hold. *)
Theorem store_then_lookup (token enc : str) (w w' : World) :
  store_mapping token enc w = Returns tt w' ->
  enc <> [] ->
  lookup_token token w' = Returns (Some enc) w'.
Proof.
  intros Hrun Hne. apply store_mapping_Returns in Hrun as (Hts & _).
  destruct enc as [|c s]; [congruence|].
  apply lookup_token_hit. rewrite Hts. apply lookup_insert_eq.
Qed.

Lemma store_then_lookup_witness :
  exists w',
    store_mapping tok_john ct_john redis_world = Returns tt w' /\
    lookup_token tok_john w' = Returns (Some ct_john) w'.
Proof.
  eexists. split; [reflexivity|].
  apply (store_then_lookup tok_john ct_john redis_world);
    [reflexivity | discriminate].
Defined.



(** ** encoder.py and decoder.py: a table there and back *)

Lemma for_map_cons_Returns {A B} (f : A -> M B) x l w ys w' :
  for_map f (x :: l) w = Returns ys w' ->
  exists y w1 ys1,
    f x w = Returns y w1 /\ for_map f l w1 = Returns ys1 w' /\
    ys = y :: ys1.
Proof.
  cbn [for_map]. unfold bind.
  destruct (f x w) as [y w1| |]; try discriminate.
  destruct (for_map f l w1) as [ys1 w2| |] eqn:E; try discriminate.
  unfold ret. intros [= <- <-]. exists y, w1, ys1. auto.
Qed.

Lemma store_mapping_env (token enc : str) (w w' : World) :
  store_mapping token enc w = Returns tt w' ->
  _analyzer w' = _analyzer w /\ engine_available w' = engine_available w.
Proof.
  destruct w as [an ts [cn cl] lk ea rs tf fw en io].
  destruct cn, cl as [h|], rs as [db|], lk, tf as [f|], fw;
    cbv -[insert app empty]; intros H; try discriminate H;
    injection H as <-; auto.
Qed.

Lemma encode_fold_env (encrypt_value : nat -> str -> str) (text : str) :
  forall l acc w r w',
    for_fold (encode_span encrypt_value text) l acc w = Returns r w' ->
    _analyzer w' = _analyzer w /\ engine_available w' = engine_available w.
Proof.
  induction l as [|x l IH]; intros [enc maps] w r w' H.
  - cbn in H. injection H as _ <-. auto.
  - apply for_fold_cons_Returns in H as ([enc1 maps1] & w1 & H1 & H2).
    apply encode_span_Returns in H1 as (_ & _ & _ & Hst).
    apply store_mapping_env in Hst as [Ha He]. cbn in Ha, He.
    apply IH in H2 as [Ha' He']. split; congruence.
Qed.

Lemma detected_env (udb : UnicodeDB) (w w' : World) (s : str) :
  _analyzer w' = _analyzer w -> engine_available w' = engine_available w ->
  detected udb w' s = detected udb w s.
Proof. unfold detected. intros -> ->. reflexivity. Qed.

(** The detector returns [detected], and what it returns for any text is
    settled from then on. *)
Lemma detect_pii_detected (udb : UnicodeDB) (s : str) (w : World) :
  exists w1,
    detect_pii udb s w = Returns (detected udb w s) w1 /\
    (forall s', detected udb w1 s' = detected udb w s') /\
    _token_store w1 = _token_store w /\
    _TOKEN_FILE_LOCK w1 = _TOKEN_FILE_LOCK w.
Proof.
  rewrite detect_pii_spec. unfold detected.
  destruct (_analyzer w) as [|e|] eqn:Ea.
  - destruct (engine_available w) as [e|] eqn:Ee.
    + destruct (analyze e s); eexists; (split; [reflexivity|]);
        (split; [|split; reflexivity]); intros s'; reflexivity.
    + eexists. split; [reflexivity|]. split; [|split; reflexivity].
      intros s'. reflexivity.
  - destruct (analyze e s); eexists; (split; [reflexivity|]);
      (split; [|split; reflexivity]); intros s'; rewrite Ea; reflexivity.
  - eexists. split; [reflexivity|]. split; [|split; reflexivity].
    intros s'. rewrite Ea. reflexivity.
Qed.


Section Table.
Variable encrypt_value : nat -> str -> str.
Variable decrypt_value : str -> option str.
Variable udb : UnicodeDB.
Variable str_hash : str -> Z.
Variable w0 : World.

Lemma covered_nil (w : World) : covered encrypt_value [] w.
Proof. intros p []. Qed.

(** One string cell: what it becomes, and what the dict holds after. *)
Lemma encode_cell_covered (c : Cell) (sps : list (str * Span))
    (w1 : World) (c' : Cell) (w2 : World) :
  clean_cell udb w0 c ->
  steady udb w0 w1 ->
  covered encrypt_value sps w1 ->
  encode_cell encrypt_value udb c w1 = Returns c' w2 ->
  c' = encode_cell_pure udb w0 c /\
  steady udb w0 w2 /\
  covered encrypt_value (sps ++ cell_spans udb w0 c) w2.
Proof.
  intros Hclean [Hlk Hdt] Hcov Hrun.
  destruct c as [s| | | | |];
    try (cbn in Hrun; injection Hrun as <- <-;
         cbn [encode_cell_pure cell_spans]; rewrite app_nil_r;
         split; [reflexivity|]; split; [split; assumption | assumption]).
  destruct Hclean as (_ & Hin & Hap & _).
  destruct (detect_pii_detected udb s w1) as (w1' & Hdet & Hst & Hts & Hlk1).
  rewrite Hdt in Hdet.
  unfold encode_cell in Hrun. erewrite bind_Returns in Hrun by exact Hdet.
  cbn [encode_cell_pure cell_spans].
  pose proof (chain_sort_desc s _ Hin Hap) as Hch.
  assert (Hperm : forall x, x ∈ sort_desc start (detected udb w0 s)
                            <-> In x (detected udb w0 s)).
  { intros x. rewrite sort_desc_perm. apply list_elem_of_In. }
  set (sp := detected udb w0 s) in *.
  assert (Hfold : exists maps,
            for_fold (encode_span encrypt_value s) (sort_desc start sp)
              (s, []) w1'
            = Returns (match c' with CStr ev => ev | _ => [] end, maps) w2 /\
            is_str c' = true).
  { destruct sp as [|x sp'] eqn:Esp.
    - cbn in Hrun. injection Hrun as <- <-. exists []. split; reflexivity.
    - rewrite <- Esp in *. unfold bind in Hrun.
      rewrite (encode_fold_entity encrypt_value s _ s [] w1') in Hrun.
      destruct (for_fold (encode_span encrypt_value s) _ _ w1')
        as [[ev maps] w2'| |]; try discriminate Hrun.
      cbn in Hrun. injection Hrun as <- <-. exists maps.
      split; reflexivity. }
  clear Hrun. destruct Hfold as (maps & Hfold & Hstr).
  destruct c' as [ev| | | | |]; try discriminate Hstr. clear Hstr.
  destruct (encode_fold_env _ _ _ _ _ _ _ Hfold) as [Ha He].
  destruct (encode_fold_world _ _ _ _ _ _ _ Hfold)
    as (Hlk2 & Hhash & Hother & Hmine).
  split; [|split; [split|]].
  - f_equal.
    rewrite <- (slice_full s) in Hfold at 2.
    rewrite <- (app_nil_r (slice s 0 (py_len s))) in Hfold.
    apply encode_fold_Returns in Hfold as [-> _]; [|exact Hch|lia].
    rewrite finish_splice. apply app_nil_r.
  - congruence.
  - intros s'. rewrite (detected_env udb w1' w2 s' Ha He), Hst. apply Hdt.
  - intros p Hp. apply in_app_or in Hp as [Hp | Hp].
    + destruct (Hcov p Hp) as (Hh & q & n & Hq & Htok & Hsto).
      split; [exact Hh|].
      destruct (decide (token_of p.1 p.2
                          ∈ map (token_of s) (sort_desc start sp)))
        as [Hin' | Hnin].
      * apply list_elem_of_In, in_map_iff in Hin' as (z & Hz & Hzin).
        apply list_elem_of_In in Hzin.
        destruct (Hmine z Hzin) as (y & n' & Hy & Hty & Hsto').
        exists (s, y), n'. cbn [fst snd].
        split; [apply in_or_app; right; apply in_map, Hperm, Hy|].
        split; [congruence|]. rewrite <- Hz. exact Hsto'.
      * exists q, n. split; [apply in_or_app; now left|].
        split; [exact Htok|]. rewrite (Hother _ Hnin), Hts. exact Hsto.
    + apply in_map_iff in Hp as (x & <- & Hx). cbn [fst snd].
      apply Hperm in Hx.
      split; [apply Hhash, Hx|].
      destruct (Hmine x Hx) as (y & n & Hy & Hty & Hsto).
      exists (s, y), n. cbn [fst snd].
      split; [apply in_or_app; right; apply in_map, Hperm, Hy|].
      split; [exact Hty | exact Hsto].
Qed.

(** A loop of such steps, over the cells of a row or the rows of a
    table. *)
Lemma for_map_covered {A B} (f : A -> M B) (g : A -> B)
    (sp : A -> list (str * Span)) (Q : A -> Prop) :
  (forall a sps w1 b w2,
     Q a -> steady udb w0 w1 -> covered encrypt_value sps w1 ->
     f a w1 = Returns b w2 ->
     b = g a /\ steady udb w0 w2 /\ covered encrypt_value (sps ++ sp a) w2) ->
  forall l sps w1 bs w2,
    Forall Q l -> steady udb w0 w1 -> covered encrypt_value sps w1 ->
    for_map f l w1 = Returns bs w2 ->
    bs = map g l /\ steady udb w0 w2 /\
    covered encrypt_value (sps ++ flat_map sp l) w2.
Proof.
  intros Hstep. induction l as [|a l IH]; intros sps w1 bs w2 HQ Hs Hc Hrun.
  - cbn in Hrun. injection Hrun as <- <-. cbn. rewrite app_nil_r. auto.
  - apply for_map_cons_Returns in Hrun as (b & w1' & bs1 & Ha & Hl & ->).
    apply Forall_cons in HQ as [Hq HQ].
    destruct (Hstep _ _ _ _ _ Hq Hs Hc Ha) as (-> & Hs' & Hc').
    destruct (IH _ _ _ _ HQ Hs' Hc' Hl) as (-> & Hs'' & Hc'').
    cbn [map flat_map]. rewrite app_assoc. auto.
Qed.

Lemma encode_results_covered (cols : list str) (rws : list (list Cell))
    (out : list (list Cell)) (w' : World) :
  _TOKEN_FILE_LOCK w0 = false ->
  Forall (Forall (clean_cell udb w0)) rws ->
  encode_results encrypt_value udb cols rws w0 = Returns out w' ->
  out = map (map (encode_cell_pure udb w0)) rws /\
  _TOKEN_FILE_LOCK w' = false /\
  covered encrypt_value (table_spans udb w0 rws) w'.
Proof.
  intros Hlk Hclean Hrun. unfold encode_results in Hrun.
  destruct (for_map_covered
              (for_map (encode_cell encrypt_value udb))
              (map (encode_cell_pure udb w0))
              (flat_map (cell_spans udb w0))
              (Forall (clean_cell udb w0))) with (5 := Hrun) (sps := @nil (str * Span))
    as (Hout & [Hlk' _] & Hcov).
  - intros row sps w1 b w2 Hq Hs Hc Hr.
    eapply (for_map_covered (encode_cell encrypt_value udb)
              (encode_cell_pure udb w0) (cell_spans udb w0)
              (clean_cell udb w0)); eauto.
    intros a sps' w1' b' w2' Hq' Hs' Hc' Ha.
    eapply encode_cell_covered; eauto.
  - exact Hclean.
  - split; [exact Hlk | reflexivity].
  - apply covered_nil.
  - auto.
Qed.

Lemma decode_rows_spec (rws : list (list Cell)) (w : World) :
  _TOKEN_FILE_LOCK w = false ->
  exists w'',
    for_map (for_map (decode_cell decrypt_value str_hash)) rws w
    = Returns (map (map (decode_cell_pure decrypt_value str_hash w)) rws) w''.
Proof.
  intros Hlk.
  set (P := fun w1 : World =>
              _TOKEN_FILE_LOCK w1 = false /\
              forall t, tier_value w1 t = tier_value w t).
  destruct (for_map_pure
              (for_map (decode_cell decrypt_value str_hash))
              (map (decode_cell_pure decrypt_value str_hash w)) P)
    with (l := rws) (w := w) as (w'' & Hrun & _).
  - intros row w1 HP.
    apply (for_map_pure (decode_cell decrypt_value str_hash)
             (decode_cell_pure decrypt_value str_hash w) P).
    + intros c w2 [Hl2 Ht2].
      destruct (decode_cell_spec decrypt_value str_hash w c w2 Hl2 Ht2)
        as (w3 & Hr & Hl3 & Ht3).
      exists w3. split; [exact Hr | split; assumption].
    + exact HP.
  - split; [exact Hlk | reflexivity].
  - eauto.
Qed.

(** A clean cell is decoded back wherever the dict covers its spans and
    no two spans with different values share a token. *)
Lemma decode_clean_cell (c : Cell) (sps : list (str * Span)) (wf : World) :
  clean_cell udb w0 c ->
  covered encrypt_value sps wf ->
  (forall p, In p (cell_spans udb w0 c) -> In p sps) ->
  (forall p q, In p sps -> In q sps ->
     token_of p.1 p.2 = token_of q.1 q.2 ->
     slice p.1 (start p.2) (end_ p.2) = slice q.1 (start q.2) (end_ q.2)) ->
  (forall n v, decrypt_value (encrypt_value n v) = Some v) ->
  (forall n v, encrypt_value n v <> []) ->
  decode_cell_pure decrypt_value str_hash wf (encode_cell_pure udb w0 c) = c.
Proof.
  intros Hclean Hcov Hsub Hcoll Hdec Hne.
  destruct c as [s| | | | |]; try reflexivity.
  destruct Hclean as (Hfree & Hin & Hap & Hety).
  cbn [encode_cell_pure decode_cell_pure cell_spans] in *. f_equal.
  assert (Hno : ~ has_token s).
  { intros (a & t & b & Heq & Ht). apply fullmatch_token_shape in Ht.
    rewrite (Hfree a t b Heq) in Ht. discriminate. }
  set (l := sort_desc start (detected udb w0 s)).
  pose proof (chain_sort_desc s _ Hin Hap) as Hch. fold l in Hch.
  set (segs := segs_of s 0 (rev l) (py_len s)).
  assert (Hcur : splice s (rev l) = cur segs)
    by (subst segs; now rewrite cur_segs_of).
  assert (Horig : orig segs = s).
  { subst segs. rewrite orig_segs_of_rev by (assumption || lia).
    apply slice_full. }
  assert (Hok : Forall (seg_ok decrypt_value wf) segs).
  { apply segs_of_ok. intros x Hx.
    apply list_elem_of_In, in_rev, list_elem_of_In in Hx.
    unfold l in Hx. rewrite sort_desc_perm in Hx.
    apply list_elem_of_In in Hx.
    assert (Hp : In (s, x) sps) by (apply Hsub, in_map, Hx).
    destruct (Hcov _ Hp) as (Hh & q & n & Hq & Htok & Hsto).
    cbn [fst snd] in Hh, Htok, Hsto. split.
    - rewrite List.Forall_forall in Hety.
      destruct (PII_ENTITIES_upper (entity_type x) (Hety x Hx)) as [Hn Hty].
      eapply get_token_hash_shape; eauto.
    - pose proof (Hcoll q (s, x) Hq Hp Htok) as E. cbn [fst snd] in E.
      rewrite <- E. eapply resolve_cached; eauto. }
  pose proof (seg_ok_shape _ _ _ Hok) as Hshape.
  rewrite Hcur, findall_segs by (assumption || now rewrite Horig).
  transitivity (orig segs); [|exact Horig]. apply substitute_segs; auto.
  - now rewrite Horig.
  - intros t Ht. now apply elem_of_set_iter.
  - intros t Ht. apply (proj1 (elem_of_set_iter _ _ _)) in Ht.
    exact (tokens_of_shape segs t Hshape Ht).
Qed.

End Table.

(** X17. A table there and back. When every string cell is on the happy
    path (no substring shaped like a token; spans inside the cell, not
    empty, not overlapping, with entity types of [PII_ENTITIES]), no two
    spans of the table with different values share a token and the cipher
    decrypts what it encrypted to non-empty ciphertexts, then whenever
    [encode_results] returns, [decode_results] applied in the same process
    to the encoded rows, as a dict with columns and rows or as a bare list
    of rows, gives the original rows back, other cells included. *)
Theorem table_round_trip (encrypt_value : nat -> str -> str)
    (decrypt_value : str -> option str) (udb : UnicodeDB)
    (str_hash : str -> Z) (cols : list str) (rws out : list (list Cell))
    (n : Z) (w w' : World) :
  _TOKEN_FILE_LOCK w = false ->
  Forall (Forall (clean_cell udb w)) rws ->
  (forall p q,
     In p (table_spans udb w rws) -> In q (table_spans udb w rws) ->
     token_of p.1 p.2 = token_of q.1 q.2 ->
     slice p.1 (start p.2) (end_ p.2) = slice q.1 (start q.2) (end_ q.2)) ->
  (forall k v, decrypt_value (encrypt_value k v) = Some v) ->
  (forall k v, encrypt_value k v <> []) ->
  encode_results encrypt_value udb cols rws w = Returns out w' ->
  (exists w'',
     decode_results decrypt_value str_hash (RTable (mk_table cols out n)) w'
     = Returns (RTable (mk_table cols rws n)) w'') /\
  (exists w'',
     decode_results decrypt_value str_hash (RRows out) w'
     = Returns (RRows rws) w'').
Proof.
  intros Hlk Hclean Hcoll Hdec Hne Hrun.
  destruct (encode_results_covered encrypt_value udb w cols rws out w'
              Hlk Hclean Hrun) as (Hout & Hlk' & Hcov).
  destruct (decode_rows_spec decrypt_value str_hash out w' Hlk')
    as (w'' & Hdecode).
  assert (Hback : map (map (decode_cell_pure decrypt_value str_hash w')) out
                  = rws).
  { rewrite Hout, map_map. rewrite <- (map_id rws) at 2.
    apply map_ext_in. intros row Hrow.
    rewrite map_map. rewrite <- (map_id row) at 2.
    apply map_ext_in. intros c Hc.
    rewrite List.Forall_forall in Hclean.
    pose proof (Hclean row Hrow) as Hr. rewrite List.Forall_forall in Hr.
    apply (decode_clean_cell encrypt_value decrypt_value udb str_hash w c
             (table_spans udb w rws) w'); auto.
    intros p Hp. unfold table_spans.
    apply in_flat_map. exists row. split; [exact Hrow|].
    apply in_flat_map. exists c. split; [exact Hc | exact Hp]. }
  split.
  - exists w''. unfold decode_results. cbn [rows columns row_count].
    erewrite bind_Returns by exact Hdecode. rewrite Hback. reflexivity.
  - exists (match out with [] => w' | _ => w'' end).
    unfold decode_results. destruct out as [|r0 out'].
    + destruct rws; [reflexivity | discriminate Hback].
    + erewrite bind_Returns by exact Hdecode. rewrite Hback. reflexivity.
Qed.

Lemma table_round_trip_witness :
  exists out w' w'',
    encode_results demo_encrypt ascii_db [str_of "note"; str_of "n"]
      [[CStr mail_text; CInt 7]] redis_world = Returns out w' /\
    out = [[CStr (str_of
                    "Mail [EMAIL_ADDRESS_8E621E3D] or [PERSON_01332C87]");
            CInt 7]] /\
    decode_results demo_decrypt demo_hash (RRows out) w'
    = Returns (RRows [[CStr mail_text; CInt 7]]) w''.
Proof.
  assert (Hrun : exists w',
            encode_results demo_encrypt ascii_db [str_of "note"; str_of "n"]
              [[CStr mail_text; CInt 7]] redis_world
            = Returns
                [[CStr (str_of
                    "Mail [EMAIL_ADDRESS_8E621E3D] or [PERSON_01332C87]");
                  CInt 7]] w')
    by (eexists; vm_compute; reflexivity).
  destruct Hrun as (w' & Hrun).
  assert (Hdet : detected ascii_db redis_world mail_text
                 = [mk_span (str_of "EMAIL_ADDRESS") 5 27 (1 # 2);
                    mk_span (str_of "PERSON") 31 39 (1 # 2)])
    by (vm_compute; reflexivity).
  assert (Hsp : table_spans ascii_db redis_world [[CStr mail_text; CInt 7]]
                = [(mail_text, mk_span (str_of "EMAIL_ADDRESS") 5 27 (1 # 2));
                   (mail_text, mk_span (str_of "PERSON") 31 39 (1 # 2))])
    by (vm_compute; reflexivity).
  destruct (table_round_trip demo_encrypt demo_decrypt ascii_db demo_hash
              [str_of "note"; str_of "n"] [[CStr mail_text; CInt 7]]
              [[CStr (str_of
                    "Mail [EMAIL_ADDRESS_8E621E3D] or [PERSON_01332C87]");
                CInt 7]]
              1 redis_world w') as [_ [w'' Hdecode]].
  - reflexivity.
  - constructor; [|constructor].
    constructor; [|constructor; [exact I | constructor]].
    cbn [clean_cell]. rewrite Hdet. split; [|split; [|split]].
    + apply no_bracket_no_token. rewrite list_elem_of_In. vm_compute.
      intuition discriminate.
    + constructor; [|constructor; [|constructor]]; vm_compute;
        intuition congruence.
    + cbn [pairwise_apart]. split; [|split; [constructor | exact I]].
      constructor; [|constructor]. left. vm_compute. congruence.
    + constructor; [|constructor; [|constructor]]; vm_compute; tauto.
  - intros p q Hp Hq. rewrite Hsp in Hp, Hq.
    destruct Hp as [<-|[<-|[]]]; destruct Hq as [<-|[<-|[]]];
      try reflexivity; vm_compute; discriminate.
  - reflexivity.
  - discriminate.
  - exact Hrun.
  - eexists. exists w', w''. split; [exact Hrun|].
    split; [reflexivity | exact Hdecode].
Defined.

(** ** Exceptions: what reaches the caller *)

Lemma no_raise_ret {A} (a : A) : no_raise (ret a).
Proof. intros w e w'. discriminate. Qed.

Lemma no_raise_gets {A} (f : World -> A) : no_raise (gets f).
Proof. intros w e w'. discriminate. Qed.

Lemma no_raise_modify (f : World -> World) : no_raise (modify f).
Proof. intros w e w'. discriminate. Qed.

Lemma no_raise_bind {A B} (m : M A) (k : A -> M B) :
  no_raise m -> (forall a, no_raise (k a)) -> no_raise (bind m k).
Proof.
  intros Hm Hk w e w'. unfold bind.
  destruct (m w) as [a w1|e1 w1|] eqn:E; [apply Hk | | discriminate].
  exfalso. exact (Hm _ _ _ E).
Qed.

Lemma no_raise_try {A} (body : M A) (h : Exn -> M A) :
  (forall e, no_raise (h e)) -> no_raise (try_except body h).
Proof.
  intros Hh w e w'. unfold try_except.
  destruct (body w) as [a w1|e1 w1|]; [discriminate | apply Hh | discriminate].
Qed.

Lemma no_raise_for_fold {A B} (f : B -> A -> M B) :
  (forall b a, no_raise (f b a)) -> forall l b, no_raise (for_fold f l b).
Proof.
  intros Hf. induction l as [|a l IH]; intros b; cbn [for_fold].
  - apply no_raise_ret.
  - apply no_raise_bind; auto.
Qed.

Lemma no_raise_for_map {A B} (f : A -> M B) :
  (forall a, no_raise (f a)) -> forall l, no_raise (for_map f l).
Proof.
  intros Hf. induction l as [|a l IH]; cbn [for_map].
  - apply no_raise_ret.
  - apply no_raise_bind; [apply Hf|]. intros b.
    apply no_raise_bind; [apply IH|]. intros bs. apply no_raise_ret.
Qed.

Lemma no_raise_if {A} (b : bool) (m1 m2 : M A) :
  no_raise m1 -> no_raise m2 -> no_raise (if b then m1 else m2).
Proof. destruct b; auto. Qed.

Create HintDb quiet.
#[local] Hint Resolve no_raise_ret no_raise_gets no_raise_modify
  no_raise_for_fold no_raise_for_map no_raise_if : quiet.
#[local] Hint Extern 2 (no_raise (bind _ _)) =>
  apply no_raise_bind; [|intro] : quiet.
#[local] Hint Extern 2 (no_raise (try_except _ _)) =>
  apply no_raise_try; intro : quiet.

Lemma no_raise_set_pii_mapping token enc ttl :
  no_raise (set_pii_mapping token enc ttl).
Proof.
  unfold set_pii_mapping. apply no_raise_bind; [auto with quiet|].
  intros rc. destruct (client rc); auto with quiet.
Qed.

Lemma no_raise_get_pii_mapping token : no_raise (get_pii_mapping token).
Proof.
  unfold get_pii_mapping. apply no_raise_bind; [auto with quiet|].
  intros rc. destruct (client rc); auto with quiet.
Qed.

Lemma no_raise_load_token_file : no_raise _load_token_file.
Proof.
  unfold _load_token_file, path_exists. apply no_raise_bind.
  - auto with quiet.
  - intros ex. destruct ex; cbn [negb]; auto with quiet.
Qed.

Lemma no_raise_persist_token token enc : no_raise (_persist_token token enc).
Proof. unfold _persist_token. auto with quiet. Qed.

Lemma no_raise_get_persisted_token token :
  no_raise (get_persisted_token token).
Proof.
  unfold get_persisted_token.
  apply no_raise_bind; [apply no_raise_load_token_file | auto with quiet].
Qed.

Lemma no_raise_store_mapping token enc : no_raise (store_mapping token enc).
Proof.
  unfold store_mapping, is_connected.
  apply no_raise_bind; [auto with quiet|]. intros ts.
  apply no_raise_bind; [auto with quiet|]. intros _.
  apply no_raise_bind; [auto with quiet|]. intros c.
  destruct c.
  - apply no_raise_bind; [apply no_raise_set_pii_mapping | auto with quiet].
  - apply no_raise_persist_token.
Qed.

Lemma no_raise_backfill token v : no_raise (backfill token v).
Proof. unfold backfill. destruct v as [[|c s]|]; auto with quiet. Qed.

Lemma no_raise_lookup_token token : no_raise (lookup_token token).
Proof.
  unfold lookup_token, is_connected.
  apply no_raise_bind; [auto with quiet|]. intros ts. cbv zeta.
  apply no_raise_bind; [auto with quiet|]. intros c.
  apply no_raise_bind.
  - apply no_raise_if; [|auto with quiet].
    apply no_raise_bind; [apply no_raise_get_pii_mapping|]. intros v.
    apply no_raise_bind; [apply no_raise_backfill | auto with quiet].
  - intros v. apply no_raise_if; [|auto with quiet].
    apply no_raise_bind; [apply no_raise_get_persisted_token|]. intros v'.
    apply no_raise_bind; [apply no_raise_backfill | auto with quiet].
Qed.

Lemma no_raise_decode_text decrypt_value str_hash text :
  no_raise (decode_text decrypt_value str_hash text).
Proof.
  unfold decode_text. cbv zeta. apply no_raise_for_fold.
  intros acc token. unfold decode_token.
  apply no_raise_bind; [apply no_raise_lookup_token|].
  intros [[|c s]|]; auto with quiet.
Qed.

Lemma no_raise_decode_cell decrypt_value str_hash c :
  no_raise (decode_cell decrypt_value str_hash c).
Proof.
  destruct c; cbn [decode_cell]; auto with quiet.
  apply no_raise_bind; [apply no_raise_decode_text | auto with quiet].
Qed.

Lemma no_raise_detect_pii udb text : no_raise (detect_pii udb text).
Proof.
  intros w e w'. rewrite detect_pii_spec.
  destruct (_analyzer w); [destruct (engine_available w)|..];
    try destruct (analyze _ _); discriminate.
Qed.

(** X18. Nothing that goes wrong while decoding reaches the caller as an
    exception: from every state, whatever Redis, the token file and the
    cipher do, [decode_text] and [decode_results] return or do not come
    back, and so do the lookups they rest on. *)
Theorem decoder_never_raises (decrypt_value : str -> option str)
    (str_hash : str -> Z) :
  (forall text, no_raise (decode_text decrypt_value str_hash text)) /\
  (forall r, no_raise (decode_results decrypt_value str_hash r)) /\
  (forall token, no_raise (get_persisted_token token)) /\
  (forall token, no_raise (get_pii_mapping token)).
Proof.
  split; [intros; apply no_raise_decode_text|].
  split; [|split; intros; auto using no_raise_get_persisted_token,
                     no_raise_get_pii_mapping].
  intros r. unfold decode_results.
  assert (Hrows : forall rws,
            no_raise (for_map (for_map (decode_cell decrypt_value str_hash))
                        rws)).
  { intros rws. apply no_raise_for_map. intros row. apply no_raise_for_map.
    apply no_raise_decode_cell. }
  destruct r as [|t|items|rws|c].
  - apply no_raise_ret.
  - apply no_raise_bind; [apply Hrows | auto with quiet].
  - destruct items; [auto with quiet|].
    apply no_raise_bind; [|auto with quiet].
    apply no_raise_for_map. intros item. unfold decode_item.
    apply no_raise_for_fold. intros d kv.
    apply no_raise_bind; [apply no_raise_decode_cell | auto with quiet].
  - destruct rws; [auto with quiet|].
    apply no_raise_bind; [apply Hrows | auto with quiet].
  - apply no_raise_ret.
Qed.

(** X19. The storage calls are best effort: the five methods of
    [RedisService] that touch the server or not, [_load_token_file] and
    [_persist_token] never raise, whatever the state of Redis and of the
    token file; a failure shows only in the value returned. *)
Theorem storage_never_raises :
  (forall u t ttl, no_raise (set_token u t ttl)) /\
  (forall t, no_raise (get_token_user t)) /\
  (forall t, no_raise (delete_token t)) /\
  (forall t v ttl, no_raise (set_pii_mapping t v ttl)) /\
  (forall t, no_raise (get_pii_mapping t)) /\
  no_raise _load_token_file /\
  (forall t v, no_raise (_persist_token t v)).
Proof.
  repeat split; intros;
    auto using no_raise_set_pii_mapping, no_raise_get_pii_mapping,
      no_raise_load_token_file, no_raise_persist_token.
  - unfold set_token. apply no_raise_bind; [auto with quiet|].
    intros rc. destruct (client rc); auto with quiet.
  - unfold get_token_user. apply no_raise_bind; [auto with quiet|].
    intros rc. destruct (client rc); auto with quiet.
  - unfold delete_token. apply no_raise_bind; [auto with quiet|].
    intros rc. destruct (client rc); auto with quiet.
Qed.

Lemma encode_span_raises (encrypt_value : nat -> str -> str) (text : str)
    (acc : str * list Mapping) (x : Span) (w : World) (e : Exn) (w' : World) :
  encode_span encrypt_value text acc x w = Raises e w' ->
  e = UnicodeEncodeError /\ w' = w /\
  ~ Forall scalar_value (slice text (start x) (end_ x)).
Proof.
  destruct acc as [enc maps]. unfold encode_span, token_hash.
  destruct (get_token_hash _ _) as [tok|] eqn:Eh.
  - rewrite bind_ret. unfold encrypt.
    rewrite bind_assoc, bind_gets, bind_assoc, bind_modify, bind_ret.
    unfold bind.
    destruct (store_mapping _ _ _) as [[] w1|e1 w1|] eqn:Es; try discriminate.
    exfalso. exact (no_raise_store_mapping _ _ _ _ _ Es).
  - unfold bind, raise. intros [= <- <-]. split; [reflexivity|].
    split; [reflexivity|]. intros Hsc.
    destruct (get_token_hash_total _ (entity_type x) Hsc) as [t Ht].
    congruence.
Qed.

Lemma encode_fold_raises (encrypt_value : nat -> str -> str) (text : str) :
  forall l acc w e w',
    for_fold (encode_span encrypt_value text) l acc w = Raises e w' ->
    e = UnicodeEncodeError /\
    exists x, In x l /\
              ~ Forall scalar_value (slice text (start x) (end_ x)).
Proof.
  induction l as [|x l IH]; intros acc w e w' H; [discriminate H|].
  cbn [for_fold] in H. unfold bind in H.
  destruct (encode_span encrypt_value text acc x w) as [acc1 w1|e1 w1|] eqn:E;
    [|injection H as -> ->|discriminate H].
  - apply IH in H as (-> & y & Hy & Hn). split; [reflexivity|].
    exists y. split; [now right | exact Hn].
  - apply encode_span_raises in E as (-> & _ & Hn). split; [reflexivity|].
    exists x. split; [now left | exact Hn].
Qed.

(** X20. The only exception [encode_query] and [encode_results] let
    through is [UnicodeEncodeError], and only when a detected span covers
    a code point that cannot be encoded (a lone surrogate): failures of the
    detector, of Redis and of the token file never reach the caller. A
    text all of whose code points can be encoded never makes
    [encode_query] raise. *)
Theorem encoder_raises_only_unicode (encrypt_value : nat -> str -> str)
    (udb : UnicodeDB) :
  (forall text w e w',
     encode_query encrypt_value udb text w = Raises e w' ->
     e = UnicodeEncodeError /\
     exists x, In x (detected udb w text) /\
               ~ Forall scalar_value (slice text (start x) (end_ x))) /\
  (forall text,
     Forall scalar_value text ->
     no_raise (encode_query encrypt_value udb text)) /\
  (forall cols rws,
     raises_only UnicodeEncodeError
       (encode_results encrypt_value udb cols rws)).
Proof.
  assert (Hq : forall text w e w',
     encode_query encrypt_value udb text w = Raises e w' ->
     e = UnicodeEncodeError /\
     exists x, In x (detected udb w text) /\
               ~ Forall scalar_value (slice text (start x) (end_ x))).
  { intros text w e w' H. unfold encode_query in H.
    destruct (detect_pii_detected udb text w) as (w1 & Hdet & _).
    erewrite bind_Returns in H by exact Hdet. cbv zeta in H.
    apply encode_fold_raises in H as (-> & x & Hx & Hn).
    split; [reflexivity|]. exists x. split; [|exact Hn].
    apply list_elem_of_In. rewrite <- (sort_desc_perm start).
    now apply list_elem_of_In. }
  split; [exact Hq|]. split.
  - intros text Hsc w e w' H. apply Hq in H as (_ & x & _ & Hn).
    apply Hn. unfold slice. apply Forall_take, Forall_drop, Hsc.
  - intros cols rws. unfold encode_results.
    assert (Hcell : forall c,
              raises_only UnicodeEncodeError (encode_cell encrypt_value udb c)).
    { intros c w e w' H. destruct c as [s| | | | |]; try discriminate H.
      rewrite encode_cell_query in H.
      destruct (encode_query encrypt_value udb s w) as [r w1|e1 w1|] eqn:E;
        try discriminate H.
      injection H as <- _. now apply Hq in E. }
    assert (Hmap : forall {A B} (f : A -> M B),
              (forall a, raises_only UnicodeEncodeError (f a)) ->
              forall l, raises_only UnicodeEncodeError (for_map f l)).
    { intros A B f Hf. induction l as [|a l IH]; intros w e w' H;
        [discriminate H|].
      cbn [for_map] in H. unfold bind in H.
      destruct (f a w) as [b w1|e1 w1|] eqn:E; [| |discriminate H].
      - destruct (for_map f l w1) as [bs w2|e2 w2|] eqn:E2;
          try discriminate H.
        injection H as <- _. exact (IH _ _ _ E2).
      - injection H as <- _. exact (Hf _ _ _ _ E). }
    apply Hmap. intros row. apply Hmap. exact Hcell.
Qed.

Lemma encoder_raises_only_unicode_witness :
  exists w',
    encode_query demo_encrypt ascii_db
      (55296%N :: str_of "ohn Smith Doe") model_world
    = Raises UnicodeEncodeError w'.
Proof.
  assert (Hrun : exists e w',
            encode_query demo_encrypt ascii_db
              (55296%N :: str_of "ohn Smith Doe") model_world
            = Raises e w')
    by (do 2 eexists; vm_compute; reflexivity).
  destruct Hrun as (e & w' & Hrun).
  destruct (proj1 (encoder_raises_only_unicode demo_encrypt ascii_db)
              _ _ _ _ Hrun) as [-> _].
  exists w'. exact Hrun.
Defined.
